(** * Offline-first vault synchronisation: server reconciliation and client merge

    A shallow embedding of
    - the entry and change-set types ([VaultEntry], [SyncDelta]),
    - the stored per-user vault document ([server/src/models/Vault.ts]),
    - the [POST /sync] handler ([server/src/routes/vault.ts]),
    - the sync service ([syncService.calculateDelta],
      [syncService.resolveConflicts]),
    followed by the properties of the reconciliation protocol.

    Conventions of the embedding.
    - A JavaScript [number] is an IEEE 754 double.  The numbers of this
      program hold integers (versions, ids, counters), so a number is a
      [Z], and [+] on it is [Double.add]: exact up to [2^53] in magnitude
      and rounded to the nearest double beyond.
    - An optional field ([conflictHistory?: ...]) is an [option]; [None] is
      the absent value ([undefined] or [null]), the only falsy value such a
      field has when it is typed as an array (an empty array is truthy).
    - An array is a [list]; [find]/[findIndex] is stdpp's [list_find]
      (first match, with its index); [arr[i] = x] is [<[i:=x]> arr], used
      only at an index that [findIndex] returned.
    - The collection behind [Vault.findOne]/[vault.save] is a [gmap] from
      user id to vault document.  Database failures, and with them the
      [catch] branch of the handler (status 500), are outside the model.
    - [new Date()] and [crypto.randomUUID()] read the outside world.  The
      handler reads the clock once and takes that reading as an argument;
      the client code threads a [World] that serves both. *)

From Stdlib Require Import ZArith.
From stdpp Require Import gmap strings list.

Local Open Scope Z_scope.

(** ** Entry model ([vault.types.ts]) *)

Inductive Resolution := LocalWins | ServerWins | Merged.

(** An item of [conflictHistory]; its [password] field is [cr_password]
    here, next to the entry's own [password]. *)
Record ConflictRecord := mkConflictRecord {
  cr_password : string;
  resolvedAt : string;
  resolution : Resolution
}.

(** An item of [passwordHistory]. *)
Record PasswordChange := mkPasswordChange {
  pc_password : string;
  changedAt : string
}.

Record VaultEntry := mkVaultEntry {
  id : Z;
  website : string;
  username : string;
  password : string;
  securityQuestion : option string;
  securityAnswer : option string;
  isFavorite : bool;
  category : option string;
  passwordHistory : option (list PasswordChange);
  conflictHistory : option (list ConflictRecord);
  version : Z;
  updatedAt : string;
  isDeleted : option bool;
  deletedAt : option string
}.

(** [{ ...e, conflictHistory: h }] *)
Definition withConflictHistory (e : VaultEntry)
    (h : option (list ConflictRecord)) : VaultEntry :=
  {| id := id e; website := website e; username := username e;
     password := password e; securityQuestion := securityQuestion e;
     securityAnswer := securityAnswer e; isFavorite := isFavorite e;
     category := category e; passwordHistory := passwordHistory e;
     conflictHistory := h;
     version := version e; updatedAt := updatedAt e;
     isDeleted := isDeleted e; deletedAt := deletedAt e |}.

(** [a || b] on an optional array field. *)
Definition orElse {A} (a b : option A) : option A :=
  match a with Some x => Some x | None => b end.

(** The ids of a list of entries, in order. *)
Definition ids (l : list VaultEntry) : list Z := id <$> l.

(** [arr.find(e => e.id === i)] / [arr.findIndex(e => e.id === i)]. *)
Definition findById (i : Z) (l : list VaultEntry) : option (nat * VaultEntry) :=
  list_find (λ e, id e = i) l.

Global Arguments findById : simpl never.

(** ** Numbers

    The sum of two doubles is the double nearest to the exact sum, and of
    two that are equally near the one whose significand is even.  The
    doubles of magnitude up to [2^53] are all the integers of that range;
    beyond, a double is a 53-bit significand times a power of two. *)

Module Double.

(** The double nearest to the integer [z], ties to even.  (An integer
    that rounds to [2^1024] or more gives [Infinity]; no sum of this
    program gets there, one of its summands being [1] or [-1].) *)
Definition round (z : Z) : Z :=
  let m := Z.abs z in
  if m <? 2 ^ 53 then z
  else
    let e := Z.log2 m - 52 in
    let q := Z.shiftr m e in
    let r := Z.land m (Z.ones e) in
    let half := Z.shiftl 1 (e - 1) in
    let q' :=
      if r <? half then q
      else if half <? r then q + 1
      else if Z.even q then q else q + 1 in
    Z.sgn z * Z.shiftl q' e.

(** [a + b] *)
Definition add (a b : Z) : Z := round (a + b).

End Double.

(** ** The server ([models/Vault.ts], [routes/vault.ts]) *)

Module Server.

Definition Date := Z.

Record Vault := mkVault {
  userId : string;
  vaultVersion : Z;
  encryptedEntries : list VaultEntry;
  lastSyncedAt : Date
}.

(** [req.body] of [POST /sync] after destructuring.  The three arrays are
    guarded by [x && x.length > 0] in the handler; [None] is an absent one. *)
Record SyncBody := mkSyncBody {
  baseVersion : Z;
  added : option (list VaultEntry);
  updated : option (list VaultEntry);
  deleted : option (list Z);
  eventId : string
}.

(** The JSON responses: [{ success: true, vaultVersion, entries,
    lastSyncedAt }] with status 200, [{ error: 'Vault not found' }] with
    404, and [{ error: 'Sync Conflict', server_base_version, vaultVersion,
    entries }] with 409. *)
Inductive Response :=
| Ok200 (vaultVersion : Z) (entries : list VaultEntry) (lastSyncedAt : Date)
| NotFound404
| Conflict409 (server_base_version : Z) (vaultVersion : Z)
              (entries : list VaultEntry).

(** [currentEntries.filter(e => !deleted.includes(e.id))] *)
Definition removeDeleted (deleted : list Z) (cur : list VaultEntry) :=
  filter (λ e, id e ∉ deleted) cur.

(** Body of [added.forEach]. *)
Definition applyAdd (cur : list VaultEntry) (newEntry : VaultEntry) :=
  match findById (id newEntry) cur with
  | Some _ => cur
  | None => cur ++ [newEntry]
  end.

(** Body of [updated.forEach]. *)
Definition applyUpdate (cur : list VaultEntry) (update : VaultEntry) :=
  match findById (id update) cur with
  | Some (index, existing) =>
      <[index := withConflictHistory update
                   (orElse (conflictHistory update) (conflictHistory existing))]> cur
  | None => cur ++ [update]
  end.

(** [if (xs && xs.length > 0) { ... }] *)
Definition whenNonEmpty {A B} (xs : option (list A)) (f : list A → B → B) (b : B) : B :=
  match xs with
  | Some l => if bool_decide (0 < length l)%nat then f l b else b
  | None => b
  end.

Definition applyDeletions (deleted : option (list Z)) :=
  whenNonEmpty deleted removeDeleted.

Definition applyAdditions (added : option (list VaultEntry)) :=
  whenNonEmpty added (λ l cur, fold_left applyAdd l cur).

Definition applyUpdates (updated : option (list VaultEntry)) :=
  whenNonEmpty updated (λ l cur, fold_left applyUpdate l cur).

(** Lines 54-94: deletions, then additions, then updates. *)
Definition reconcile (body : SyncBody) (entries : list VaultEntry) :=
  applyUpdates (updated body)
    (applyAdditions (added body)
       (applyDeletions (deleted body) entries)).

(** The [POST /sync] handler for the authenticated user [uid]: [now] is the
    value of the single [new Date()] it evaluates, [db] the vault
    collection; the result is the collection after the request and the
    response sent. *)
Definition sync (now : Date) (uid : string) (body : SyncBody)
    (db : gmap string Vault) : gmap string Vault * Response :=
  match db !! uid with
  | None => (db, NotFound404)
  | Some vault =>
      if bool_decide (baseVersion body ≠ vaultVersion vault) then
        (db, Conflict409 (vaultVersion vault) (vaultVersion vault)
               (encryptedEntries vault))
      else
        let currentEntries := reconcile body (encryptedEntries vault) in
        let vault' :=
          {| userId := userId vault;
             vaultVersion := Double.add (vaultVersion vault) 1;
             encryptedEntries := currentEntries;
             lastSyncedAt := now |} in
        (<[uid := vault']> db,
         Ok200 (vaultVersion vault') (encryptedEntries vault') (lastSyncedAt vault'))
  end.

End Server.

(** ** The client ([services/sync.service.ts]) *)

Module SyncService.

Record SyncDelta := mkSyncDelta {
  eventId : string;
  added : list VaultEntry;
  updated : list VaultEntry;
  deleted : list Z;
  baseVersion : Z
}.

(** What the client code reads from outside: the wall clock, as the ISO
    string that the k-th evaluation of [new Date().toISOString()] yields,
    and the generator behind [crypto.randomUUID()].  Each read advances
    its cursor. *)
Record World := mkWorld {
  clock : nat → string;
  clockReads : nat;
  uuids : nat → string;
  uuidDraws : nat
}.

Definition Eff (A : Type) : Type := World → A * World.

Definition ret {A} (a : A) : Eff A := λ w, (a, w).

Definition bind {A B} (m : Eff A) (k : A → Eff B) : Eff B :=
  λ w, let (a, w') := m w in k a w'.

Notation "'let*' x := m 'in' k" := (bind m (λ x, k))
  (at level 10, x name, m at level 100, k at level 200, only parsing).

(** [new Date().toISOString()] *)
Definition nowISO : Eff string :=
  λ w, (clock w (clockReads w),
        mkWorld (clock w) (S (clockReads w)) (uuids w) (uuidDraws w)).

(** [crypto.randomUUID()] *)
Definition randomUUID : Eff string :=
  λ w, (uuids w (uuidDraws w),
        mkWorld (clock w) (clockReads w) (uuids w) (S (uuidDraws w))).

(** [arr.forEach(x => { s = f(s, x) })] with effects. *)
Fixpoint forEachM {A S} (f : S → A → Eff S) (l : list A) (s : S) : Eff S :=
  match l with
  | [] => ret s
  | x :: t => let* s' := f s x in forEachM f t s'
  end.

Definition calculateDelta (localEntries : list VaultEntry) (baseVersion : Z)
    : Eff SyncDelta :=
  let changes := filter (λ e, baseVersion < version e) localEntries in
  let updated := changes in
  let deleted : list Z := [] in
  let* eventId := randomUUID in
  ret {| eventId := eventId;
         added := [];
         updated := updated;
         deleted := deleted;
         baseVersion := baseVersion |}.

Section Merge.

(** [new Date(s).valueOf()]: milliseconds since the epoch, [None] for an
    Invalid Date (whose value is NaN and compares false with everything). *)
Variable parseDate : string → option Z.

(** [new Date(a) > new Date(b)] *)
Definition laterThan (a b : string) : bool :=
  match parseDate a, parseDate b with
  | Some x, Some y => bool_decide (y < x)
  | _, _ => false
  end.

(** Body of [serverDeltas.added.forEach]. *)
Definition mergeAdded (merged : list VaultEntry) (serverEntry : VaultEntry) :=
  match findById (id serverEntry) merged with
  | Some _ => merged
  | None => merged ++ [serverEntry]
  end.

(** The entry written on a server win. *)
Definition serverWins (serverEntry localEntry : VaultEntry) (now : string) :=
  let conflictHistory := default [] (conflictHistory localEntry) in
  withConflictHistory serverEntry
    (Some (mkConflictRecord (password localEntry) now ServerWins
             :: take 4 conflictHistory)).

(** Body of [serverDeltas.updated.forEach]. *)
Definition mergeUpdated (merged : list VaultEntry) (serverEntry : VaultEntry)
    : Eff (list VaultEntry) :=
  match findById (id serverEntry) merged with
  | Some (index, localEntry) =>
      if laterThan (updatedAt serverEntry) (updatedAt localEntry) then
        let* now := nowISO in
        ret (<[index := serverWins serverEntry localEntry now]> merged)
      else ret merged
  | None => ret (merged ++ [serverEntry])
  end.

(** Body of [serverDeltas.deleted.forEach]. *)
Definition dropId (merged : list VaultEntry) (i : Z) :=
  filter (λ e, id e ≠ i) merged.

Definition resolveConflicts (localEntries : list VaultEntry)
    (serverDeltas : SyncDelta) : Eff (list VaultEntry) :=
  let merged := fold_left mergeAdded (added serverDeltas) localEntries in
  let* merged := forEachM mergeUpdated (updated serverDeltas) merged in
  ret (fold_left dropId (deleted serverDeltas) merged).

End Merge.

End SyncService.

(** ** Notions used to state and prove the properties *)

Module MergeSpec.
Import SyncService.

(** The clock was only advanced: same time line, same uuid generator and
    cursor, clock cursor not before. *)
Definition clockAdvanced (w w' : World) : Prop :=
  clock w' = clock w ∧ uuids w' = uuids w ∧ uuidDraws w' = uuidDraws w
  ∧ (clockReads w ≤ clockReads w')%nat.

(** Number of records in an entry's conflict history (none when absent). *)
Definition histLen (e : VaultEntry) : nat :=
  length (default [] (conflictHistory e)).

(** An entry with the [resolvedAt] stamps of its conflict history blanked. *)
Definition eraseStamp (r : ConflictRecord) : ConflictRecord :=
  mkConflictRecord (cr_password r) "" (resolution r).

Definition eraseStamps (e : VaultEntry) : VaultEntry :=
  withConflictHistory e (fmap (M:=list) eraseStamp <$> conflictHistory e).

(** [l] is [kept] followed by entries whose ids are all in [ds]. *)
Definition behind (ds : list Z) (kept l : list VaultEntry) : Prop :=
  ∃ extra, l = kept ++ extra ∧ Forall (λ e, id e ∈ ds) extra.

Section Merge.
Variable parseDate : string → option Z.

(** The list as it stands after the [added] and [updated] loops of
    [resolveConflicts], before the [deleted] loop. *)
Definition beforeDeletion (localEntries : list VaultEntry) (d : SyncDelta)
    : Eff (list VaultEntry) :=
  forEachM (mergeUpdated parseDate) (updated d)
    (fold_left mergeAdded (added d) localEntries).

(** A server entry is settled in a list when the first entry of its id
    there is not older than it: the update step then leaves the list
    alone. *)
Definition settled (s : VaultEntry) (l : list VaultEntry) : Prop :=
  ∃ n e, findById (id s) l = Some (n, e)
         ∧ laterThan parseDate (updatedAt s) (updatedAt e) = false.

End Merge.
End MergeSpec.

(** ** Concrete data for the examples *)

Module Samples.

Definition entry (i : Z) (pw : string) (ver : Z) (stamp : string)
    (deletedFlag : option bool) : VaultEntry :=
  {| id := i; website := "example.org"; username := "alice";
     password := pw; securityQuestion := None; securityAnswer := None;
     isFavorite := false; category := None; passwordHistory := None;
     conflictHistory := None; version := ver; updatedAt := stamp;
     isDeleted := deletedFlag; deletedAt := None |}.

Definition jan1 : string := "2024-01-01T00:00:00.000Z".
Definition jan2 : string := "2024-01-02T00:00:00.000Z".

(** [new Date(s).valueOf()] on the two stamps above; every other string
    stands for an Invalid Date here. *)
Definition parseDate (s : string) : option Z :=
  if decide (s = jan1) then Some 1704067200000
  else if decide (s = jan2) then Some 1704153600000
  else None.

(** A world whose clock moves between two reads and whose generator
    yields two different uuids. *)
Definition world : SyncService.World :=
  {| SyncService.clock := λ k,
       match k with
       | O => "2024-01-03T00:00:00.000Z"
       | _ => "2024-01-03T00:00:01.000Z"
       end;
     SyncService.clockReads := 0;
     SyncService.uuids := λ k,
       match k with
       | O => "3b241101-e2bb-4255-8caf-4136c566a962"
       | _ => "6f1c2a10-0d3e-4c57-9a51-2f8b1f0c9d11"
       end;
     SyncService.uuidDraws := 0 |}.

(** Client side: entry 1 is older locally than on the server, entry 2
    exists only locally. *)
Definition localOld : VaultEntry := entry 1 "hunter2" 1 jan1 None.
Definition localOnly : VaultEntry := entry 2 "tr0ub4dor" 1 jan1 None.
Definition serverNew : VaultEntry := entry 1 "correct horse" 2 jan2 None.

Definition localEntries : list VaultEntry := [localOld; localOnly].

Definition serverDelta : SyncService.SyncDelta :=
  {| SyncService.eventId := "event-1";
     SyncService.added := [];
     SyncService.updated := [serverNew];
     SyncService.deleted := [];
     SyncService.baseVersion := 1 |}.

(** Server side, after [vault.test.ts]: a vault at version 1 holding a
    live entry 123, and a change-set that tombstones it. *)
Definition alive : VaultEntry := entry 123 "alive" 1 jan1 (Some false).
Definition dead : VaultEntry := entry 123 "dead" 2 jan2 (Some true).

Definition vault1 : Server.Vault :=
  {| Server.userId := "user-1"; Server.vaultVersion := 1;
     Server.encryptedEntries := [alive]; Server.lastSyncedAt := 0 |}.

Definition db : gmap string Server.Vault := {[ "user-1" := vault1 ]}.

Definition tombstoneBody : Server.SyncBody :=
  {| Server.baseVersion := 1; Server.added := Some [];
     Server.updated := Some [dead]; Server.deleted := Some [];
     Server.eventId := "event-delete" |}.

(** A vault at version 1 with no entries, and an update for an id the
    server has never seen. *)
Definition emptyVault : Server.Vault :=
  {| Server.userId := "user-2"; Server.vaultVersion := 1;
     Server.encryptedEntries := []; Server.lastSyncedAt := 0 |}.

Definition unknownIdBody : Server.SyncBody :=
  {| Server.baseVersion := 1; Server.added := Some [];
     Server.updated := Some [serverNew]; Server.deleted := Some [];
     Server.eventId := "event-new" |}.

(** The same update sent together with a physical deletion of its id. *)
Definition deleteAndUpdateBody : Server.SyncBody :=
  {| Server.baseVersion := 1; Server.added := Some [];
     Server.updated := Some [dead]; Server.deleted := Some [123];
     Server.eventId := "event-both" |}.

(** A change-set computed against version 5 while the vault is at 1. *)
Definition staleBody : Server.SyncBody :=
  {| Server.baseVersion := 5; Server.added := Some [];
     Server.updated := Some [dead]; Server.deleted := Some [];
     Server.eventId := "event-stale" |}.

(** A vault whose version has reached [2^53], the first number at which
    adding one is no longer exact, and a change-set based on it. *)
Definition bigVault : Server.Vault :=
  {| Server.userId := "user-1"; Server.vaultVersion := 2 ^ 53;
     Server.encryptedEntries := [alive]; Server.lastSyncedAt := 0 |}.

Definition bigDb : gmap string Server.Vault := {[ "user-1" := bigVault ]}.

Definition bigBody : Server.SyncBody :=
  {| Server.baseVersion := 2 ^ 53; Server.added := Some [];
     Server.updated := Some [dead]; Server.deleted := Some [];
     Server.eventId := "event-big" |}.

End Samples.

(** ** The rest of the vault routes, and the wire between client and server *)

(** What pushing an entry of id [i] unless one is there does to the id
    column of a list. *)
Definition addId (l : list Z) (i : Z) : list Z :=
  if decide (i ∈ l) then l else l ++ [i].

Module Routes.
Import Server.

(** The [GET /] handler for the authenticated user [uid]: the stored
    vault, created on the spot when there is none ([new Vault({ userId,
    vaultVersion: 0, encryptedEntries: [] })], whose [lastSyncedAt]
    defaults to the time of creation).  The response is the document. *)
Definition getVault (now : Date) (uid : string) (db : gmap string Vault)
    : gmap string Vault * Vault :=
  match db !! uid with
  | Some vault => (db, vault)
  | None =>
      let vault :=
        {| userId := uid; vaultVersion := 0; encryptedEntries := [];
           lastSyncedAt := now |} in
      (<[uid := vault]> db, vault)
  end.

(** [JSON.stringify(event.delta)] as the [POST /sync] handler destructures
    it: every array of a [SyncDelta] is present. *)
Definition toBody (d : SyncService.SyncDelta) : SyncBody :=
  {| baseVersion := SyncService.baseVersion d;
     added := Some (SyncService.added d);
     updated := Some (SyncService.updated d);
     deleted := Some (SyncService.deleted d);
     eventId := SyncService.eventId d |}.

(** The [POST /sync] requests of one user, served one after the other;
    each comes with the clock reading of its handler.  The responses are
    returned in order. *)
Definition serve (uid : string) (requests : list (Date * SyncBody))
    (db : gmap string Vault) : gmap string Vault * list Response :=
  fold_left
    (λ (acc : gmap string Vault * list Response) (r : Date * SyncBody),
       let (db', response) := sync r.1 uid r.2 acc.1 in
       (db', acc.2 ++ [response]))
    requests (db, []).

Definition isOk (r : Response) : bool :=
  match r with Ok200 _ _ _ => true | _ => false end.

End Routes.

(** ** Password strength ([utils/passwordStrength.ts])

    A password is a string of code units below 256, one [ascii] per code
    unit; [password.length] is [String.length]. *)

Module PasswordStrength.

Definition code (c : Ascii.ascii) : N := Ascii.N_of_ascii c.

Definition inRange (lo hi : N) (c : Ascii.ascii) : bool :=
  ((lo <=? code c) && (code c <=? hi))%N.

(** The character classes [[a-z]], [[A-Z]] and [\d]. *)
Definition isLower : Ascii.ascii → bool := inRange 97 122.
Definition isUpper : Ascii.ascii → bool := inRange 65 90.
Definition isDigit : Ascii.ascii → bool := inRange 48 57.

(** [/re/.test(password)] for a regular expression that is one character
    class [cls]. *)
Definition test (cls : Ascii.ascii → bool) (password : string) : bool :=
  existsb cls (String.list_ascii_of_string password).

(** [[^a-zA-Z0-9]] *)
Definition isOther (c : Ascii.ascii) : bool :=
  negb (isLower c || isUpper c || isDigit c).

Record Strength := mkStrength {
  score : nat;
  label : string;
  color : string
}.

Definition strengths : list (string * string) :=
  [("Very Weak", "text-red-500");
   ("Weak", "text-orange-500");
   ("Fair", "text-yellow-500");
   ("Good", "text-blue-500");
   ("Strong", "text-green-500")].

(** [if (cond) score++] *)
Definition bump (cond : bool) (score : nat) : nat :=
  if cond then S score else score.

(** The score before it is capped. *)
Definition rawScore (password : string) : nat :=
  let score := 0%nat in
  let score := bump (8 <=? String.length password)%nat score in
  let score := bump (12 <=? String.length password)%nat score in
  let score := bump (test isLower password && test isUpper password) score in
  let score := bump (test isDigit password) score in
  let score := bump (test isOther password) score in
  score.

(** [{ score, ...strengths[score] }]; an index outside the table would
    leave [label] and [color] undefined, which is [""] here. *)
Definition calculatePasswordStrength (password : string) : Strength :=
  if String.eqb password "" then mkStrength 0 "None" "text-muted-foreground"
  else
    let score := Nat.min (rawScore password) 4 in
    match strengths !! score with
    | Some (l, c) => mkStrength score l c
    | None => mkStrength score "" ""
    end.

(** [String.prototype.toLowerCase] on a code unit below 256: the letters
    A-Z and the Latin-1 capitals U+00C0-U+00DE (U+00D7, the multiplication
    sign, apart) move up by 32. *)
Definition lowerChar (c : Ascii.ascii) : Ascii.ascii :=
  if (inRange 65 90 c || (inRange 192 222 c && negb (code c =? 215)%N))
  then Ascii.ascii_of_N (code c + 32) else c.

Fixpoint toLowerCase (s : string) : string :=
  match s with
  | EmptyString => EmptyString
  | String c rest => String (lowerChar c) (toLowerCase rest)
  end.

Definition commonPasswords : list string :=
  ["password"; "123456"; "12345678"; "qwerty"; "abc123";
   "monkey"; "1234567"; "letmein"; "trustno1"; "dragon";
   "baseball"; "iloveyou"; "master"; "sunshine"; "ashley";
   "bailey"; "passw0rd"; "shadow"; "123123"; "654321"; "password123"; "admin"].

Definition isCommonPassword (password : string) : bool :=
  if String.eqb password "" then false
  else bool_decide (toLowerCase password ∈ commonPasswords).

(** A string of lower-case letters and digits only. *)
Definition plain (q : string) : bool :=
  forallb (λ c, isLower c || isDigit c) (String.list_ascii_of_string q).

End PasswordStrength.

(** ** The crypto service ([services/crypto.service.ts])

    The service is the demonstration one of the repository: a prefix and
    base64.  Its two platform functions are modelled after their
    definitions: [btoa] encodes a string of code units below 256 (it
    throws on any other, and such strings are outside this model), [atob]
    is the forgiving base64 decoder. *)

Module CryptoService.

Local Open Scope N_scope.

Definition code (c : Ascii.ascii) : N := Ascii.N_of_ascii c.

(** The base64 alphabet: A-Z, a-z, 0-9, [+], [/]. *)
Definition sextetChar (n : N) : Ascii.ascii :=
  Ascii.ascii_of_N
    (if n <? 26 then n + 65
     else if n <? 52 then n + 71
     else if n <? 62 then n - 4
     else if n =? 62 then 43
     else 47).

Definition charSextet (c : Ascii.ascii) : option N :=
  let k := code c in
  if (65 <=? k) && (k <=? 90) then Some (k - 65)
  else if (97 <=? k) && (k <=? 122) then Some (k - 71)
  else if (48 <=? k) && (k <=? 57) then Some (k + 4)
  else if k =? 43 then Some 62
  else if k =? 47 then Some 63
  else None.

Definition padChar : Ascii.ascii := Ascii.ascii_of_N 61.

(** The bytes of the input cut into groups of six bits, three bytes at a
    time; a tail of one or two bytes is filled up with zero bits. *)
Fixpoint sextets (l : list Ascii.ascii) : list N :=
  match l with
  | a :: b :: c :: rest =>
      let n := code a * 65536 + code b * 256 + code c in
      n / 262144 :: (n / 4096) mod 64 :: (n / 64) mod 64 :: n mod 64
        :: sextets rest
  | [a; b] =>
      let n := code a * 65536 + code b * 256 in
      [n / 262144; (n / 4096) mod 64; (n / 64) mod 64]
  | [a] =>
      let n := code a * 65536 in
      [n / 262144; (n / 4096) mod 64]
  | [] => []
  end.

(** [=] signs that fill the output up to a multiple of four characters. *)
Definition padding (l : list Ascii.ascii) : list Ascii.ascii :=
  match (length l mod 3)%nat with
  | 1%nat => [padChar; padChar]
  | 2%nat => [padChar]
  | _ => []
  end.

Definition btoaChars (l : list Ascii.ascii) : list Ascii.ascii :=
  (sextetChar <$> sextets l) ++ padding l.

Definition btoa (text : string) : string :=
  String.string_of_list_ascii (btoaChars (String.list_ascii_of_string text)).

(** ASCII whitespace: tab, line feed, form feed, carriage return, space. *)
Definition isWhitespace (c : Ascii.ascii) : bool :=
  let k := code c in
  (k =? 9) || (k =? 10) || (k =? 12) || (k =? 13) || (k =? 32).

(** "If the length divides by 4 leaving no remainder and the data ends
    with one or two [=], remove them." *)
Definition stripPadding (data : list Ascii.ascii) : list Ascii.ascii :=
  if (length data mod 4 =? 0)%nat then
    match rev data with
    | p :: q :: r =>
        if (code p =? 61) && (code q =? 61) then rev r
        else if code p =? 61 then rev (q :: r)
        else data
    | [p] => if code p =? 61 then [] else data
    | [] => data
    end
  else data.

(** Groups of six bits back to bytes: four groups give three bytes; of a
    tail of three groups the last two bits are dropped, of a tail of two
    the last four. *)
Fixpoint decodeSextets (l : list N) : list Ascii.ascii :=
  match l with
  | a :: b :: c :: d :: rest =>
      let n := ((a * 64 + b) * 64 + c) * 64 + d in
      Ascii.ascii_of_N (n / 65536) :: Ascii.ascii_of_N ((n / 256) mod 256)
        :: Ascii.ascii_of_N (n mod 256) :: decodeSextets rest
  | [a; b; c] =>
      let n := ((a * 64 + b) * 64 + c) / 4 in
      [Ascii.ascii_of_N (n / 256); Ascii.ascii_of_N (n mod 256)]
  | [a; b] =>
      let n := (a * 64 + b) / 16 in
      [Ascii.ascii_of_N n]
  | _ => []
  end.

(** [atob]; [None] is the [InvalidCharacterError] it throws. *)
Definition atob (data : string) : option string :=
  let data :=
    List.filter (λ c, negb (isWhitespace c)) (String.list_ascii_of_string data) in
  let data := stripPadding data in
  if (length data mod 4 =? 1)%nat then None
  else
    match mapM charSextet data with
    | None => None
    | Some groups => Some (String.string_of_list_ascii (decodeSextets groups))
    end.

Definition SECRET_PREFIX : string := "ENC:".

(** [s.substring(n)] *)
Fixpoint substringFrom (n : nat) (s : string) : string :=
  match n, s with
  | O, _ => s
  | S n', String _ rest => substringFrom n' rest
  | S _, EmptyString => EmptyString
  end.

(** The promise that [encrypt] returns, resolved. *)
Definition encrypt (text _key : string) : string :=
  SECRET_PREFIX +:+ btoa text.

(** The promise that [decrypt] returns, resolved. *)
Definition decrypt (encryptedText _key : string) : string :=
  if negb (String.prefix SECRET_PREFIX encryptedText) then encryptedText
  else
    match atob (substringFrom (String.length SECRET_PREFIX) encryptedText) with
    | Some text => text
    | None => encryptedText
    end.

End CryptoService.

(** ** The vault context ([contexts/VaultContext.tsx])

    The provider keeps its state in React state cells.  A handler is
    modelled as a function on the record of those cells: it reads the
    values it was rendered with and its [set...] calls are applied in the
    order they are made; an updater [prev => ...] gets the cell as it then
    stands.  A handler that awaits the network runs in two pieces, the one
    up to its [fetch] and the one after it; each piece is a function of
    its own, applied to the cells as they stand when it runs, so that
    whatever happens in between is whatever the caller puts there.  Toasts
    and console output are left out.

    A password handed to [addEntry] or [updateEntry] is a string of code
    units below 256, as every string of this model is.  On any other,
    [encrypt] throws and the handler sets no cell; that is outside the
    model. *)

Module VaultContext.

Record OutboxEvent := mkOutboxEvent {
  eventId : string;
  timestamp : Z;
  delta : SyncService.SyncDelta
}.

(** The state cells, with the [user?.id] and [token] that [useAuth]
    supplies.  [lastSynced] holds the date that the server's
    [lastSyncedAt] denotes. *)
Record ClientState := mkClientState {
  entries : list VaultEntry;
  vaultVersion : Z;
  serverVersion : Z;
  isSyncing : bool;
  isOnline : bool;
  syncError : bool;
  syncConflict : bool;
  lastSynced : option Server.Date;
  outbox : list OutboxEvent;
  retryTrigger : Z;
  userId : option string;
  token : option string
}.

Definition setEntries (v : list VaultEntry) (st : ClientState) :=
  mkClientState v (vaultVersion st) (serverVersion st) (isSyncing st)
    (isOnline st) (syncError st) (syncConflict st) (lastSynced st)
    (outbox st) (retryTrigger st) (userId st) (token st).

Definition setVaultVersion (v : Z) (st : ClientState) :=
  mkClientState (entries st) v (serverVersion st) (isSyncing st)
    (isOnline st) (syncError st) (syncConflict st) (lastSynced st)
    (outbox st) (retryTrigger st) (userId st) (token st).

Definition setServerVersion (v : Z) (st : ClientState) :=
  mkClientState (entries st) (vaultVersion st) v (isSyncing st)
    (isOnline st) (syncError st) (syncConflict st) (lastSynced st)
    (outbox st) (retryTrigger st) (userId st) (token st).

Definition setIsSyncing (v : bool) (st : ClientState) :=
  mkClientState (entries st) (vaultVersion st) (serverVersion st) v
    (isOnline st) (syncError st) (syncConflict st) (lastSynced st)
    (outbox st) (retryTrigger st) (userId st) (token st).

Definition setSyncError (v : bool) (st : ClientState) :=
  mkClientState (entries st) (vaultVersion st) (serverVersion st)
    (isSyncing st) (isOnline st) v (syncConflict st) (lastSynced st)
    (outbox st) (retryTrigger st) (userId st) (token st).

Definition setSyncConflict (v : bool) (st : ClientState) :=
  mkClientState (entries st) (vaultVersion st) (serverVersion st)
    (isSyncing st) (isOnline st) (syncError st) v (lastSynced st)
    (outbox st) (retryTrigger st) (userId st) (token st).

Definition setLastSynced (v : option Server.Date) (st : ClientState) :=
  mkClientState (entries st) (vaultVersion st) (serverVersion st)
    (isSyncing st) (isOnline st) (syncError st) (syncConflict st) v
    (outbox st) (retryTrigger st) (userId st) (token st).

Definition setOutbox (v : list OutboxEvent) (st : ClientState) :=
  mkClientState (entries st) (vaultVersion st) (serverVersion st)
    (isSyncing st) (isOnline st) (syncError st) (syncConflict st)
    (lastSynced st) v (retryTrigger st) (userId st) (token st).

Definition setRetryTrigger (v : Z) (st : ClientState) :=
  mkClientState (entries st) (vaultVersion st) (serverVersion st)
    (isSyncing st) (isOnline st) (syncError st) (syncConflict st)
    (lastSynced st) (outbox st) v (userId st) (token st).

(** Truthiness of an optional string: [undefined] and [""] are falsy. *)
Definition truthy (o : option string) : bool :=
  match o with
  | Some s => negb (String.eqb s "")
  | None => false
  end.

Inductive SyncStatus := Synced | Pending | Syncing | Offline | Error.

(** The [syncStatus] memo. *)
Definition syncStatus (st : ClientState) : SyncStatus :=
  if syncConflict st then Error
  else if syncError st then Error
  else if isSyncing st then Syncing
  else if bool_decide (0 < length (outbox st))%nat then Pending
  else if bool_decide (serverVersion st < vaultVersion st) then Pending
  else if isOnline st then Synced else Offline.


(** The updater that [syncVault] passes to [setOutbox]. *)
Definition enqueue (event : OutboxEvent) (prev : list OutboxEvent)
    : list OutboxEvent :=
  match last prev with
  | Some lastEvent =>
      if bool_decide (SyncService.baseVersion (delta lastEvent) =
                      SyncService.baseVersion (delta event))
      then take (length prev - 1) prev ++ [event]
      else prev ++ [event]
  | None => prev ++ [event]
  end.

(** [syncVault]; [now] is the value of its [Date.now()]. *)
Definition syncVault (now : Z) (st : ClientState)
    : SyncService.Eff ClientState :=
  if negb (truthy (userId st)) || syncConflict st then SyncService.ret st
  else
    let st := setRetryTrigger (Double.add (retryTrigger st) 1) st in
    let st := setSyncError false st in
    SyncService.bind
      (SyncService.calculateDelta (entries st) (serverVersion st))
      (λ d,
         if bool_decide (length (SyncService.added d) = 0%nat)
            && bool_decide (length (SyncService.updated d) = 0%nat)
            && bool_decide (length (SyncService.deleted d) = 0%nat)
         then SyncService.ret st
         else
           let event :=
             {| eventId := SyncService.eventId d; timestamp := now;
                delta := d |} in
           SyncService.ret (setOutbox (enqueue event (outbox st)) st)).

(** [Math.max(vaultVersion, serverVersion) + 1] *)
Definition nextVersion (st : ClientState) : Z :=
  Double.add (Z.max (vaultVersion st) (serverVersion st)) 1.

(** [arr.map(f)] with effects, left to right. *)
Fixpoint mapEff {A B} (f : A → SyncService.Eff B) (l : list A)
    : SyncService.Eff (list B) :=
  match l with
  | [] => SyncService.ret []
  | x :: t =>
      SyncService.bind (f x) (λ y,
      SyncService.bind (mapEff f t) (λ ys,
      SyncService.ret (y :: ys)))
  end.

(** [addEntry]; [now] is the value of its [Date.now()], [entryData] the
    fields it is called with (those that the object literal overrides do
    not matter).  [encrypt] is called without a key. *)
Definition addEntry (now : Z) (entryData : VaultEntry) (st : ClientState)
    : SyncService.Eff ClientState :=
  SyncService.bind SyncService.nowISO (λ stamp,
    let newEntry :=
      {| id := now;
         website := website entryData;
         username := username entryData;
         password := CryptoService.encrypt (password entryData) "";
         securityQuestion := securityQuestion entryData;
         securityAnswer := securityAnswer entryData;
         isFavorite := isFavorite entryData || false;
         category := category entryData;
         passwordHistory := Some [];
         conflictHistory := conflictHistory entryData;
         version := nextVersion st;
         updatedAt := stamp;
         isDeleted := Some false;
         deletedAt := deletedAt entryData |} in
    SyncService.ret
      (setVaultVersion (nextVersion st)
         (setEntries (entries st ++ [newEntry]) st))).

(** [{ ...e, isDeleted: true, deletedAt, version, updatedAt }] *)
Definition tombstoneOf (v : Z) (deletedStamp updatedStamp : string)
    (e : VaultEntry) : VaultEntry :=
  {| id := id e; website := website e; username := username e;
     password := password e; securityQuestion := securityQuestion e;
     securityAnswer := securityAnswer e; isFavorite := isFavorite e;
     category := category e; passwordHistory := passwordHistory e;
     conflictHistory := conflictHistory e;
     version := v;
     updatedAt := updatedStamp;
     isDeleted := Some true;
     deletedAt := Some deletedStamp |}.

(** The tombstone that [deleteEntry] writes in place of [e]: the clock is
    read for [deletedAt], then for [updatedAt]. *)
Definition tombstone (st : ClientState) (e : VaultEntry)
    : SyncService.Eff VaultEntry :=
  SyncService.bind SyncService.nowISO (λ deletedStamp,
  SyncService.bind SyncService.nowISO (λ updatedStamp,
  SyncService.ret (tombstoneOf (nextVersion st) deletedStamp updatedStamp e))).

Definition deleteEntry (i : Z) (st : ClientState)
    : SyncService.Eff ClientState :=
  SyncService.bind
    (mapEff (λ e, if bool_decide (id e = i) then tombstone st e
                  else SyncService.ret e)
       (entries st))
    (λ entries',
       SyncService.ret
         (setVaultVersion (nextVersion st) (setEntries entries' st))).

(** The [Partial<VaultEntry>] that [updateEntry] is called with: [None]
    is an absent key.  The keys [version], [updatedAt], [passwordHistory]
    and [isDeleted], which the object literal overrides, are left out. *)
Record EntryPatch := mkEntryPatch {
  p_id : option Z;
  p_website : option string;
  p_username : option string;
  p_password : option string;
  p_securityQuestion : option (option string);
  p_securityAnswer : option (option string);
  p_isFavorite : option bool;
  p_category : option (option string);
  p_conflictHistory : option (option (list ConflictRecord));
  p_deletedAt : option (option string)
}.

(** [entryData.password && entryData.password !== stored] *)
Definition passwordChanged (entryData : EntryPatch) (stored : string) : bool :=
  truthy (p_password entryData)
  && negb (bool_decide (p_password entryData = Some stored)).

(** [finalEntryData]: the patch, its password encrypted when the entry
    exists and the password differs from the stored one. *)
Definition finalPatch (entryData : EntryPatch) (existing : option VaultEntry)
    : EntryPatch :=
  match existing, p_password entryData with
  | Some e, Some pw =>
      if passwordChanged entryData (password e) then
        mkEntryPatch (p_id entryData) (p_website entryData)
          (p_username entryData) (Some (CryptoService.encrypt pw ""))
          (p_securityQuestion entryData) (p_securityAnswer entryData)
          (p_isFavorite entryData) (p_category entryData)
          (p_conflictHistory entryData) (p_deletedAt entryData)
      else entryData
  | _, _ => entryData
  end.

(** [{ ...e, ...finalEntryData, version, updatedAt, passwordHistory,
    isDeleted: false }] *)
Definition patchedEntry (v : Z) (updatedStamp : string)
    (history : list PasswordChange) (finalEntryData : EntryPatch)
    (e : VaultEntry) : VaultEntry :=
  {| id := default (id e) (p_id finalEntryData);
     website := default (website e) (p_website finalEntryData);
     username := default (username e) (p_username finalEntryData);
     password := default (password e) (p_password finalEntryData);
     securityQuestion :=
       default (securityQuestion e) (p_securityQuestion finalEntryData);
     securityAnswer :=
       default (securityAnswer e) (p_securityAnswer finalEntryData);
     isFavorite := default (isFavorite e) (p_isFavorite finalEntryData);
     category := default (category e) (p_category finalEntryData);
     passwordHistory := Some history;
     conflictHistory :=
       default (conflictHistory e) (p_conflictHistory finalEntryData);
     version := v;
     updatedAt := updatedStamp;
     isDeleted := Some false;
     deletedAt := default (deletedAt e) (p_deletedAt finalEntryData) |}.

(** The entry that [updateEntry] writes in place of [e]: the clock is read
    for [changedAt] when the password changes, then for [updatedAt]. *)
Definition patched (st : ClientState) (entryData finalEntryData : EntryPatch)
    (e : VaultEntry) : SyncService.Eff VaultEntry :=
  let isPasswordChanged := passwordChanged entryData (password e) in
  let passwordHistory := default [] (passwordHistory e) in
  SyncService.bind
    (if isPasswordChanged then
       SyncService.bind SyncService.nowISO (λ changedStamp,
         SyncService.ret
           (mkPasswordChange (password e) changedStamp
              :: take 4 passwordHistory))
     else SyncService.ret passwordHistory)
    (λ passwordHistory,
  SyncService.bind SyncService.nowISO (λ updatedStamp,
  SyncService.ret
    (patchedEntry (nextVersion st) updatedStamp passwordHistory
       finalEntryData e))).

Definition updateEntry (i : Z) (entryData : EntryPatch) (st : ClientState)
    : SyncService.Eff ClientState :=
  let existing := snd <$> findById i (entries st) in
  let finalEntryData := finalPatch entryData existing in
  SyncService.bind
    (mapEff (λ e, if bool_decide (id e = i)
                  then patched st entryData finalEntryData e
                  else SyncService.ret e)
       (entries st))
    (λ entries',
       SyncService.ret
         (setVaultVersion (nextVersion st) (setEntries entries' st))).

(** The three local mutations. *)
Inductive Mutation :=
| Add (now : Z) (entryData : VaultEntry)
| Update (i : Z) (entryData : EntryPatch)
| Delete (i : Z).

Definition mutate (m : Mutation) (st : ClientState)
    : SyncService.Eff ClientState :=
  match m with
  | Add now entryData => addEntry now entryData st
  | Update i entryData => updateEntry i entryData st
  | Delete i => deleteEntry i st
  end.

(** No two neighbours in the outbox are built on the same base version. *)
Definition adjacentDistinct (o : list OutboxEvent) : Prop :=
  ∀ k a b, o !! k = Some a → o !! S k = Some b →
    SyncService.baseVersion (delta a) ≠ SyncService.baseVersion (delta b).

(** What [fetch] gives the outbox processor: a response, or a rejection
    (the network is down). *)
Inductive FetchResult := Replied (r : Server.Response) | Rejected.

(** [result.vaultVersion || result.entries.length] *)
Definition versionOr (v : Z) (entries : list VaultEntry) : Z :=
  if bool_decide (v = 0) then Z.of_nat (length entries) else v.

(** The outbox effect up to its [fetch]: the condition of the effect, the
    guard of [process] and [setIsSyncing(true)].  The result is the state
    and the event posted, if one is. *)
Definition send (st : ClientState) : ClientState * option OutboxEvent :=
  if negb (isOnline st && bool_decide (0 < length (outbox st))%nat
           && negb (isSyncing st))
  then (st, None)
  else if negb (isOnline st) || bool_decide (length (outbox st) = 0%nat)
          || syncConflict st || negb (truthy (userId st))
          || negb (truthy (token st))
  then (st, None)
  else
    match outbox st with
    | [] => (st, None)
    | event :: _ => (setIsSyncing true st, Some event)
    end.

(** The rest of [process], once the request for [event] has settled.
    [st] is the state as it stands then.  [mounted] is the variable of
    that name: it is [false] once the effect that sent the request has
    been cleaned up, which happens when one of its dependencies ([outbox],
    [isOnline], [syncConflict], [token], [userId], [showToast],
    [retryTrigger]) has changed or the provider is gone.  The branch for
    status 409 does not look at it. *)
Definition settle (mounted : bool) (event : OutboxEvent)
    (result : FetchResult) (st : ClientState) : ClientState :=
  match result with
  | Replied (Server.Conflict409 _ _ _) =>
      setIsSyncing false (setSyncError true (setSyncConflict true st))
  | Replied (Server.Ok200 v stored syncedAt) =>
      if mounted then
        let st :=
          setOutbox
            (filter (λ e, eventId e ≠ eventId event) (outbox st)) st in
        let st :=
          setVaultVersion (versionOr v stored) (setEntries stored st) in
        let st := setServerVersion (versionOr v stored) st in
        let st := setLastSynced (Some syncedAt) st in
        setIsSyncing false (setSyncError false st)
      else st
  | Replied Server.NotFound404 | Rejected =>
      if mounted then setIsSyncing false (setSyncError true st) else st
  end.

(** [initializeVault] up to its [fetch]: the outbox saved in local storage
    is put into the state.  [saved] is that outbox, [None] when there is
    none or it does not parse.  The result is the state and, when the
    [GET /] request is sent, the local variable [currentOutbox] that the
    rest of the function goes on with.  (When no request is sent the
    function falls back to the vault saved in local storage; that is left
    out.) *)
Definition loadOutbox (saved : option (list OutboxEvent)) (st : ClientState)
    : ClientState * option (list OutboxEvent) :=
  if negb (truthy (userId st)) then (st, None)
  else
    let currentOutbox := default [] saved in
    let st' := match saved with Some o => setOutbox o st | None => st end in
    if isOnline st && truthy (token st) then (st', Some currentOutbox)
    else (st', None).

(** The rest of [initializeVault], once [GET /] has answered 200 with the
    document [data]: [currentOutbox] is its local variable, [st] the state
    as it stands then.  [data.vaultVersion || 0] and
    [data.encryptedEntries || []] are the fields themselves. *)
Definition afterGet (currentOutbox : list OutboxEvent) (data : Server.Vault)
    (st : ClientState) : ClientState :=
  let serverVer := Server.vaultVersion data in
  let stale :=
    match currentOutbox with
    | firstEvent :: _ =>
        negb (bool_decide
                (SyncService.baseVersion (delta firstEvent) = serverVer))
    | [] => false
    end in
  let st := if stale then setOutbox [] st else st in
  let currentOutbox := if stale then [] else currentOutbox in
  let st :=
    if bool_decide (length currentOutbox = 0%nat)
    then setVaultVersion serverVer
           (setEntries (Server.encryptedEntries data) st)
    else st in
  setSyncConflict false (setSyncError false (setServerVersion serverVer st)).

End VaultContext.

(** ** The clipboard context ([contexts/ClipboardContext.tsx]) *)

Module ClipboardContext.

Record ClipboardState := mkClipboardState {
  hasCopied : bool;
  timeLeft : Z;
  copiedId : option Z
}.

(** The initial values of the three state cells. *)
Definition initial : ClipboardState := mkClipboardState false 0 None.

(** One firing of the interval, which exists only while [timeLeft > 0]:
    the updater passed to [setTimeLeft]. *)
Definition tick (st : ClipboardState) : ClipboardState :=
  if bool_decide (0 < timeLeft st) then
    if bool_decide (timeLeft st ≤ 1) then mkClipboardState false 0 None
    else mkClipboardState (hasCopied st) (Double.add (timeLeft st) (-1))
           (copiedId st)
  else st.

(** [copyToClipboard]; [written] tells whether
    [navigator.clipboard.writeText] succeeded. *)
Definition copyToClipboard (written : bool) (st : ClipboardState)
    : ClipboardState :=
  if written then mkClipboardState true 30 (copiedId st) else st.

Inductive Event := Copy (written : bool) | Tick.

Definition step (st : ClipboardState) (ev : Event) : ClipboardState :=
  match ev with
  | Copy written => copyToClipboard written st
  | Tick => tick st
  end.

(** The state after a sequence of events, from the initial one. *)
Definition run (events : list Event) : ClipboardState :=
  fold_left step events initial.

End ClipboardContext.

Module ClipboardSpec.
Import ClipboardContext.

(** What the countdown keeps true of the three state cells. *)
Definition wellFormed (st : ClipboardState) : Prop :=
  0 ≤ timeLeft st ≤ 30
  ∧ copiedId st = None
  ∧ (hasCopied st = true ↔ 0 < timeLeft st).

End ClipboardSpec.

(** ** Sample data for the routes and the contexts *)

Module ClientSamples.
Import VaultContext.

(** The collection of [Samples.db] with a second user. *)
Definition twoUsers : gmap string Server.Vault :=
  <["user-2" := Samples.emptyVault]> Samples.db.

(** The live entry 123 with a conflict already archived. *)
Definition archived : VaultEntry :=
  withConflictHistory Samples.alive
    (Some [mkConflictRecord "older" Samples.jan1 ServerWins]).

Definition archivedVault : Server.Vault :=
  {| Server.userId := "user-1"; Server.vaultVersion := 1;
     Server.encryptedEntries := [archived]; Server.lastSyncedAt := 0 |}.

Definition archivedDb : gmap string Server.Vault :=
  {[ "user-1" := archivedVault ]}.

(** A server delta that adds entry 1. *)
Definition additionDelta : SyncService.SyncDelta :=
  {| SyncService.eventId := "event-3";
     SyncService.added := [Samples.serverNew];
     SyncService.updated := [];
     SyncService.deleted := [];
     SyncService.baseVersion := 1 |}.

(** A server delta that tells [newerLocal] nothing new. *)
Definition newerLocal : list VaultEntry :=
  [Samples.serverNew; Samples.localOnly].

Definition knownDelta : SyncService.SyncDelta :=
  {| SyncService.eventId := "event-4";
     SyncService.added := [Samples.localOnly];
     SyncService.updated := [Samples.localOld];
     SyncService.deleted := [99];
     SyncService.baseVersion := 1 |}.

(** A client of user 1 that has tombstoned entry 123 on top of version 1
    and queued the change. *)
Definition pendingEvent : OutboxEvent :=
  {| eventId := "event-2"; timestamp := 1704240000000;
     delta :=
       {| SyncService.eventId := "event-2";
          SyncService.added := [];
          SyncService.updated := [Samples.dead];
          SyncService.deleted := [];
          SyncService.baseVersion := 1 |} |}.

Definition client : ClientState :=
  {| entries := [Samples.dead]; vaultVersion := 2; serverVersion := 1;
     isSyncing := false; isOnline := true; syncError := false;
     syncConflict := false; lastSynced := None; outbox := [pendingEvent];
     retryTrigger := 0; userId := Some "user-1";
     token := Some "token-1" |}.

(** The same client with a change queued against version 5. *)
Definition staleEvent : OutboxEvent :=
  {| eventId := "event-9"; timestamp := 1704240000000;
     delta :=
       {| SyncService.eventId := "event-9";
          SyncService.added := [];
          SyncService.updated := [Samples.dead];
          SyncService.deleted := [];
          SyncService.baseVersion := 5 |} |}.

(** The client as it mounts: nothing loaded yet. *)
Definition fresh : ClientState :=
  {| entries := []; vaultVersion := 0; serverVersion := 0;
     isSyncing := false; isOnline := true; syncError := false;
     syncConflict := false; lastSynced := None; outbox := [];
     retryTrigger := 0; userId := Some "user-1";
     token := Some "token-1" |}.

(** [client] once the answer to its pending event has been taken in. *)
Definition settled : ClientState :=
  settle true pendingEvent
    (Replied (Server.sync 7 "user-1" (Routes.toBody (delta pendingEvent))
                Samples.db).2)
    (setIsSyncing true client).

(** A client that holds the live entry 123 and entry 2. *)
Definition editing : ClientState :=
  setEntries [Samples.alive; Samples.localOnly] client.

(** A patch that changes the password only. *)
Definition newPassword : EntryPatch :=
  {| p_id := None; p_website := None; p_username := None;
     p_password := Some "n3w-secret"; p_securityQuestion := None;
     p_securityAnswer := None; p_isFavorite := None; p_category := None;
     p_conflictHistory := None; p_deletedAt := None |}.

End ClientSamples.

(** * Properties *)

(** ** Lists of entries *)

Section EntryLists.

Implicit Types (l cur : list VaultEntry) (e u : VaultEntry) (i : Z).

Lemma id_withConflictHistory e h : id (withConflictHistory e h) = id e.
Proof. reflexivity. Qed.

Lemma findById_Some i l n e :
  findById i l = Some (n, e) →
  l !! n = Some e ∧ id e = i ∧ ∀ m y, l !! m = Some y → (m < n)%nat → id y ≠ i.
Proof. unfold findById. by rewrite list_find_Some. Qed.

Lemma findById_None i l : findById i l = None ↔ i ∉ ids l.
Proof.
  unfold findById, ids. rewrite list_find_None, Forall_forall, list_elem_of_fmap.
  split.
  - intros H (e & -> & He). by apply (H e).
  - intros H e He Heq. apply H. by exists e.
Qed.

Lemma findById_is_Some i l : is_Some (findById i l) ↔ i ∈ ids l.
Proof.
  rewrite <- not_eq_None_Some, findById_None.
  split; [apply dec_stable | auto].
Qed.

Lemma findById_cons i e l :
  findById i (e :: l) =
    if decide (id e = i) then Some (0%nat, e)
    else prod_map S Datatypes.id <$> findById i l.
Proof. reflexivity. Qed.

Lemma findById_app_l i l1 l2 n e :
  findById i l1 = Some (n, e) → findById i (l1 ++ l2) = Some (n, e).
Proof. apply list_find_app_l. Qed.

(** Appending an entry whose id is new does not disturb the search for
    another id. *)
Lemma findById_snoc_other i l e :
  id e ≠ i → findById i (l ++ [e]) = findById i l.
Proof.
  intros Hne. induction l as [|x l IH]; simpl.
  - rewrite findById_cons. by rewrite decide_False.
  - rewrite !findById_cons. case_decide; [done|]. by rewrite IH.
Qed.

Lemma findById_snoc_new l e :
  id e ∉ ids l → findById (id e) (l ++ [e]) = Some (length l, e).
Proof.
  intros Hnew. apply findById_None in Hnew.
  unfold findById in *. rewrite list_find_app_r by done.
  simpl. rewrite decide_True by done. simpl. done.
Qed.

(** Overwriting a slot held by another id with an entry of another id
    does not disturb the search for [i]. *)
Lemma findById_insert_other i l m x x' :
  l !! m = Some x → id x ≠ i → id x' ≠ i →
  findById i (<[m := x']> l) = findById i l.
Proof.
  revert m. induction l as [|y l IH]; intros m Hm Hx Hx'; [done|].
  destruct m as [|m]; simpl in *.
  - injection Hm as ->. rewrite !findById_cons. by rewrite !decide_False.
  - rewrite !findById_cons. case_decide; [done|]. by rewrite (IH m).
Qed.

(** Overwriting the slot found for [i] with another entry of id [i]. *)
Lemma findById_insert_same i l n e e' :
  findById i l = Some (n, e) → id e' = i →
  findById i (<[n := e']> l) = Some (n, e').
Proof.
  revert n. induction l as [|y l IH]; intros n Hf He'; [done|].
  rewrite findById_cons in Hf. destruct (decide (id y = i)) as [Hy|Hy].
  - injection Hf as <- <-. simpl. rewrite findById_cons. by rewrite decide_True.
  - destruct (findById i l) as [[k z]|] eqn:Hl; [|done].
    simpl in Hf. injection Hf as <- <-. simpl.
    rewrite findById_cons, decide_False by done.
    by rewrite (IH k).
Qed.

(** A filter that keeps every entry of id [i] keeps the first of them
    first. *)
Lemma findById_filter (Q : VaultEntry → Prop) `{∀ x, Decision (Q x)} i l :
  (∀ x, id x = i → Q x) →
  snd <$> findById i (filter Q l) = snd <$> findById i l.
Proof.
  intros HQ. induction l as [|y l IH]; [done|].
  rewrite filter_cons, (findById_cons i y l).
  destruct (decide (id y = i)) as [Hy|Hy].
  - rewrite decide_True by auto. rewrite findById_cons. by rewrite decide_True.
  - case_decide.
    + rewrite findById_cons, decide_False by done.
      rewrite <- !option_fmap_compose. 
      destruct (findById i (filter Q l)) as [[??]|], (findById i l) as [[??]|];
        simpl in *; congruence.
    + rewrite IH. rewrite <- option_fmap_compose.
      by destruct (findById i l) as [[??]|].
Qed.

Lemma ids_insert_same l n e e' :
  l !! n = Some e → id e' = id e → ids (<[n := e']> l) = ids l.
Proof.
  intros Hn Hid. unfold ids. rewrite list_fmap_insert, Hid.
  apply list_insert_id. by rewrite list_lookup_fmap, Hn.
Qed.

Lemma ids_app l1 l2 : ids (l1 ++ l2) = ids l1 ++ ids l2.
Proof. apply fmap_app. Qed.

Lemma elem_of_ids i l : i ∈ ids l ↔ ∃ e, e ∈ l ∧ id e = i.
Proof.
  unfold ids. rewrite list_elem_of_fmap.
  split; [intros (e & -> & He) | intros (e & He & <-)]; eauto.
Qed.

(** Overwriting a slot that a filter rejects with an entry it rejects. *)
Lemma filter_insert_rejected (Q : VaultEntry → Prop) `{∀ x, Decision (Q x)}
    l n x x' :
  l !! n = Some x → ¬ Q x → ¬ Q x' → filter Q (<[n := x']> l) = filter Q l.
Proof.
  revert n. induction l as [|y l IH]; intros n Hn Hx Hx'; [done|].
  destruct n as [|n]; simpl in *.
  - injection Hn as ->. by rewrite !filter_cons, !decide_False.
  - rewrite !filter_cons. by rewrite (IH n).
Qed.

Lemma filter_keeps_all (Q : VaultEntry → Prop) `{∀ x, Decision (Q x)} l :
  (∀ x, x ∈ l → Q x) → filter Q l = l.
Proof.
  induction l as [|y l IH]; intros HQ; [done|].
  rewrite filter_cons_True by (apply HQ; by left).
  f_equal. apply IH. intros x Hx. apply HQ. by right.
Qed.

Lemma filter_drops_all (Q : VaultEntry → Prop) `{∀ x, Decision (Q x)} l :
  (∀ x, x ∈ l → ¬ Q x) → filter Q l = [].
Proof.
  induction l as [|y l IH]; intros HQ; [done|].
  rewrite filter_cons_False by (apply HQ; by left).
  apply IH. intros x Hx. apply HQ. by right.
Qed.

End EntryLists.

(** Closes a decidable goal on concrete data by evaluation. *)
Ltac by_decide :=
  match goal with
  | |- ?P => apply (bool_decide_unpack P); vm_compute; exact I
  end.

(** ** Numbers *)

Module DoubleFacts.

Lemma add_exact a b : - 2 ^ 53 ≤ a + b ≤ 2 ^ 53 → Double.add a b = a + b.
Proof.
  intros Hrange. unfold Double.add, Double.round.
  destruct (Z.ltb_spec (Z.abs (a + b)) (2 ^ 53)) as [|Hbig]; [done|].
  assert (a + b = 2 ^ 53 ∨ a + b = - 2 ^ 53) as [-> | ->] by lia;
    reflexivity.
Qed.

Lemma increment_exact v : - 2 ^ 53 ≤ v < 2 ^ 53 → Double.add v 1 = v + 1.
Proof. intros Hv. apply add_exact. lia. Qed.

(** From [2^53] on the doubles are even. *)
Lemma round_even z : 2 ^ 53 ≤ Z.abs z → Z.even (Double.round z) = true.
Proof.
  intros Hbig. unfold Double.round.
  destruct (Z.ltb_spec (Z.abs z) (2 ^ 53)) as [|_]; [lia|].
  assert (53 ≤ Z.log2 (Z.abs z)) as Hlog.
  { change 53 with (Z.log2 (2 ^ 53)). by apply Z.log2_le_mono. }
  set (e := Z.log2 (Z.abs z) - 52). assert (1 ≤ e) as He by lia.
  assert (Z.even (2 ^ e) = true) as Hpow by (by rewrite Z.even_pow by lia).
  rewrite Z.shiftl_mul_pow2 by lia.
  by rewrite !Z.even_mul, Hpow, !orb_true_r.
Qed.

(** Past [2^53] the odd integers are no doubles: a tie goes to the
    neighbour with the even significand. *)
Lemma round_ties_to_even :
  Double.round (2 ^ 53 + 1) = 2 ^ 53
  ∧ Double.round (2 ^ 53 + 3) = 2 ^ 53 + 4
  ∧ Double.round (- (2 ^ 53 + 1)) = - 2 ^ 53
  ∧ Double.round (2 ^ 54 + 2) = 2 ^ 54
  ∧ Double.round (2 ^ 54 + 3) = 2 ^ 54 + 4.
Proof. repeat split. Qed.

(** The first version at which the increment is lost. *)
Lemma increment_stuck : Double.add (2 ^ 53) 1 = 2 ^ 53.
Proof. reflexivity. Qed.

(** Adding one to a double is exact on [-2^53 ≤ v < 2^53] and nowhere
    else. *)
Lemma increment_exact_iff v :
  Double.round v = v →
  Double.add v 1 = v + 1 ↔ - 2 ^ 53 ≤ v < 2 ^ 53.
Proof.
  intros Hdouble. split; [|apply increment_exact].
  intros Hadd.
  destruct (decide (- 2 ^ 53 ≤ v < 2 ^ 53)) as [|Hout]; [done|exfalso].
  assert (Z.even v = true) as Hv.
  { rewrite <- Hdouble. apply round_even. lia. }
  assert (Z.even (v + 1) = true) as Hv1.
  { rewrite <- Hadd. unfold Double.add. apply round_even.
    assert (v ≠ - 2 ^ 53 - 1) by (intros ->; discriminate Hv). lia. }
  rewrite Z.even_add, Hv in Hv1. discriminate Hv1.
Qed.

End DoubleFacts.

(** ** The reconciliation endpoint *)

Module ServerFacts.
Import Server.

Implicit Types (l cur : list VaultEntry) (e u : VaultEntry) (i : Z).

Lemma whenNonEmpty_Some {A B} (l : list A) (f : list A → B → B) (b : B) :
  (∀ b', f [] b' = b') → whenNonEmpty (Some l) f b = f l b.
Proof.
  intros Hnil. unfold whenNonEmpty. case_bool_decide as Hlen; [done|].
  destruct l; [by rewrite Hnil | simpl in Hlen; lia].
Qed.

Lemma applyUpdates_Some us cur :
  applyUpdates (Some us) cur = fold_left applyUpdate us cur.
Proof. unfold applyUpdates. by apply whenNonEmpty_Some. Qed.

Lemma applyAdditions_Some es cur :
  applyAdditions (Some es) cur = fold_left applyAdd es cur.
Proof. unfold applyAdditions. by apply whenNonEmpty_Some. Qed.

Lemma applyDeletions_Some ds cur :
  (0 < length ds)%nat → applyDeletions (Some ds) cur = removeDeleted ds cur.
Proof.
  intros Hlen. unfold applyDeletions, whenNonEmpty. by rewrite bool_decide_eq_true_2.
Qed.

Lemma ids_removeDeleted ds cur i :
  i ∈ ids (removeDeleted ds cur) ↔ i ∈ ids cur ∧ i ∉ ds.
Proof.
  unfold ids, removeDeleted. rewrite !list_elem_of_fmap. split.
  - intros (e & -> & He). apply list_elem_of_filter in He as [Hd He]. eauto.
  - intros [(e & -> & He) Hd]. exists e. split; [done|].
    by apply list_elem_of_filter.
Qed.

Lemma ids_applyUpdate cur u :
  ids (applyUpdate cur u) = if decide (id u ∈ ids cur) then ids cur else ids cur ++ [id u].
Proof.
  unfold applyUpdate. destruct (findById (id u) cur) as [[n e]|] eqn:Hf.
  - rewrite decide_True by (apply findById_is_Some; eauto).
    apply findById_Some in Hf as (Hn & He & _).
    by apply ids_insert_same with e.
  - apply findById_None in Hf. rewrite decide_False by done.
    unfold ids. by rewrite fmap_app.
Qed.

Lemma ids_applyUpdate_mono cur u i : i ∈ ids cur → i ∈ ids (applyUpdate cur u).
Proof.
  intros Hi. rewrite ids_applyUpdate. case_decide; [done|].
  apply elem_of_app. by left.
Qed.

Lemma ids_applyUpdate_self cur u : id u ∈ ids (applyUpdate cur u).
Proof.
  rewrite ids_applyUpdate. case_decide; [done|].
  apply elem_of_app. right. apply list_elem_of_singleton. reflexivity.
Qed.

Lemma ids_fold_applyUpdate_mono us cur i :
  i ∈ ids cur → i ∈ ids (fold_left applyUpdate us cur).
Proof.
  revert cur. induction us as [|u us IH]; intros cur Hi; simpl; [done|].
  by apply IH, ids_applyUpdate_mono.
Qed.

Lemma ids_fold_applyUpdate us cur i :
  i ∈ ids us → i ∈ ids (fold_left applyUpdate us cur).
Proof.
  revert cur. induction us as [|u us IH]; intros cur Hi; simpl.
  - by apply elem_of_nil in Hi.
  - unfold ids in Hi. rewrite fmap_cons in Hi. apply elem_of_cons in Hi as [->|Hi].
    + apply ids_fold_applyUpdate_mono, ids_applyUpdate_self.
    + by apply IH.
Qed.

(** The accepted branch of the handler, as one equation. *)
Lemma sync_accepted now uid body db vault :
  db !! uid = Some vault →
  baseVersion body = vaultVersion vault →
  sync now uid body db =
    (<[uid := mkVault (userId vault) (Double.add (vaultVersion vault) 1)
                (reconcile body (encryptedEntries vault)) now]> db,
     Ok200 (Double.add (vaultVersion vault) 1)
       (reconcile body (encryptedEntries vault)) now).
Proof.
  intros Hdb Hv. unfold sync. rewrite Hdb.
  by rewrite bool_decide_eq_false_2 by (intros Hne; by apply Hne).
Qed.

Lemma sync_rejected now uid body db vault :
  db !! uid = Some vault →
  baseVersion body ≠ vaultVersion vault →
  sync now uid body db =
    (db, Conflict409 (vaultVersion vault) (vaultVersion vault)
           (encryptedEntries vault)).
Proof.
  intros Hdb Hv. unfold sync. rewrite Hdb.
  by rewrite bool_decide_eq_true_2.
Qed.


(** ** Claims about the reconciliation endpoint *)

(** C1. A change-set whose [baseVersion] differs from the stored
    [vaultVersion] is rejected without any mutation: the collection after
    the request is the collection before it (so the user's entries,
    [vaultVersion] and [lastSyncedAt] are what they were), and the response
    is the 409 conflict carrying the current [vaultVersion] and the full
    current entry list. *)
Theorem stale_base_is_pure_rejection now uid body db vault :
  db !! uid = Some vault →
  baseVersion body ≠ vaultVersion vault →
  (sync now uid body db).1 = db
  ∧ (sync now uid body db).1 !! uid = Some vault
  ∧ (sync now uid body db).2 =
      Conflict409 (vaultVersion vault) (vaultVersion vault)
        (encryptedEntries vault).
Proof.
  intros Hdb Hne. rewrite (sync_rejected _ _ _ _ _ Hdb Hne). simpl. done.
Qed.

(** C2, as the code has it.  A change-set whose [baseVersion] equals the
    stored [vaultVersion] is applied, and when the stored version [v] is
    in the range [-2^53 ≤ v < 2^53], where adding one to a number is
    exact, it moves [vaultVersion] up by exactly one, whatever its
    [added], [updated] and [deleted] hold; the response reports that
    version. *)
Theorem accepted_sync_increments_by_one now uid body db vault :
  db !! uid = Some vault →
  baseVersion body = vaultVersion vault →
  - 2 ^ 53 ≤ vaultVersion vault < 2 ^ 53 →
  ∃ vault' entries,
    (sync now uid body db).1 !! uid = Some vault'
    ∧ vaultVersion vault' = vaultVersion vault + 1
    ∧ (sync now uid body db).2 = Ok200 (vaultVersion vault + 1) entries now.
Proof.
  intros Hdb Heq Hrange. rewrite (sync_accepted _ _ _ _ _ Hdb Heq). simpl.
  rewrite (DoubleFacts.increment_exact _ Hrange).
  eexists _, _. rewrite lookup_insert_eq. done.
Qed.

(** C2 as stated fails: a vault stored at version [2^53] accepts the
    change-set based on that version, answers 200, and is stored at
    version [2^53] again, not at [2^53 + 1]. *)
Lemma accepted_sync_at_2_53_keeps_the_version :
  Samples.bigDb !! "user-1" = Some Samples.bigVault
  ∧ baseVersion Samples.bigBody = vaultVersion Samples.bigVault
  ∧ (sync 7 "user-1" Samples.bigBody Samples.bigDb).2 =
      Ok200 (2 ^ 53) [Samples.dead] 7
  ∧ (sync 7 "user-1" Samples.bigBody Samples.bigDb).1 !! "user-1" =
      Some (mkVault "user-1" (2 ^ 53) [Samples.dead] 7)
  ∧ 2 ^ 53 ≠ vaultVersion Samples.bigVault + 1.
Proof.
  split; [reflexivity|]. split; [reflexivity|].
  split; [reflexivity|]. split; [reflexivity|]. by_decide.
Qed.

(** C3, as the code has it.  Submitting the same change-set twice in a
    row on a vault whose version [v] is in the range [-2^53 ≤ v < 2^53]:
    the first submission is accepted and leaves the vault at [v + 1]; the
    second is answered with the 409 conflict and leaves the collection
    exactly as the first one produced it. *)
Theorem replay_is_rejected now1 now2 uid body db vault :
  db !! uid = Some vault →
  baseVersion body = vaultVersion vault →
  - 2 ^ 53 ≤ vaultVersion vault < 2 ^ 53 →
  let first := sync now1 uid body db in
  let second := sync now2 uid body first.1 in
  ∃ entries,
    first.2 = Ok200 (vaultVersion vault + 1) entries now1
    ∧ first.1 !! uid =
        Some (mkVault (userId vault) (vaultVersion vault + 1) entries now1)
    ∧ second.1 = first.1
    ∧ second.2 =
        Conflict409 (vaultVersion vault + 1) (vaultVersion vault + 1) entries.
Proof.
  intros Hdb Heq Hrange first second. subst first second.
  rewrite (sync_accepted _ _ _ _ _ Hdb Heq). simpl.
  rewrite (DoubleFacts.increment_exact _ Hrange).
  eexists. split; [reflexivity|].
  split; [apply lookup_insert_eq|].
  erewrite sync_rejected; [| apply lookup_insert_eq | simpl; lia]. simpl. done.
Qed.

(** C3 as stated fails: on a vault stored at version [2^53] the first
    submission is accepted and leaves the version at [2^53], so the
    second submission of the same change-set is accepted too, and both
    write. *)
Lemma replay_at_2_53_is_accepted :
  Samples.bigDb !! "user-1" = Some Samples.bigVault
  ∧ baseVersion Samples.bigBody = vaultVersion Samples.bigVault
  ∧ (sync 7 "user-1" Samples.bigBody Samples.bigDb).2 =
      Ok200 (2 ^ 53) [Samples.dead] 7
  ∧ (sync 8 "user-1" Samples.bigBody
       (sync 7 "user-1" Samples.bigBody Samples.bigDb).1).2 =
      Ok200 (2 ^ 53) [Samples.dead] 8
  ∧ (sync 8 "user-1" Samples.bigBody
       (sync 7 "user-1" Samples.bigBody Samples.bigDb).1).1 ≠
      (sync 7 "user-1" Samples.bigBody Samples.bigDb).1.
Proof.
  split; [reflexivity|]. split; [reflexivity|].
  split; [reflexivity|]. split; [reflexivity|].
  intros Heq.
  apply (f_equal (λ m, lastSyncedAt <$> m !! "user-1")) in Heq.
  vm_compute in Heq. discriminate Heq.
Qed.


(** C10. Physical deletions run before additions and updates.  For an
    accepted change-set that names an id both in [deleted] and in
    [updated], no entry with that id is left once the deletions are done,
    and the update step puts the id back: it is present in the stored
    entries after the sync. *)
Theorem deleted_does_not_override_updated now uid body db vault ds us i :
  db !! uid = Some vault →
  baseVersion body = vaultVersion vault →
  deleted body = Some ds →
  updated body = Some us →
  i ∈ ds →
  i ∈ ids us →
  let afterDeletions := applyDeletions (deleted body) (encryptedEntries vault) in
  (i ∉ ids afterDeletions)
  ∧ ∃ vault',
      (sync now uid body db).1 !! uid = Some vault'
      ∧ encryptedEntries vault' =
          applyUpdates (updated body)
            (applyAdditions (added body) afterDeletions)
      ∧ i ∈ ids (encryptedEntries vault').
Proof.
  intros Hdb Heq Hdel Hupd Hds Hus afterDeletions. split.
  - subst afterDeletions. rewrite Hdel, applyDeletions_Some.
    + rewrite ids_removeDeleted. tauto.
    + destruct ds; [by apply elem_of_nil in Hds | simpl; lia].
  - rewrite (sync_accepted _ _ _ _ _ Hdb Heq). simpl.
    eexists. rewrite lookup_insert_eq. split; [reflexivity|]. simpl.
    split; [reflexivity|].
    unfold reconcile. rewrite Hupd, applyUpdates_Some.
    by apply ids_fold_applyUpdate.
Qed.


(** *** Instances on the sample data *)

Lemma stale_base_is_pure_rejection_witness :
  Samples.db !! "user-1" = Some Samples.vault1
  ∧ baseVersion Samples.staleBody ≠ vaultVersion Samples.vault1
  ∧ (sync 7 "user-1" Samples.staleBody Samples.db).1 = Samples.db
  ∧ (sync 7 "user-1" Samples.staleBody Samples.db).1 !! "user-1" =
      Some Samples.vault1
  ∧ (sync 7 "user-1" Samples.staleBody Samples.db).2 =
      Conflict409 1 1 [Samples.alive].
Proof.
  assert (Samples.db !! "user-1" = Some Samples.vault1) as H1 by reflexivity.
  assert (baseVersion Samples.staleBody ≠ vaultVersion Samples.vault1) as H2
    by by_decide.
  exact (conj H1 (conj H2
    (stale_base_is_pure_rejection 7 "user-1" Samples.staleBody Samples.db
       Samples.vault1 H1 H2))).
Defined.

Lemma accepted_sync_increments_by_one_witness :
  Samples.db !! "user-1" = Some Samples.vault1
  ∧ baseVersion Samples.tombstoneBody = vaultVersion Samples.vault1
  ∧ - 2 ^ 53 ≤ vaultVersion Samples.vault1 < 2 ^ 53
  ∧ ∃ vault' entries,
      (sync 7 "user-1" Samples.tombstoneBody Samples.db).1 !! "user-1" =
        Some vault'
      ∧ vaultVersion vault' = 2
      ∧ (sync 7 "user-1" Samples.tombstoneBody Samples.db).2 =
          Ok200 2 entries 7.
Proof.
  assert (Samples.db !! "user-1" = Some Samples.vault1) as H1 by reflexivity.
  assert (baseVersion Samples.tombstoneBody = vaultVersion Samples.vault1)
    as H2 by reflexivity.
  assert (- 2 ^ 53 ≤ vaultVersion Samples.vault1 < 2 ^ 53) as H3
    by by_decide.
  exact (conj H1 (conj H2 (conj H3
    (accepted_sync_increments_by_one 7 "user-1" Samples.tombstoneBody
       Samples.db Samples.vault1 H1 H2 H3)))).
Defined.

Lemma replay_is_rejected_witness :
  Samples.db !! "user-1" = Some Samples.vault1
  ∧ baseVersion Samples.tombstoneBody = vaultVersion Samples.vault1
  ∧ - 2 ^ 53 ≤ vaultVersion Samples.vault1 < 2 ^ 53
  ∧ ∃ entries,
      (sync 7 "user-1" Samples.tombstoneBody Samples.db).2 =
        Ok200 2 entries 7
      ∧ (sync 7 "user-1" Samples.tombstoneBody Samples.db).1 !! "user-1" =
          Some (mkVault "user-1" 2 entries 7)
      ∧ (sync 8 "user-1" Samples.tombstoneBody
           (sync 7 "user-1" Samples.tombstoneBody Samples.db).1).1 =
          (sync 7 "user-1" Samples.tombstoneBody Samples.db).1
      ∧ (sync 8 "user-1" Samples.tombstoneBody
           (sync 7 "user-1" Samples.tombstoneBody Samples.db).1).2 =
          Conflict409 2 2 entries.
Proof.
  assert (Samples.db !! "user-1" = Some Samples.vault1) as H1 by reflexivity.
  assert (baseVersion Samples.tombstoneBody = vaultVersion Samples.vault1)
    as H2 by reflexivity.
  assert (- 2 ^ 53 ≤ vaultVersion Samples.vault1 < 2 ^ 53) as H3
    by by_decide.
  exact (conj H1 (conj H2 (conj H3
    (replay_is_rejected 7 8 "user-1" Samples.tombstoneBody Samples.db
       Samples.vault1 H1 H2 H3)))).
Defined.


Lemma deleted_does_not_override_updated_witness :
  Samples.db !! "user-1" = Some Samples.vault1
  ∧ baseVersion Samples.deleteAndUpdateBody = vaultVersion Samples.vault1
  ∧ 123 ∈ [123]
  ∧ 123 ∈ ids [Samples.dead]
  ∧ (123 ∉ ids (applyDeletions (Some [123]) [Samples.alive]))
  ∧ ∃ vault',
      (sync 7 "user-1" Samples.deleteAndUpdateBody Samples.db).1 !! "user-1" =
        Some vault'
      ∧ encryptedEntries vault' =
          applyUpdates (Some [Samples.dead])
            (applyAdditions (Some [])
               (applyDeletions (Some [123]) [Samples.alive]))
      ∧ 123 ∈ ids (encryptedEntries vault').
Proof.
  assert (Samples.db !! "user-1" = Some Samples.vault1) as H1 by reflexivity.
  assert (baseVersion Samples.deleteAndUpdateBody =
          vaultVersion Samples.vault1) as H2 by reflexivity.
  assert (123 ∈ [123]) as H3 by by_decide.
  assert (123 ∈ ids [Samples.dead]) as H4 by by_decide.
  exact (conj H1 (conj H2 (conj H3 (conj H4
    (deleted_does_not_override_updated 7 "user-1"
       Samples.deleteAndUpdateBody Samples.db Samples.vault1 [123]
       [Samples.dead] 123 H1 H2 eq_refl eq_refl H3 H4))))).
Defined.

(** The scenarios of [vault.test.ts] and of the specification, evaluated. *)

Example tombstone_update_is_stored :
  (sync 7 "user-1" Samples.tombstoneBody Samples.db).2 =
    Ok200 2 [Samples.dead] 7.
Proof. reflexivity. Qed.

Example delete_then_update_leaves_the_update :
  (sync 7 "user-1" Samples.deleteAndUpdateBody Samples.db).2 =
    Ok200 2 [Samples.dead] 7.
Proof. reflexivity. Qed.

Example update_for_unknown_id_is_added :
  (sync 7 "user-2" Samples.unknownIdBody {[ "user-2" := Samples.emptyVault ]}).2 =
    Ok200 2 [Samples.serverNew] 7.
Proof. reflexivity. Qed.

Example vault_missing_is_404 :
  sync 7 "nobody" Samples.tombstoneBody Samples.db = (Samples.db, NotFound404).
Proof. reflexivity. Qed.

End ServerFacts.

(** ** The client merge *)

Module SyncFacts.
Import SyncService MergeSpec.

(** *** Running effectful code *)

Lemma run_bind {A B} (m : Eff A) (k : A → Eff B) (w : World) :
  bind m k w = k (m w).1 (m w).2.
Proof. unfold bind. by destruct (m w). Qed.

Lemma forEachM_cons {A St} (f : St → A → Eff St) x t (s : St) w :
  forEachM f (x :: t) s w = forEachM f t (f s x w).1 (f s x w).2.
Proof. simpl. apply run_bind. Qed.

Lemma forEachM_app {A St} (f : St → A → Eff St) (xs ys : list A) (s : St) w :
  forEachM f (xs ++ ys) s w =
    forEachM f ys (forEachM f xs s w).1 (forEachM f xs s w).2.
Proof.
  revert s w. induction xs as [|x xs IH]; intros s w; [done|].
  rewrite <- app_comm_cons, !forEachM_cons. apply IH.
Qed.

(** An invariant of the loop body is an invariant of the loop. *)
Lemma forEachM_invariant {A St} (f : St → A → Eff St) (I : St → Prop)
    (xs : list A) :
  (∀ s x w, x ∈ xs → I s → I (f s x w).1) →
  ∀ s w, I s → I (forEachM f xs s w).1.
Proof.
  induction xs as [|x xs IH]; intros Hstep s w Hs; [done|].
  rewrite forEachM_cons. apply IH.
  - intros s' y w' Hy. apply Hstep. by right.
  - apply Hstep; [by left | done].
Qed.

Lemma fold_left_invariant {A St} (f : St → A → St) (I : St → Prop)
    (xs : list A) :
  (∀ s x, x ∈ xs → I s → I (f s x)) →
  ∀ s, I s → I (fold_left f xs s).
Proof.
  induction xs as [|x xs IH]; intros Hstep s Hs; [done|].
  simpl. apply IH.
  - intros s' y Hy. apply Hstep. by right.
  - apply Hstep; [by left | done].
Qed.

Implicit Types (l merged : list VaultEntry) (e s a : VaultEntry) (i : Z)
  (w : World).

Section Merge.
Variable parseDate : string → option Z.

Local Abbreviation laterThan := (laterThan parseDate).
Local Abbreviation mergeUpdated := (mergeUpdated parseDate).
Local Abbreviation resolveConflicts := (resolveConflicts parseDate).
Local Abbreviation beforeDeletion := (beforeDeletion parseDate).
Local Abbreviation settled := (settled parseDate).

(** *** The date comparison *)

Lemma laterThan_irrefl x : laterThan x x = false.
Proof.
  unfold SyncService.laterThan. destruct (parseDate x); [|done].
  apply bool_decide_eq_false_2. lia.
Qed.

(** Whoever is not later than [y] is not later than something later
    than [y]. *)
Lemma laterThan_blocked x y z :
  laterThan x y = false → laterThan z y = true → laterThan x z = false.
Proof.
  unfold SyncService.laterThan.
  destruct (parseDate x), (parseDate y), (parseDate z); try done.
  rewrite !bool_decide_eq_false, !bool_decide_eq_true. lia.
Qed.

(** *** The three cases of the update step *)

Lemma mergeUpdated_absent merged s w :
  id s ∉ ids merged → mergeUpdated merged s w = (merged ++ [s], w).
Proof.
  intros Hnew. apply findById_None in Hnew.
  unfold SyncService.mergeUpdated. by rewrite Hnew.
Qed.

Lemma mergeUpdated_retained merged s w n localEntry :
  findById (id s) merged = Some (n, localEntry) →
  laterThan (updatedAt s) (updatedAt localEntry) = false →
  mergeUpdated merged s w = (merged, w).
Proof.
  intros Hf Hlate. unfold SyncService.mergeUpdated. by rewrite Hf, Hlate.
Qed.

Lemma mergeUpdated_replaced merged s w n localEntry :
  findById (id s) merged = Some (n, localEntry) →
  laterThan (updatedAt s) (updatedAt localEntry) = true →
  mergeUpdated merged s w =
    (<[n := serverWins s localEntry (clock w (clockReads w))]> merged,
     mkWorld (clock w) (S (clockReads w)) (uuids w) (uuidDraws w)).
Proof.
  intros Hf Hlate. unfold SyncService.mergeUpdated. by rewrite Hf, Hlate.
Qed.

(** Case analysis on one update step, for use in proofs. *)
Lemma mergeUpdated_cases merged s w :
  ((id s ∉ ids merged) ∧ mergeUpdated merged s w = (merged ++ [s], w))
  ∨ (∃ n localEntry,
       findById (id s) merged = Some (n, localEntry)
       ∧ laterThan (updatedAt s) (updatedAt localEntry) = false
       ∧ mergeUpdated merged s w = (merged, w))
  ∨ (∃ n localEntry,
       findById (id s) merged = Some (n, localEntry)
       ∧ laterThan (updatedAt s) (updatedAt localEntry) = true
       ∧ mergeUpdated merged s w =
           (<[n := serverWins s localEntry (clock w (clockReads w))]> merged,
            mkWorld (clock w) (S (clockReads w)) (uuids w) (uuidDraws w))).
Proof.
  destruct (findById (id s) merged) as [[n localEntry]|] eqn:Hf.
  - destruct (laterThan (updatedAt s) (updatedAt localEntry)) eqn:Hlate.
    + right; right. exists n, localEntry. eauto using mergeUpdated_replaced.
    + right; left. exists n, localEntry. eauto using mergeUpdated_retained.
  - left. apply findById_None in Hf. eauto using mergeUpdated_absent.
Qed.

(** *** The deletion loop is one filter *)

Lemma fold_dropId ds merged :
  fold_left dropId ds merged = filter (λ e, id e ∉ ds) merged.
Proof.
  revert merged. induction ds as [|d ds IH]; intros merged; simpl.
  - symmetry. apply filter_keeps_all. intros e _. apply not_elem_of_nil.
  - rewrite IH. unfold dropId. rewrite list_filter_filter.
    apply list_filter_iff. intros e. rewrite not_elem_of_cons. tauto.
Qed.

Lemma resolveConflicts_unfold localEntries d w :
  resolveConflicts localEntries d w =
    (filter (λ e, id e ∉ deleted d) (beforeDeletion localEntries d w).1,
     (beforeDeletion localEntries d w).2).
Proof.
  unfold SyncService.resolveConflicts. rewrite run_bind.
  unfold ret. by rewrite fold_dropId.
Qed.

(** *** Steps for one id leave the entries of every other id alone *)

Lemma mergeAdded_cases merged a :
  ((id a ∉ ids merged) ∧ mergeAdded merged a = merged ++ [a])
  ∨ ((id a ∈ ids merged) ∧ mergeAdded merged a = merged).
Proof.
  unfold mergeAdded. destruct (findById (id a) merged) as [p|] eqn:Hf.
  - right. split; [|done]. apply findById_is_Some. eauto.
  - left. by apply findById_None in Hf.
Qed.

Lemma mergeAdded_entries i merged a :
  i ∈ ids merged →
  filter (λ e, id e = i) (mergeAdded merged a) = filter (λ e, id e = i) merged.
Proof.
  intros Hi. destruct (mergeAdded_cases merged a) as [[Hnew ->]|[_ ->]]; [|done].
  rewrite filter_app, filter_cons_False, filter_nil, app_nil_r; [done|].
  intros <-. contradiction.
Qed.

Lemma mergeUpdated_entries_other i merged s w :
  id s ≠ i →
  filter (λ e, id e = i) (mergeUpdated merged s w).1 =
    filter (λ e, id e = i) merged.
Proof.
  intros Hne.
  destruct (mergeUpdated_cases merged s w)
    as [[_ ->]|[(n & x & _ & _ & ->)|(n & x & Hf & _ & ->)]]; simpl.
  - by rewrite filter_app, filter_cons_False, filter_nil, app_nil_r.
  - done.
  - apply findById_Some in Hf as (Hn & Hx & _).
    apply filter_insert_rejected with x; [done| |done]. by rewrite Hx.
Qed.

Lemma ids_mergeAdded merged a i :
  i ∈ ids merged → i ∈ ids (mergeAdded merged a).
Proof.
  intros Hi. destruct (mergeAdded_cases merged a) as [[_ ->]|[_ ->]]; [|done].
  rewrite ids_app. apply elem_of_app. by left.
Qed.

Lemma ids_mergeAdded_self merged a : id a ∈ ids (mergeAdded merged a).
Proof.
  destruct (mergeAdded_cases merged a) as [[_ ->]|[? ->]]; [|done].
  rewrite ids_app. apply elem_of_app. right. by apply list_elem_of_singleton.
Qed.

Lemma ids_mergeUpdated merged s w :
  ids (mergeUpdated merged s w).1 =
    if decide (id s ∈ ids merged) then ids merged else ids merged ++ [id s].
Proof.
  destruct (mergeUpdated_cases merged s w)
    as [[Hnew ->]|[(n & x & Hf & _ & ->)|(n & x & Hf & _ & ->)]]; simpl.
  - rewrite decide_False by done. apply ids_app.
  - rewrite decide_True; [done|]. apply findById_is_Some. eauto.
  - rewrite decide_True by (apply findById_is_Some; eauto).
    apply findById_Some in Hf as (Hn & Hx & _).
    by apply ids_insert_same with x.
Qed.

Lemma ids_mergeUpdated_mono merged s w i :
  i ∈ ids merged → i ∈ ids (mergeUpdated merged s w).1.
Proof.
  intros Hi. rewrite ids_mergeUpdated. case_decide; [done|].
  apply elem_of_app. by left.
Qed.

Lemma ids_mergeUpdated_self merged s w : id s ∈ ids (mergeUpdated merged s w).1.
Proof.
  rewrite ids_mergeUpdated. case_decide; [done|].
  apply elem_of_app. right. by apply list_elem_of_singleton.
Qed.

(** Every id of the local list is still there before the deletions. *)
Lemma ids_beforeDeletion_local localEntries d w i :
  i ∈ ids localEntries → i ∈ ids (beforeDeletion localEntries d w).1.
Proof.
  intros Hi. unfold MergeSpec.beforeDeletion.
  apply (forEachM_invariant _ (λ l, i ∈ ids l)).
  - intros l s w' _. apply ids_mergeUpdated_mono.
  - apply (fold_left_invariant _ (λ l, i ∈ ids l)); [|done].
    intros l a _. apply ids_mergeAdded.
Qed.

(** The entries of an id that no server update names are, before the
    deletions, the local ones. *)
Lemma beforeDeletion_untouched localEntries d w i :
  i ∈ ids localEntries →
  i ∉ ids (updated d) →
  filter (λ e, id e = i) (beforeDeletion localEntries d w).1 =
    filter (λ e, id e = i) localEntries.
Proof.
  intros Hi Hupd. unfold MergeSpec.beforeDeletion.
  apply (forEachM_invariant _
    (λ l, filter (λ e, id e = i) l = filter (λ e, id e = i) localEntries)).
  - intros l s w' Hs <-. apply mergeUpdated_entries_other.
    intros Hid. apply Hupd, elem_of_ids. eauto.
  - apply (fold_left_invariant _
      (λ l, i ∈ ids l ∧
            filter (λ e, id e = i) l = filter (λ e, id e = i) localEntries));
      [|done].
    intros l a _ [Hl <-]. split; [by apply ids_mergeAdded|].
    by apply mergeAdded_entries.
Qed.

(** *** The first entry of an id along the loops *)

Lemma mergeAdded_findById i merged a n e :
  findById i merged = Some (n, e) →
  findById i (mergeAdded merged a) = Some (n, e).
Proof.
  intros Hf. destruct (mergeAdded_cases merged a) as [[_ ->]|[_ ->]]; [|done].
  by apply findById_app_l.
Qed.

Lemma mergeUpdated_findById_other i merged s w :
  id s ≠ i → findById i (mergeUpdated merged s w).1 = findById i merged.
Proof.
  intros Hne.
  destruct (mergeUpdated_cases merged s w)
    as [[_ ->]|[(n & x & _ & _ & ->)|(n & x & Hf & _ & ->)]]; simpl.
  - by apply findById_snoc_other.
  - done.
  - apply findById_Some in Hf as (Hn & Hx & _).
    apply findById_insert_other with x; [done| |done]. by rewrite Hx.
Qed.

Lemma fold_mergeAdded_findById i added merged n e :
  findById i merged = Some (n, e) →
  findById i (fold_left mergeAdded added merged) = Some (n, e).
Proof.
  apply (fold_left_invariant _ (λ l, findById i l = Some (n, e))).
  intros l a _. apply mergeAdded_findById.
Qed.

Lemma forEachM_mergeUpdated_findById_other i us merged w :
  i ∉ ids us →
  findById i (forEachM mergeUpdated us merged w).1 = findById i merged.
Proof.
  intros Hi.
  apply (forEachM_invariant _ (λ l, findById i l = findById i merged)); [|done].
  intros l s w' Hs <-. apply mergeUpdated_findById_other.
  intros Hid. apply Hi, elem_of_ids. eauto.
Qed.

(** *** The clock along the loops *)

Lemma clockAdvanced_refl w : clockAdvanced w w.
Proof. by repeat split. Qed.

Lemma clockAdvanced_trans w1 w2 w3 :
  clockAdvanced w1 w2 → clockAdvanced w2 w3 → clockAdvanced w1 w3.
Proof.
  intros (Hc & Hu & Hd & Hr) (Hc' & Hu' & Hd' & Hr').
  repeat split; try congruence. lia.
Qed.

Lemma mergeUpdated_clock merged s w : clockAdvanced w (mergeUpdated merged s w).2.
Proof.
  destruct (mergeUpdated_cases merged s w)
    as [[_ ->]|[(n & x & _ & _ & ->)|(n & x & _ & _ & ->)]]; simpl;
    try apply clockAdvanced_refl.
  repeat split; simpl. lia.
Qed.

Lemma forEachM_mergeUpdated_clock us merged w :
  clockAdvanced w (forEachM mergeUpdated us merged w).2.
Proof.
  revert merged w. induction us as [|s us IH]; intros merged w.
  - apply clockAdvanced_refl.
  - rewrite forEachM_cons.
    eapply clockAdvanced_trans; [apply mergeUpdated_clock | apply IH].
Qed.

(** *** Settled updates *)

Lemma mergeUpdated_settled merged s w :
  settled s merged → mergeUpdated merged s w = (merged, w).
Proof. intros (n & e & Hf & Hlate). by eapply mergeUpdated_retained. Qed.

Lemma mergeUpdated_settles merged s w : settled s (mergeUpdated merged s w).1.
Proof.
  destruct (mergeUpdated_cases merged s w)
    as [[Hnew ->]|[(n & x & Hf & Hlate & ->)|(n & x & Hf & Hlate & ->)]]; simpl.
  - exists (length merged), s. split; [by apply findById_snoc_new|].
    apply laterThan_irrefl.
  - by exists n, x.
  - eexists n, _. split; [by apply findById_insert_same with x|].
    simpl. apply laterThan_irrefl.
Qed.

Lemma mergeUpdated_keeps_settled merged s s' w :
  settled s merged → settled s (mergeUpdated merged s' w).1.
Proof.
  intros (n & e & Hf & Hlate).
  destruct (decide (id s' = id s)) as [Heq|Hne].
  - destruct (mergeUpdated_cases merged s' w)
      as [[Hnew ->]|[(m & x & Hf' & Hl' & ->)|(m & x & Hf' & Hl' & ->)]]; simpl.
    + exists n, e. split; [by apply findById_app_l | done].
    + by exists n, e.
    + rewrite Heq in Hf'. rewrite Hf in Hf'. injection Hf' as <- <-.
      eexists n, _. split; [by apply findById_insert_same with e|].
      simpl. by apply laterThan_blocked with (updatedAt e).
  - exists n, e. split; [|done].
    by rewrite mergeUpdated_findById_other.
Qed.

Lemma forEachM_mergeUpdated_settles us merged w s :
  s ∈ us → settled s (forEachM mergeUpdated us merged w).1.
Proof.
  revert merged w. induction us as [|s' us IH]; intros merged w Hs.
  - by apply elem_of_nil in Hs.
  - rewrite forEachM_cons. apply elem_of_cons in Hs as [->|Hs]; [|by apply IH].
    apply (forEachM_invariant _ (settled s')).
    + intros l x w' _. apply mergeUpdated_keeps_settled.
    + apply mergeUpdated_settles.
Qed.

Lemma forEachM_mergeUpdated_settled us merged w :
  (∀ s, s ∈ us → settled s merged) →
  forEachM mergeUpdated us merged w = (merged, w).
Proof.
  induction us as [|s us IH]; intros Hall; [done|].
  rewrite forEachM_cons, mergeUpdated_settled by (apply Hall; by left).
  simpl. apply IH. intros s' Hs'. apply Hall. by right.
Qed.

(** *** Re-running the merge on its own output *)

Section Rerun.

(** [kept] is a list free of the deleted ids; a second run only ever
    works behind it, on entries that the final filter removes again. *)
Variables (ds : list Z) (kept : list VaultEntry).
Hypothesis kept_clean : ∀ e, e ∈ kept → id e ∉ ds.

Local Abbreviation behind := (behind ds kept).

Lemma behind_start : behind kept.
Proof. exists []. by rewrite app_nil_r. Qed.

Lemma behind_filter l : behind l → filter (λ e, id e ∉ ds) l = kept.
Proof.
  intros (extra & -> & Hextra). rewrite filter_app.
  rewrite filter_keeps_all by done.
  rewrite filter_drops_all; [apply app_nil_r|].
  intros e He Hnot. rewrite Forall_forall in Hextra. by apply Hnot, Hextra.
Qed.

Lemma behind_ids l i : behind l → i ∈ ids kept → i ∈ ids l.
Proof.
  intros (extra & -> & _) Hi. rewrite ids_app. apply elem_of_app. by left.
Qed.

Lemma mergeAdded_behind l a :
  (id a ∉ ds → id a ∈ ids kept) → behind l → behind (mergeAdded l a).
Proof.
  intros Ha Hl. destruct (mergeAdded_cases l a) as [[Hnew ->]|[_ ->]]; [|done].
  destruct (decide (id a ∈ ds)) as [Hin|Hout].
  - destruct Hl as (extra & -> & Hextra). exists (extra ++ [a]).
    split; [by rewrite app_assoc|].
    apply Forall_app. split; [done|]. by apply Forall_singleton.
  - exfalso. apply Hnew. apply behind_ids; auto.
Qed.

Lemma mergeUpdated_behind l s w :
  (id s ∉ ds → settled s kept) → behind l → behind (mergeUpdated l s w).1.
Proof.
  intros Hs Hl. destruct (decide (id s ∈ ds)) as [Hin|Hout].
  - destruct (mergeUpdated_cases l s w)
      as [[Hnew ->]|[(n & x & Hf & _ & ->)|(n & x & Hf & _ & ->)]]; simpl;
      [|done|].
    + destruct Hl as (extra & -> & Hextra). exists (extra ++ [s]).
      split; [by rewrite app_assoc|].
      apply Forall_app. split; [done|]. by apply Forall_singleton.
    + destruct Hl as (extra & -> & Hextra).
      apply findById_Some in Hf as (Hn & Hx & _).
      assert (length kept ≤ n)%nat as Hlen.
      { destruct (decide (length kept ≤ n)%nat) as [|Hlt]; [done|].
        exfalso. rewrite lookup_app_l in Hn by lia.
        apply (kept_clean x); [by eapply list_elem_of_lookup_2|].
        by rewrite Hx. }
      rewrite insert_app_r_alt by done.
      eexists. split; [reflexivity|]. by apply Forall_insert.
  - destruct (Hs Hout) as (n & e & Hf & Hlate).
    destruct Hl as (extra & -> & Hextra).
    erewrite mergeUpdated_retained; [| by apply findById_app_l | done].
    by exists extra.
Qed.

Lemma rerun_behind d w :
  deleted d = ds →
  (∀ a, a ∈ added d → id a ∉ ds → id a ∈ ids kept) →
  (∀ s, s ∈ updated d → id s ∉ ds → settled s kept) →
  (resolveConflicts kept d w).1 = kept.
Proof.
  intros Hds Hadd Hupd. rewrite resolveConflicts_unfold. simpl. rewrite Hds.
  apply behind_filter. unfold MergeSpec.beforeDeletion.
  apply (forEachM_invariant _ behind).
  - intros l s w' Hs. apply mergeUpdated_behind. by apply Hupd.
  - apply (fold_left_invariant _ behind); [|apply behind_start].
    intros l a Ha. apply mergeAdded_behind. by apply Hadd.
Qed.

End Rerun.

(** Filtering other ids away keeps an update settled. *)
Lemma settled_filter (Q : VaultEntry → Prop) `{∀ x, Decision (Q x)} s l :
  (∀ x, id x = id s → Q x) → settled s l → settled s (filter Q l).
Proof.
  intros HQ (n & e & Hf & Hlate).
  pose proof (findById_filter Q (id s) l HQ) as Hfilter.
  rewrite Hf in Hfilter. simpl in Hfilter.
  destruct (findById (id s) (filter Q l)) as [[n' e']|] eqn:Hf';
    simpl in Hfilter; [|done].
  exists n', e. split; [congruence | done].
Qed.

Lemma resolveConflicts_idempotent localEntries d w1 w2 :
  (resolveConflicts (resolveConflicts localEntries d w1).1 d w2).1 =
    (resolveConflicts localEntries d w1).1.
Proof.
  rewrite (resolveConflicts_unfold localEntries d w1). simpl.
  apply (rerun_behind (deleted d)); [|done| |].
  - intros e He. by apply list_elem_of_filter in He as [? _].
  - intros a Ha Hout. apply elem_of_ids.
    assert (id a ∈ ids (beforeDeletion localEntries d w1).1) as Hin.
    { unfold MergeSpec.beforeDeletion.
      apply (forEachM_invariant _ (λ l, id a ∈ ids l)).
      - intros l s w' _. apply ids_mergeUpdated_mono.
      - apply list_elem_of_split in Ha as (a1 & a2 & ->).
        rewrite fold_left_app. simpl.
        apply (fold_left_invariant _ (λ l, id a ∈ ids l)).
        + intros l a' _. apply ids_mergeAdded.
        + apply ids_mergeAdded_self. }
    apply elem_of_ids in Hin as (e & He & Hid).
    exists e. split; [|done]. apply list_elem_of_filter. by rewrite Hid.
  - intros s Hs Hout. apply settled_filter.
    + intros x Hx. by rewrite Hx.
    + unfold MergeSpec.beforeDeletion. by apply forEachM_mergeUpdated_settles.
Qed.

(** *** The bound on the conflict history *)

Lemma histLen_serverWins s localEntry now :
  (histLen (serverWins s localEntry now) ≤ 5)%nat.
Proof. unfold histLen, serverWins. simpl. rewrite length_take. lia. Qed.

Lemma elem_of_insert_inv (l : list VaultEntry) n x e :
  e ∈ <[n := x]> l → e = x ∨ e ∈ l.
Proof.
  intros He. apply list_elem_of_lookup in He as [m Hm].
  apply list_lookup_insert_Some in Hm as [(_ & -> & _)|[_ Hm]]; [by left|].
  right. by eapply list_elem_of_lookup_2.
Qed.

(** Every entry of the result is an input entry as it was given, or
    carries at most five history records. *)
Lemma resolveConflicts_history localEntries d w e :
  e ∈ (resolveConflicts localEntries d w).1 →
  (histLen e ≤ 5)%nat
  ∨ e ∈ localEntries ∨ e ∈ added d ∨ e ∈ updated d.
Proof.
  rewrite resolveConflicts_unfold. simpl.
  intros He. apply list_elem_of_filter in He as [_ He]. revert e He.
  unfold MergeSpec.beforeDeletion.
  apply (forEachM_invariant _
    (λ l, ∀ e, e ∈ l →
       (histLen e ≤ 5)%nat ∨ e ∈ localEntries ∨ e ∈ added d ∨ e ∈ updated d)).
  - intros l s w' Hs Hl e.
    destruct (mergeUpdated_cases l s w')
      as [[_ ->]|[(n & x & _ & _ & ->)|(n & x & _ & _ & ->)]]; simpl.
    + intros [He|He]%elem_of_app; [by apply Hl|].
      apply list_elem_of_singleton in He as ->. auto.
    + apply Hl.
    + intros [->|He]%elem_of_insert_inv; [|by apply Hl].
      left. apply histLen_serverWins.
  - apply (fold_left_invariant _
      (λ l, ∀ e, e ∈ l →
         (histLen e ≤ 5)%nat ∨ e ∈ localEntries ∨ e ∈ added d ∨ e ∈ updated d));
      [|auto].
    intros l a Ha Hl e.
    destruct (mergeAdded_cases l a) as [[_ ->]|[_ ->]]; [|apply Hl].
    intros [He|He]%elem_of_app; [by apply Hl|].
    apply list_elem_of_singleton in He as ->. auto.
Qed.

(** *** Two runs differ in the time stamps only *)

Lemma findById_eraseStamps i l :
  findById i (eraseStamps <$> l) =
    prod_map Datatypes.id eraseStamps <$> findById i l.
Proof. unfold findById. by rewrite list_find_fmap. Qed.

Lemma filter_eraseStamps (ds : list Z) l :
  eraseStamps <$> filter (λ e, id e ∉ ds) l =
    filter (λ e, id e ∉ ds) (eraseStamps <$> l).
Proof.
  induction l as [|y l IH]; [done|].
  rewrite fmap_cons, !filter_cons. simpl.
  case_decide; [rewrite fmap_cons|]; by rewrite IH.
Qed.

Lemma eraseStamps_serverWins s e1 e2 t1 t2 :
  eraseStamps e1 = eraseStamps e2 →
  eraseStamps (serverWins s e1 t1) = eraseStamps (serverWins s e2 t2).
Proof.
  intros Heq.
  assert (password e1 = password e2) as Hpw by apply (f_equal password Heq).
  assert (fmap (M:=list) eraseStamp <$> conflictHistory e1 =
          fmap (M:=list) eraseStamp <$> conflictHistory e2) as Hch
    by apply (f_equal conflictHistory Heq).
  unfold eraseStamps, serverWins. simpl. rewrite !fmap_take, Hpw.
  do 4 f_equal.
  destruct (conflictHistory e1), (conflictHistory e2); simpl in *; congruence.
Qed.

Lemma mergeUpdated_stamps l1 l2 s w1 w2 :
  eraseStamps <$> l1 = eraseStamps <$> l2 →
  eraseStamps <$> (mergeUpdated l1 s w1).1 =
    eraseStamps <$> (mergeUpdated l2 s w2).1.
Proof.
  intros Heq.
  pose proof (findById_eraseStamps (id s) l1) as H1.
  pose proof (findById_eraseStamps (id s) l2) as H2.
  rewrite Heq, H2 in H1. clear H2.
  unfold SyncService.mergeUpdated.
  destruct (findById (id s) l1) as [[n1 e1]|], (findById (id s) l2) as [[n2 e2]|];
    simpl in H1; try done.
  - assert (n1 = n2 ∧ eraseStamps e1 = eraseStamps e2) as [-> He]
      by (split; congruence).
    assert (updatedAt e1 = updatedAt e2) as -> by apply (f_equal updatedAt He).
    destruct (laterThan _ _); simpl; [|done].
    rewrite !list_fmap_insert, Heq. f_equal.
    by apply eraseStamps_serverWins.
  - simpl. by rewrite !fmap_app, Heq.
Qed.

Lemma resolveConflicts_stamps localEntries d w1 w2 :
  eraseStamps <$> (resolveConflicts localEntries d w1).1 =
    eraseStamps <$> (resolveConflicts localEntries d w2).1.
Proof.
  rewrite !resolveConflicts_unfold. simpl.
  rewrite !filter_eraseStamps. f_equal.
  unfold MergeSpec.beforeDeletion.
  assert (∀ us l1 l2 w1 w2,
    eraseStamps <$> l1 = eraseStamps <$> l2 →
    eraseStamps <$> (forEachM mergeUpdated us l1 w1).1 =
      eraseStamps <$> (forEachM mergeUpdated us l2 w2).1) as Hloop.
  { induction us as [|s us IH]; intros l1 l2 w1' w2' Heq; [done|].
    rewrite !forEachM_cons. by apply IH, mergeUpdated_stamps. }
  by apply Hloop.
Qed.

(** *** Claims about [resolveConflicts] *)

Lemma laterThan_true x y :
  laterThan x y = true ↔
  ∃ tx ty, parseDate x = Some tx ∧ parseDate y = Some ty ∧ ty < tx.
Proof.
  unfold SyncService.laterThan. split.
  - destruct (parseDate x) as [tx|], (parseDate y) as [ty|]; try done.
    rewrite bool_decide_eq_true. eauto.
  - intros (tx & ty & -> & -> & Hlt). by apply bool_decide_eq_true.
Qed.


(** C6, as the code has it.  Two runs of [resolveConflicts] on the same
    (local entries, server delta) pair, in whatever worlds, agree on
    everything but the [resolvedAt] stamps of the conflict histories;
    running it again on its own result with the same delta returns that
    result unchanged; and every entry of the result either is an input
    entry exactly as it was given or carries at most five history
    records, so that no history is ever made longer than five. *)
Theorem merge_repeatable_up_to_stamps localEntries d w1 w2 :
  let result := (resolveConflicts localEntries d w1).1 in
  eraseStamps <$> (resolveConflicts localEntries d w2).1 = eraseStamps <$> result
  ∧ (resolveConflicts result d w2).1 = result
  ∧ (∀ e, e ∈ result →
       (histLen e ≤ 5)%nat
       ∨ e ∈ localEntries ∨ e ∈ added d ∨ e ∈ updated d)
  ∧ ((∀ e, e ∈ localEntries ∨ e ∈ added d ∨ e ∈ updated d →
           (histLen e ≤ 5)%nat) →
     ∀ e, e ∈ result → (histLen e ≤ 5)%nat).
Proof.
  intros result. subst result. split; [|split; [|split]].
  - apply resolveConflicts_stamps.
  - apply resolveConflicts_idempotent.
  - intros e. apply resolveConflicts_history.
  - intros Hin e He.
    destruct (resolveConflicts_history _ _ _ _ He) as [Hle|Horigin]; auto.
Qed.

(** C9. An id that the local list holds and that no entry of the server's
    [updated] list carries (whether or not [added] carries it): when the
    delta does not delete it, the entries of that id in the result are
    the local ones, unchanged, in the same order; and no entry of the
    result has an id that the delta deletes. *)
Theorem local_only_entries_survive localEntries d w i :
  i ∈ ids localEntries →
  i ∉ ids (updated d) →
  let result := (resolveConflicts localEntries d w).1 in
  (i ∉ deleted d →
     filter (λ e, id e = i) result = filter (λ e, id e = i) localEntries
     ∧ ∀ e, e ∈ localEntries → id e = i → e ∈ result)
  ∧ (∀ j, j ∈ deleted d → j ∉ ids result).
Proof.
  intros Hlocal Hupd result. subst result.
  rewrite resolveConflicts_unfold. simpl. split.
  - intros Hdel.
    assert (filter (λ e, id e = i)
              (filter (λ e, id e ∉ deleted d)
                 (beforeDeletion localEntries d w).1) =
            filter (λ e, id e = i) localEntries) as Heq.
    { rewrite list_filter_filter.
      rewrite <- (beforeDeletion_untouched localEntries d w i) by done.
      apply list_filter_iff. intros e. split; [tauto|].
      intros He. split; [done|]. by rewrite He. }
    split; [done|]. intros e He Hid.
    assert (e ∈ filter (λ e, id e = i) localEntries) as Hin
      by by apply list_elem_of_filter.
    rewrite <- Heq in Hin. by apply list_elem_of_filter in Hin as [_ Hin].
  - intros j Hj Hin. apply elem_of_ids in Hin as (e & He & <-).
    by apply list_elem_of_filter in He as [Hnot _].
Qed.

End Merge.

(** *** Claims about [calculateDelta] *)

(** C4. The change-set that [calculateDelta] returns has in [updated]
    exactly the local entries whose version exceeds [baseVersion], in
    their order and whatever their [isDeleted] flag, has [added] and
    [deleted] empty, and echoes [baseVersion]. *)
Theorem calculateDelta_shape (localEntries : list VaultEntry) (base : Z)
    (w : World) :
  let d := (calculateDelta localEntries base w).1 in
  updated d = filter (λ e, base < version e) localEntries
  ∧ (∀ e, e ∈ updated d ↔ e ∈ localEntries ∧ base < version e)
  ∧ (∀ e, e ∈ localEntries → isDeleted e = Some true → base < version e →
          e ∈ updated d)
  ∧ added d = []
  ∧ deleted d = []
  ∧ baseVersion d = base.
Proof.
  simpl. split; [done|]. split; [|split; [|done]].
  - intros e. rewrite list_elem_of_filter. tauto.
  - intros e He _ Hv. by apply list_elem_of_filter.
Qed.

(** C8, as the code has it.  Two calls of [calculateDelta] on the same
    (entries, baseVersion) pair return change-sets with the same [added],
    [updated], [deleted] and [baseVersion]; the [eventId] of each is the
    uuid drawn for that call, and drawing it is the only effect. *)
Theorem calculateDelta_equal_up_to_eventId
    (localEntries : list VaultEntry) (base : Z) (w w' : World) :
  let r := calculateDelta localEntries base w in
  let r' := calculateDelta localEntries base w' in
  added r.1 = added r'.1
  ∧ updated r.1 = updated r'.1
  ∧ deleted r.1 = deleted r'.1
  ∧ baseVersion r.1 = baseVersion r'.1
  ∧ eventId r.1 = uuids w (uuidDraws w)
  ∧ r.2 = mkWorld (clock w) (clockReads w) (uuids w) (S (uuidDraws w)).
Proof. simpl. repeat split. Qed.

(** C8 as stated fails: the second of two calls in a row, same entries
    and same [baseVersion], returns a change-set with another
    [eventId]. *)
Lemma calculateDelta_two_calls_differ :
  (calculateDelta Samples.localEntries 0 Samples.world).1 ≠
  (calculateDelta Samples.localEntries 0
     (calculateDelta Samples.localEntries 0 Samples.world).2).1.
Proof. intros Heq. apply (f_equal eventId) in Heq. discriminate Heq. Qed.

(** *** Instances on the sample data *)

(** C6 as stated fails: the second of two runs in a row on the same pair
    stamps the archived password with a later [resolvedAt]. *)
Lemma merge_two_runs_differ :
  (resolveConflicts Samples.parseDate Samples.localEntries Samples.serverDelta
     Samples.world).1 ≠
  (resolveConflicts Samples.parseDate Samples.localEntries Samples.serverDelta
     (resolveConflicts Samples.parseDate Samples.localEntries
        Samples.serverDelta Samples.world).2).1.
Proof.
  intros Heq. apply (f_equal (λ l, conflictHistory <$> head l)) in Heq.
  vm_compute in Heq. discriminate Heq.
Qed.


Lemma merge_repeatable_up_to_stamps_witness :
  eraseStamps <$>
    (resolveConflicts Samples.parseDate Samples.localEntries
       Samples.serverDelta
       (resolveConflicts Samples.parseDate Samples.localEntries
          Samples.serverDelta Samples.world).2).1 =
  eraseStamps <$>
    (resolveConflicts Samples.parseDate Samples.localEntries
       Samples.serverDelta Samples.world).1
  ∧ Forall (λ e, (histLen e ≤ 5)%nat)
      (resolveConflicts Samples.parseDate Samples.localEntries
         Samples.serverDelta Samples.world).1.
Proof.
  pose proof
    (merge_repeatable_up_to_stamps Samples.parseDate Samples.localEntries
       Samples.serverDelta Samples.world
       (resolveConflicts Samples.parseDate Samples.localEntries
          Samples.serverDelta Samples.world).2) as (Hsame & _ & _ & Hbound).
  split; [exact Hsame|].
  apply Forall_forall. apply Hbound.
  intros e [He|[He|He]];
    repeat (apply elem_of_cons in He as [->|He]; [vm_compute; lia|]);
    by apply elem_of_nil in He.
Defined.

Lemma calculateDelta_shape_witness :
  updated (calculateDelta Samples.localEntries 1 Samples.world).1 = []
  ∧ updated (calculateDelta [Samples.alive; Samples.dead] 1 Samples.world).1 =
      [Samples.dead].
Proof.
  split.
  - exact (proj1 (calculateDelta_shape Samples.localEntries 1 Samples.world)).
  - exact (proj1 (calculateDelta_shape [Samples.alive; Samples.dead] 1
                    Samples.world)).
Defined.

Lemma local_only_entries_survive_witness :
  2 ∈ ids Samples.localEntries
  ∧ (2 ∉ ids (updated Samples.serverDelta))
  ∧ filter (λ e, id e = 2)
      (resolveConflicts Samples.parseDate Samples.localEntries
         Samples.serverDelta Samples.world).1 = [Samples.localOnly].
Proof.
  assert (2 ∈ ids Samples.localEntries) as H1 by by_decide.
  assert (2 ∉ ids (updated Samples.serverDelta)) as H2 by by_decide.
  split; [exact H1|]. split; [exact H2|].
  refine (proj1 (proj1
    (local_only_entries_survive Samples.parseDate Samples.localEntries
       Samples.serverDelta Samples.world 2 H1 H2) _)).
  by_decide.
Defined.

End SyncFacts.

(** * Further properties *)

(** ** Id columns *)

Section IdColumns.

Implicit Types (l cur : list VaultEntry) (js ks : list Z) (i j : Z).

Lemma elem_of_addId ks j i : i ∈ addId ks j ↔ i ∈ ks ∨ i = j.
Proof.
  unfold addId. case_decide as Hj.
  - split; [by left|]. intros [?| ->]; done.
  - rewrite elem_of_app, list_elem_of_singleton. done.
Qed.

Lemma NoDup_addId ks j : NoDup ks → NoDup (addId ks j).
Proof.
  intros Hks. unfold addId. case_decide as Hj; [done|].
  apply NoDup_app. split; [done|]. split; [|apply NoDup_singleton].
  intros x Hx ->%list_elem_of_singleton. contradiction.
Qed.

Lemma elem_of_fold_addId js ks i :
  i ∈ fold_left addId js ks ↔ i ∈ ks ∨ i ∈ js.
Proof.
  revert ks. induction js as [|j js IH]; intros ks; simpl.
  - rewrite elem_of_nil. tauto.
  - rewrite IH, elem_of_addId, elem_of_cons. tauto.
Qed.

Lemma NoDup_fold_addId js ks : NoDup ks → NoDup (fold_left addId js ks).
Proof.
  revert ks. induction js as [|j js IH]; intros ks Hks; simpl; [done|].
  by apply IH, NoDup_addId.
Qed.

Lemma length_addId ks j : (length ks ≤ length (addId ks j))%nat.
Proof. unfold addId. case_decide; [done|]. rewrite length_app. lia. Qed.

(** Filtering keeps the id column duplicate-free. *)
Lemma NoDup_ids_filter (Q : VaultEntry → Prop) `{∀ x, Decision (Q x)} l :
  NoDup (ids l) → NoDup (ids (filter Q l)).
Proof.
  intros Hl. apply (sublist_NoDup _ (ids l)); [done|].
  unfold ids. apply fmap_sublist, sublist_filter.
Qed.

Lemma filter_id_filter (Q : VaultEntry → Prop) `{∀ x, Decision (Q x)} i l :
  (∀ x, id x = i → Q x) →
  filter (λ e, id e = i) (filter Q l) = filter (λ e, id e = i) l.
Proof.
  intros HQ. rewrite list_filter_filter. apply list_filter_iff.
  intros e. split; [tauto|]. intros He. split; [done|]. by apply HQ.
Qed.

Lemma ids_filter_not_in (ds : list Z) l i :
  i ∈ ids (filter (λ e, id e ∉ ds) l) ↔ i ∈ ids l ∧ i ∉ ds.
Proof. exact (ServerFacts.ids_removeDeleted ds l i). Qed.

Lemma withConflictHistory_self (e : VaultEntry) :
  withConflictHistory e (conflictHistory e) = e.
Proof. by destruct e. Qed.

End IdColumns.

(** ** The vault routes as a whole *)

Module RoutesFacts.
Import Server Routes.

Implicit Types (l cur entries : list VaultEntry) (e u a : VaultEntry) (i : Z)
  (body : SyncBody) (db : gmap string Vault).

(** *** The three phases without their guards *)

Lemma removeDeleted_nil cur : removeDeleted [] cur = cur.
Proof. apply filter_keeps_all. intros e _. apply not_elem_of_nil. Qed.

(** An absent array and an empty one are served alike. *)
Lemma reconcile_unfold body entries :
  reconcile body entries =
    fold_left applyUpdate (default [] (updated body))
      (fold_left applyAdd (default [] (added body))
         (removeDeleted (default [] (deleted body)) entries)).
Proof.
  unfold reconcile.
  assert (∀ cur, applyDeletions (deleted body) cur =
                 removeDeleted (default [] (deleted body)) cur) as ->.
  { intros cur. destruct (deleted body) as [[|d ds]|]; simpl;
      by rewrite ?removeDeleted_nil. }
  assert (∀ cur, applyAdditions (added body) cur =
                 fold_left applyAdd (default [] (added body)) cur) as ->.
  { intros cur. destruct (added body); [|done].
    apply ServerFacts.applyAdditions_Some. }
  destruct (updated body); [|done]. apply ServerFacts.applyUpdates_Some.
Qed.

(** *** The id column along the phases *)

Lemma ids_applyAdd cur a : ids (applyAdd cur a) = addId (ids cur) (id a).
Proof.
  unfold applyAdd, addId. destruct (findById (id a) cur) as [p|] eqn:Hf.
  - rewrite decide_True; [done|]. apply findById_is_Some. eauto.
  - apply findById_None in Hf. rewrite decide_False by done. apply ids_app.
Qed.

Lemma ids_applyUpdate_addId cur u :
  ids (applyUpdate cur u) = addId (ids cur) (id u).
Proof. apply ServerFacts.ids_applyUpdate. Qed.

Lemma ids_fold_applyAdd es cur :
  ids (fold_left applyAdd es cur) = fold_left addId (ids es) (ids cur).
Proof.
  revert cur. induction es as [|a es IH]; intros cur; [done|].
  simpl. by rewrite IH, ids_applyAdd.
Qed.

Lemma ids_fold_applyUpdate_addId us cur :
  ids (fold_left applyUpdate us cur) = fold_left addId (ids us) (ids cur).
Proof.
  revert cur. induction us as [|u us IH]; intros cur; [done|].
  simpl. by rewrite IH, ids_applyUpdate_addId.
Qed.

Lemma ids_reconcile body entries :
  ids (reconcile body entries) =
    fold_left addId (ids (default [] (updated body)))
      (fold_left addId (ids (default [] (added body)))
         (ids (removeDeleted (default [] (deleted body)) entries))).
Proof.
  by rewrite reconcile_unfold, ids_fold_applyUpdate_addId, ids_fold_applyAdd.
Qed.

(** *** Entries of an id that the steps do not name *)

Lemma applyAdd_entries i cur a :
  i ∈ ids cur →
  filter (λ e, id e = i) (applyAdd cur a) = filter (λ e, id e = i) cur.
Proof.
  intros Hi. unfold applyAdd.
  destruct (findById (id a) cur) as [p|] eqn:Hf; [done|].
  apply findById_None in Hf.
  rewrite filter_app, filter_cons_False, filter_nil, app_nil_r; [done|].
  intros <-. contradiction.
Qed.

Lemma applyUpdate_entries_other i cur u :
  id u ≠ i →
  filter (λ e, id e = i) (applyUpdate cur u) = filter (λ e, id e = i) cur.
Proof.
  intros Hne. unfold applyUpdate.
  destruct (findById (id u) cur) as [[n x]|] eqn:Hf.
  - apply findById_Some in Hf as (Hn & Hx & _).
    apply filter_insert_rejected with x; [done| |done]. by rewrite Hx.
  - by rewrite filter_app, filter_cons_False, filter_nil, app_nil_r.
Qed.

Lemma applyUpdate_findById_other i cur u :
  id u ≠ i → findById i (applyUpdate cur u) = findById i cur.
Proof.
  intros Hne. unfold applyUpdate.
  destruct (findById (id u) cur) as [[n x]|] eqn:Hf.
  - apply findById_Some in Hf as (Hn & Hx & _).
    apply findById_insert_other with x; [done| |done]. by rewrite Hx.
  - by apply findById_snoc_other.
Qed.

Lemma applyUpdate_findById_self cur u :
  ∃ n,
    findById (id u) (applyUpdate cur u) =
      Some (n, match findById (id u) cur with
               | Some (_, replaced) =>
                   withConflictHistory u
                     (orElse (conflictHistory u) (conflictHistory replaced))
               | None => u
               end).
Proof.
  unfold applyUpdate. destruct (findById (id u) cur) as [[n x]|] eqn:Hf.
  - exists n. by apply findById_insert_same with x.
  - exists (length cur). apply findById_snoc_new. by apply findById_None.
Qed.

Lemma fold_applyUpdate_findById_other i us cur :
  i ∉ ids us →
  findById i (fold_left applyUpdate us cur) = findById i cur.
Proof.
  intros Hus.
  apply (SyncFacts.fold_left_invariant _
    (λ l, findById i l = findById i cur)); [|done].
  intros l u Hu <-. apply applyUpdate_findById_other.
  intros Hid. apply Hus, elem_of_ids. eauto.
Qed.

(** *** [GET /] *)

Lemma getVault_stored now uid db :
  (getVault now uid db).1 !! uid = Some (getVault now uid db).2.
Proof.
  unfold getVault. destruct (db !! uid) as [vault|] eqn:Hdb; simpl; [done|].
  apply lookup_insert_eq.
Qed.

Lemma getVault_fresh now uid db :
  db !! uid = None → (getVault now uid db).2 = mkVault uid 0 [] now.
Proof. intros Hdb. unfold getVault. by rewrite Hdb. Qed.

(** X1. [GET /] creates the vault of a user who has none, at version 0
    with no entries, and returns it; asked again, at any later time, it
    returns the same document and writes nothing.  A vault that exists is
    returned as stored and nothing is written. *)
Theorem getVault_creates_once now now' uid db :
  let first := getVault now uid db in
  (db !! uid = None → first.2 = mkVault uid 0 [] now)
  ∧ (∀ vault, db !! uid = Some vault → first = (db, vault))
  ∧ first.1 !! uid = Some first.2
  ∧ getVault now' uid first.1 = first.
Proof.
  intros first. subst first.
  split; [apply getVault_fresh|]. split; [|split; [apply getVault_stored|]].
  - intros vault Hdb. unfold getVault. by rewrite Hdb.
  - unfold getVault at 1. rewrite getVault_stored. by destruct (getVault _ _ _).
Qed.

(** X2. Once [GET /] has answered, [POST /sync] never answers 404 for that
    user; and on a vault that [GET /] has just created the only
    [baseVersion] accepted is 0, which brings the vault to version 1. *)
Theorem sync_after_get now now' uid body db :
  let db1 := (getVault now uid db).1 in
  (sync now' uid body db1).2 ≠ NotFound404
  ∧ (db !! uid = None →
     (sync now' uid body db1).2 =
       if bool_decide (baseVersion body = 0)
       then Ok200 1 (reconcile body []) now'
       else Conflict409 0 0 []).
Proof.
  intros db1. pose proof (getVault_stored now uid db) as Hstored.
  fold db1 in Hstored. split.
  - unfold sync. rewrite Hstored. by case_bool_decide.
  - intros Hdb. rewrite (getVault_fresh _ _ _ Hdb) in Hstored.
    case_bool_decide as Hbase.
    + by rewrite (ServerFacts.sync_accepted _ _ _ _ _ Hstored Hbase).
    + by rewrite (ServerFacts.sync_rejected _ _ _ _ _ Hstored Hbase).
Qed.

(** X3. Neither route touches another user's vault, and [POST /sync]
    neither creates nor removes a vault: the set of users that have one is
    the same after it. *)
Theorem routes_leave_other_users_alone now uid body db :
  (∀ other, other ≠ uid →
     (sync now uid body db).1 !! other = db !! other
     ∧ (getVault now uid db).1 !! other = db !! other)
  ∧ dom (sync now uid body db).1 = dom db.
Proof.
  split.
  - intros other Hne. split.
    + unfold sync. destruct (db !! uid); [|done].
      case_bool_decide; [done|]. simpl. by apply lookup_insert_ne.
    + unfold getVault. destruct (db !! uid); [done|].
      simpl. by apply lookup_insert_ne.
  - unfold sync. destruct (db !! uid) as [vault|] eqn:Hdb; [|done].
    case_bool_decide; [done|]. simpl.
    apply dom_insert_lookup_L. eauto.
Qed.

(** *** What an accepted change-set does to the entries *)

(** X4. The ids stored after an accepted change-set are exactly the ids
    stored before that [deleted] does not name, the ids of [added] and the
    ids of [updated]. *)
Theorem ids_after_reconcile body entries i :
  i ∈ ids (reconcile body entries) ↔
    (i ∈ ids entries ∧ i ∉ default [] (deleted body))
    ∨ i ∈ ids (default [] (added body))
    ∨ i ∈ ids (default [] (updated body)).
Proof.
  rewrite ids_reconcile, !elem_of_fold_addId, ServerFacts.ids_removeDeleted.
  tauto.
Qed.

(** X5. Ids stay unique: when no two stored entries share an id, no two
    do after the change-set is applied, whatever repetitions [added] and
    [updated] contain. *)
Theorem reconcile_keeps_ids_unique body entries :
  NoDup (ids entries) → NoDup (ids (reconcile body entries)).
Proof.
  intros Hnd. rewrite ids_reconcile.
  do 2 apply NoDup_fold_addId. by apply NoDup_ids_filter.
Qed.

(** X6. A stored id that the change-set neither deletes nor updates keeps
    its entries exactly as they were, also when [added] carries an entry
    of that id: an addition never overwrites. *)
Theorem reconcile_leaves_unnamed_entries body entries i :
  i ∈ ids entries →
  i ∉ default [] (deleted body) →
  i ∉ ids (default [] (updated body)) →
  filter (λ e, id e = i) (reconcile body entries) =
    filter (λ e, id e = i) entries.
Proof.
  intros Hin Hdel Hupd. rewrite reconcile_unfold.
  set (kept := removeDeleted (default [] (deleted body)) entries).
  assert (filter (λ e, id e = i) kept = filter (λ e, id e = i) entries) as Hkept.
  { subst kept. unfold removeDeleted. apply filter_id_filter. by intros x ->. }
  assert (i ∈ ids kept) as Hi by (apply ServerFacts.ids_removeDeleted; done).
  rewrite <- Hkept. clear Hkept.
  generalize dependent kept. intros kept Hi.
  assert (i ∈ ids (fold_left applyAdd (default [] (added body)) kept)
          ∧ filter (λ e, id e = i)
              (fold_left applyAdd (default [] (added body)) kept) =
            filter (λ e, id e = i) kept) as [_ <-].
  { apply (SyncFacts.fold_left_invariant _
      (λ l, i ∈ ids l ∧
            filter (λ e, id e = i) l = filter (λ e, id e = i) kept)); [|done].
    intros l a _ [Hl <-]. split; [|by apply applyAdd_entries].
    rewrite ids_applyAdd. apply elem_of_addId. by left. }
  apply (SyncFacts.fold_left_invariant _
    (λ l, filter (λ e, id e = i) l =
          filter (λ e, id e = i)
            (fold_left applyAdd (default [] (added body)) kept))); [|done].
  intros l u Hu <-. apply applyUpdate_entries_other.
  intros Hid. apply Hupd, elem_of_ids. eauto.
Qed.

Lemma fold_applyUpdate_last before u after cur :
  id u ∉ ids after →
  ∃ n,
    findById (id u) (fold_left applyUpdate (before ++ u :: after) cur) =
      Some (n, match findById (id u) (fold_left applyUpdate before cur) with
               | Some (_, replaced) =>
                   withConflictHistory u
                     (orElse (conflictHistory u) (conflictHistory replaced))
               | None => u
               end).
Proof.
  intros Hafter. rewrite fold_left_app. simpl.
  rewrite (fold_applyUpdate_findById_other _ _ _ Hafter).
  apply applyUpdate_findById_self.
Qed.

(** X7. The last update of an id wins, and what it inherits is pinned.
    Let [u] be the last entry of [updated] with its id, and take the list
    as it stands when [u] is reached: the stored entries after the
    deletions and the additions, with the updates before [u] applied.
    The entry stored for the id after the sync is [u] itself when that
    list has no entry of the id; otherwise it has every field of [u],
    with the [conflictHistory] of [u] when [u] has one and that of the
    entry it replaces, the first of the id in that list, when [u] has
    none.  So a [u] with a history is stored as it is; and when no earlier
    update has the id, the entry replaced is the one that the deletions
    and additions left. *)
Theorem last_update_wins body entries before u after :
  updated body = Some (before ++ u :: after) →
  id u ∉ ids after →
  let base :=
    applyAdditions (added body) (applyDeletions (deleted body) entries) in
  let reached := fold_left applyUpdate before base in
  let stored :=
    match findById (id u) reached with
    | Some (_, replaced) =>
        withConflictHistory u
          (orElse (conflictHistory u) (conflictHistory replaced))
    | None => u
    end in
  (∃ n, findById (id u) (reconcile body entries) = Some (n, stored))
  ∧ (is_Some (conflictHistory u) → stored = u)
  ∧ (id u ∉ ids before → findById (id u) reached = findById (id u) base).
Proof.
  intros Hupd Hafter base reached stored. split; [|split].
  - unfold reconcile. rewrite Hupd, ServerFacts.applyUpdates_Some.
    by apply fold_applyUpdate_last.
  - intros [h Hh]. subst stored.
    destruct (findById (id u) reached) as [[? replaced]|]; [|done].
    rewrite Hh. simpl. rewrite <- Hh. apply withConflictHistory_self.
  - intros Hbefore. by apply fold_applyUpdate_findById_other.
Qed.

(** *** The version check over several requests *)

(** X8. After a change-set is accepted at a version [v] in the range
    [-2^53 ≤ v < 2^53], the next one is accepted if and only if it is
    based on [v + 1]: of two change-sets built on the same version,
    whatever they contain, the second is answered 409 with the state of
    version [v + 1] and changes nothing.  The version that an accepted
    second one is stored at is [v + 2] as long as [v + 1] is below
    [2^53]. *)
Theorem only_the_next_version_is_accepted now1 now2 uid body1 body2 db vault :
  db !! uid = Some vault →
  baseVersion body1 = vaultVersion vault →
  - 2 ^ 53 ≤ vaultVersion vault < 2 ^ 53 →
  let db1 := (sync now1 uid body1 db).1 in
  let entries1 := reconcile body1 (encryptedEntries vault) in
  let v2 := Double.add (vaultVersion vault + 1) 1 in
  sync now2 uid body2 db1 =
    (if bool_decide (baseVersion body2 = vaultVersion vault + 1)
     then (<[uid := mkVault (userId vault) v2
                      (reconcile body2 entries1) now2]> db1,
           Ok200 v2 (reconcile body2 entries1) now2)
     else (db1, Conflict409 (vaultVersion vault + 1) (vaultVersion vault + 1)
                  entries1))
  ∧ (baseVersion body2 = baseVersion body1 →
     sync now2 uid body2 db1 =
       (db1, Conflict409 (vaultVersion vault + 1) (vaultVersion vault + 1)
               entries1))
  ∧ (vaultVersion vault + 1 < 2 ^ 53 → v2 = vaultVersion vault + 2).
Proof.
  intros Hdb Hbase Hrange db1 entries1 v2. subst db1 entries1 v2.
  rewrite (ServerFacts.sync_accepted _ _ _ _ _ Hdb Hbase). simpl.
  rewrite (DoubleFacts.increment_exact _ Hrange).
  set (vault1 := mkVault _ _ _ _).
  assert (<[uid := vault1]> db !! uid = Some vault1) as H1
    by apply lookup_insert_eq.
  split; [|split].
  - case_bool_decide as Hb.
    + by rewrite (ServerFacts.sync_accepted _ _ _ _ _ H1 Hb).
    + by rewrite (ServerFacts.sync_rejected _ _ _ _ _ H1 Hb).
  - intros Hsame. apply (ServerFacts.sync_rejected _ _ _ _ _ H1).
    simpl. lia.
  - intros Hnext. rewrite DoubleFacts.increment_exact by lia. lia.
Qed.

Lemma serve_snoc uid requests r db :
  serve uid (requests ++ [r]) db =
    ((sync r.1 uid r.2 (serve uid requests db).1).1,
     (serve uid requests db).2 ++ [(sync r.1 uid r.2 (serve uid requests db).1).2]).
Proof.
  unfold serve. rewrite fold_left_app. simpl.
  by destruct (sync r.1 uid r.2 _).
Qed.

(** X9. [vaultVersion] counts the accepted change-sets, as long as it
    stays within [2^53]: after a sequence of [n] sync requests of a user
    whose vault is at a version [v] with [-2^53 ≤ v] and [v + n ≤ 2^53],
    there is one response per request, and the stored version is [v] plus
    the number of 200 responses; in particular it has not decreased. *)
Theorem version_counts_accepted_syncs uid requests db vault :
  db !! uid = Some vault →
  - 2 ^ 53 ≤ vaultVersion vault →
  vaultVersion vault + Z.of_nat (length requests) ≤ 2 ^ 53 →
  let served := serve uid requests db in
  length served.2 = length requests
  ∧ ∃ vault',
      served.1 !! uid = Some vault'
      ∧ vaultVersion vault' =
          vaultVersion vault + Z.of_nat (length (filter isOk served.2))
      ∧ userId vault' = userId vault.
Proof.
  intros Hdb Hlow Hhigh.
  induction requests as [|r requests IH] using rev_ind.
  - simpl. split; [done|]. exists vault. split; [done|]. split; [lia|done].
  - rewrite length_app in Hhigh. simpl in *.
    destruct IH as (Hlen & vault' & Hv' & Hver & Huid); [lia|].
    pose proof (length_filter isOk (serve uid requests db).2) as Hoks.
    rewrite serve_snoc. simpl. rewrite !length_app, Hlen. split; [done|].
    rewrite filter_app, length_app.
    destruct (decide (baseVersion r.2 = vaultVersion vault')) as [Hb|Hb].
    + rewrite (ServerFacts.sync_accepted _ _ _ _ _ Hv' Hb). simpl.
      rewrite DoubleFacts.increment_exact by lia.
      eexists. rewrite lookup_insert_eq. split; [done|]. simpl.
      split; [lia|done].
    + rewrite (ServerFacts.sync_rejected _ _ _ _ _ Hv' Hb). simpl.
      exists vault'. split; [done|]. split; [lia|done].
Qed.

(** *** Instances on the sample data *)

Lemma getVault_creates_once_witness :
  (∅ : gmap string Vault) !! "user-3" = None
  ∧ (getVault 7 "user-3" ∅).2 = mkVault "user-3" 0 [] 7
  ∧ Samples.db !! "user-1" = Some Samples.vault1
  ∧ getVault 7 "user-1" Samples.db = (Samples.db, Samples.vault1).
Proof.
  assert ((∅ : gmap string Vault) !! "user-3" = None) as H1 by reflexivity.
  assert (Samples.db !! "user-1" = Some Samples.vault1) as H2 by reflexivity.
  exact (conj H1 (conj
    (proj1 (getVault_creates_once 7 8 "user-3" ∅) H1) (conj H2
    (proj1 (proj2 (getVault_creates_once 7 8 "user-1" Samples.db))
       Samples.vault1 H2)))).
Defined.

Lemma sync_after_get_witness :
  (∅ : gmap string Vault) !! "user-3" = None
  ∧ (sync 8 "user-3" Samples.tombstoneBody (getVault 7 "user-3" ∅).1).2 =
      Conflict409 0 0 [].
Proof.
  assert ((∅ : gmap string Vault) !! "user-3" = None) as H1 by reflexivity.
  exact (conj H1
    (proj2 (sync_after_get 7 8 "user-3" Samples.tombstoneBody ∅) H1)).
Defined.

Lemma routes_leave_other_users_alone_witness :
  "user-2" ≠ "user-1"
  ∧ (sync 7 "user-1" Samples.tombstoneBody ClientSamples.twoUsers).1
      !! "user-2" = Some Samples.emptyVault.
Proof.
  assert ("user-2" ≠ "user-1") as H1 by by_decide.
  exact (conj H1
    (proj1 (proj1 (routes_leave_other_users_alone 7 "user-1"
                     Samples.tombstoneBody ClientSamples.twoUsers)
              "user-2" H1))).
Defined.

Lemma reconcile_keeps_ids_unique_witness :
  NoDup (ids Samples.localEntries)
  ∧ NoDup (ids (reconcile Samples.unknownIdBody Samples.localEntries)).
Proof.
  assert (NoDup (ids Samples.localEntries)) as H1 by by_decide.
  exact (conj H1
    (reconcile_keeps_ids_unique Samples.unknownIdBody Samples.localEntries
       H1)).
Defined.

Lemma reconcile_leaves_unnamed_entries_witness :
  2 ∈ ids Samples.localEntries
  ∧ (2 ∉ default [] (deleted Samples.unknownIdBody))
  ∧ (2 ∉ ids (default [] (updated Samples.unknownIdBody)))
  ∧ filter (λ e, id e = 2)
      (reconcile Samples.unknownIdBody Samples.localEntries) =
      [Samples.localOnly].
Proof.
  assert (2 ∈ ids Samples.localEntries) as H1 by by_decide.
  assert (2 ∉ default [] (deleted Samples.unknownIdBody)) as H2 by by_decide.
  assert (2 ∉ ids (default [] (updated Samples.unknownIdBody))) as H3
    by by_decide.
  exact (conj H1 (conj H2 (conj H3
    (reconcile_leaves_unnamed_entries Samples.unknownIdBody
       Samples.localEntries 2 H1 H2 H3)))).
Defined.

Lemma last_update_wins_witness :
  updated Samples.tombstoneBody = Some ([] ++ Samples.dead :: [])
  ∧ (id Samples.dead ∉ ids [])
  ∧ ∃ n,
      findById 123
        (reconcile Samples.tombstoneBody [ClientSamples.archived]) =
        Some (n, withConflictHistory Samples.dead
                   (conflictHistory ClientSamples.archived)).
Proof.
  assert (updated Samples.tombstoneBody = Some ([] ++ Samples.dead :: []))
    as H1 by reflexivity.
  assert (id Samples.dead ∉ ids []) as H2 by by_decide.
  exact (conj H1 (conj H2
    (proj1 (last_update_wins Samples.tombstoneBody [ClientSamples.archived]
              [] Samples.dead [] H1 H2)))).
Defined.

Lemma only_the_next_version_is_accepted_witness :
  Samples.db !! "user-1" = Some Samples.vault1
  ∧ baseVersion Samples.tombstoneBody = vaultVersion Samples.vault1
  ∧ - 2 ^ 53 ≤ vaultVersion Samples.vault1 < 2 ^ 53
  ∧ sync 8 "user-1" Samples.staleBody
      (sync 7 "user-1" Samples.tombstoneBody Samples.db).1 =
      ((sync 7 "user-1" Samples.tombstoneBody Samples.db).1,
       Conflict409 2 2 [Samples.dead]).
Proof.
  assert (Samples.db !! "user-1" = Some Samples.vault1) as H1 by reflexivity.
  assert (baseVersion Samples.tombstoneBody = vaultVersion Samples.vault1)
    as H2 by reflexivity.
  assert (- 2 ^ 53 ≤ vaultVersion Samples.vault1 < 2 ^ 53) as H3
    by by_decide.
  exact (conj H1 (conj H2 (conj H3
    (proj1 (only_the_next_version_is_accepted 7 8 "user-1"
              Samples.tombstoneBody Samples.staleBody Samples.db
              Samples.vault1 H1 H2 H3))))).
Defined.

Lemma version_counts_accepted_syncs_witness :
  Samples.db !! "user-1" = Some Samples.vault1
  ∧ - 2 ^ 53 ≤ vaultVersion Samples.vault1
  ∧ vaultVersion Samples.vault1 + 2 ≤ 2 ^ 53
  ∧ length (serve "user-1"
              [(7, Samples.tombstoneBody); (8, Samples.tombstoneBody)]
              Samples.db).2 = 2%nat
  ∧ ∃ vault',
      (serve "user-1" [(7, Samples.tombstoneBody); (8, Samples.tombstoneBody)]
         Samples.db).1 !! "user-1" = Some vault'
      ∧ vaultVersion vault' = 1 + 1
      ∧ userId vault' = "user-1".
Proof.
  assert (Samples.db !! "user-1" = Some Samples.vault1) as H1 by reflexivity.
  assert (- 2 ^ 53 ≤ vaultVersion Samples.vault1) as H2 by by_decide.
  assert (vaultVersion Samples.vault1 + 2 ≤ 2 ^ 53) as H3 by by_decide.
  exact (conj H1 (conj H2 (conj H3
    (version_counts_accepted_syncs "user-1"
       [(7, Samples.tombstoneBody); (8, Samples.tombstoneBody)] Samples.db
       Samples.vault1 H1 H2 H3)))).
Defined.

End RoutesFacts.

(** ** More on the client merge and the delta *)

Module MergeFacts.
Import SyncService MergeSpec SyncFacts.

Implicit Types (l merged : list VaultEntry) (e s a : VaultEntry) (i : Z)
  (w : World) (d : SyncDelta).

Section Merge.
Variable parseDate : string → option Z.

Local Abbreviation laterThan := (laterThan parseDate).
Local Abbreviation mergeUpdated := (mergeUpdated parseDate).
Local Abbreviation resolveConflicts := (resolveConflicts parseDate).
Local Abbreviation beforeDeletion := (beforeDeletion parseDate).
Local Abbreviation settled := (settled parseDate).

Lemma ids_mergeAdded_addId merged a :
  ids (mergeAdded merged a) = addId (ids merged) (id a).
Proof.
  unfold addId.
  destruct (mergeAdded_cases merged a) as [[Hnew ->]|[Hin ->]].
  - rewrite decide_False by done. apply ids_app.
  - by rewrite decide_True.
Qed.

Lemma ids_fold_mergeAdded es merged :
  ids (fold_left mergeAdded es merged) = fold_left addId (ids es) (ids merged).
Proof.
  revert merged. induction es as [|a es IH]; intros merged; [done|].
  simpl. by rewrite IH, ids_mergeAdded_addId.
Qed.

Lemma ids_forEachM_mergeUpdated us merged w :
  ids (forEachM mergeUpdated us merged w).1 =
    fold_left addId (ids us) (ids merged).
Proof.
  revert merged w. induction us as [|s us IH]; intros merged w; [done|].
  rewrite forEachM_cons, IH. simpl. by rewrite (ids_mergeUpdated parseDate).
Qed.

Lemma ids_beforeDeletion localEntries d w :
  ids (beforeDeletion localEntries d w).1 =
    fold_left addId (ids (updated d))
      (fold_left addId (ids (added d)) (ids localEntries)).
Proof.
  unfold MergeSpec.beforeDeletion.
  by rewrite ids_forEachM_mergeUpdated, ids_fold_mergeAdded.
Qed.

(** X10. The ids of the merged list are exactly the ids of the local
    list, of [added] and of [updated], minus the ids in [deleted]. *)
Theorem ids_after_merge localEntries d w i :
  i ∈ ids (resolveConflicts localEntries d w).1 ↔
    (i ∈ ids localEntries ∨ i ∈ ids (added d) ∨ i ∈ ids (updated d))
    ∧ i ∉ deleted d.
Proof.
  rewrite resolveConflicts_unfold. simpl.
  rewrite ids_filter_not_in.
  rewrite ids_beforeDeletion, !elem_of_fold_addId. tauto.
Qed.

(** X11. Ids stay unique on the client too: when no two local entries
    share an id, no two entries of the merged list do, whatever
    repetitions the server delta contains. *)
Theorem merge_keeps_ids_unique localEntries d w :
  NoDup (ids localEntries) →
  NoDup (ids (resolveConflicts localEntries d w).1).
Proof.
  intros Hnd. rewrite resolveConflicts_unfold. simpl.
  apply NoDup_ids_filter. rewrite ids_beforeDeletion.
  by do 2 apply NoDup_fold_addId.
Qed.

(** X12. A server update for an id the client does not have is taken as
    it is: when the local list and [added] lack the id, [updated] carries
    it once and [deleted] does not name it, the entry found for the id in
    the merged list is the server entry, conflict history included. *)
Theorem unknown_update_is_inserted
    localEntries d w i serverEntry before after :
  i ∉ ids localEntries →
  i ∉ ids (added d) →
  updated d = before ++ serverEntry :: after →
  id serverEntry = i →
  i ∉ ids before →
  i ∉ ids after →
  i ∉ deleted d →
  snd <$> findById i (resolveConflicts localEntries d w).1 = Some serverEntry.
Proof.
  intros Hlocal Hadd Hupd Hid Hbefore Hafter Hdel.
  rewrite resolveConflicts_unfold. simpl.
  rewrite findById_filter by (by intros x ->).
  unfold MergeSpec.beforeDeletion. rewrite Hupd, forEachM_app, forEachM_cons.
  rewrite forEachM_mergeUpdated_findById_other by done.
  set (loop1 := forEachM mergeUpdated before _ w).
  assert (id serverEntry ∉ ids loop1.1) as Hnew.
  { subst loop1. rewrite Hid, ids_forEachM_mergeUpdated, ids_fold_mergeAdded.
    rewrite !elem_of_fold_addId. tauto. }
  rewrite (mergeUpdated_absent _ _ _ _ Hnew). simpl.
  rewrite <- Hid, findById_snoc_new by done. done.
Qed.

(** X13. A server addition for an id the client does not have is appended
    as it is: when the local list lacks the id, [a] is the first entry of
    [added] with it and neither [updated] nor [deleted] names it, the
    entry found for the id in the merged list is [a]. *)
Theorem unknown_addition_is_inserted localEntries d w i a before after :
  i ∉ ids localEntries →
  added d = before ++ a :: after →
  id a = i →
  i ∉ ids before →
  i ∉ ids (updated d) →
  i ∉ deleted d →
  snd <$> findById i (resolveConflicts localEntries d w).1 = Some a.
Proof.
  intros Hlocal Hadd Hid Hbefore Hupd Hdel.
  rewrite resolveConflicts_unfold. simpl.
  rewrite findById_filter by (by intros x ->).
  unfold MergeSpec.beforeDeletion.
  rewrite forEachM_mergeUpdated_findById_other by done.
  rewrite Hadd, fold_left_app. simpl.
  set (start := fold_left mergeAdded before localEntries).
  assert (id a ∉ ids start) as Hnew.
  { subst start. rewrite Hid, ids_fold_mergeAdded, elem_of_fold_addId. tauto. }
  destruct (mergeAdded_cases start a) as [[_ Heq]|[Hin _]]; [|done].
  rewrite Heq.
  assert (findById i (start ++ [a]) = Some (length start, a)) as Hf
    by (rewrite <- Hid; by apply findById_snoc_new).
  by rewrite (fold_mergeAdded_findById _ _ _ _ _ Hf).
Qed.

(** X14. After the merge the client is never behind the server's updates:
    for every entry of [updated] whose id [deleted] does not name, the
    merged list holds an entry of that id, and the server entry's date is
    not later than that of the first such entry. *)
Theorem merge_is_not_behind_the_server localEntries d w serverEntry :
  serverEntry ∈ updated d →
  id serverEntry ∉ deleted d →
  ∃ n held,
    findById (id serverEntry) (resolveConflicts localEntries d w).1 =
      Some (n, held)
    ∧ laterThan (updatedAt serverEntry) (updatedAt held) = false.
Proof.
  intros Hin Hdel. rewrite resolveConflicts_unfold. simpl.
  apply (settled_filter parseDate).
  - intros x Hx. by rewrite Hx.
  - unfold MergeSpec.beforeDeletion. by apply forEachM_mergeUpdated_settles.
Qed.

Lemma mergeUpdated_reads merged s w :
  (clockReads (mergeUpdated merged s w).2 ≤ S (clockReads w))%nat.
Proof.
  destruct (mergeUpdated_cases parseDate merged s w)
    as [[_ ->]|[(n & x & _ & _ & ->)|(n & x & _ & _ & ->)]]; simpl; lia.
Qed.

Lemma forEachM_mergeUpdated_reads us merged w :
  (clockReads (forEachM mergeUpdated us merged w).2 ≤
     clockReads w + length us)%nat.
Proof.
  revert merged w. induction us as [|s us IH]; intros merged w.
  - simpl. lia.
  - rewrite forEachM_cons. etrans; [apply IH|].
    pose proof (mergeUpdated_reads merged s w). simpl. lia.
Qed.

(** X15. The merge draws no uuid and reads the clock at most once per
    entry of [updated]: the world after it has the same time line and the
    same uuid generator and cursor, and a clock cursor advanced by at most
    the length of [updated]. *)
Theorem merge_reads_the_clock_at_most_once_per_update localEntries d w :
  let w' := (resolveConflicts localEntries d w).2 in
  clock w' = clock w
  ∧ uuids w' = uuids w
  ∧ uuidDraws w' = uuidDraws w
  ∧ (clockReads w ≤ clockReads w' ≤ clockReads w + length (updated d))%nat.
Proof.
  rewrite resolveConflicts_unfold. simpl. unfold MergeSpec.beforeDeletion.
  destruct (forEachM_mergeUpdated_clock parseDate (updated d)
              (fold_left mergeAdded (added d) localEntries) w)
    as (Hc & Hu & Hd & Hr).
  repeat split; try done. apply forEachM_mergeUpdated_reads.
Qed.

(** X16. A delta that holds nothing new is a no-op: when the client has
    every id of [added], is not older than any entry of [updated] and has
    none of the ids in [deleted], the merge returns the local list itself
    and leaves the world as it was. *)
Theorem nothing_new_changes_nothing localEntries d w :
  (∀ a, a ∈ added d → id a ∈ ids localEntries) →
  (∀ s, s ∈ updated d →
     ∃ n held, findById (id s) localEntries = Some (n, held)
               ∧ laterThan (updatedAt s) (updatedAt held) = false) →
  (∀ i, i ∈ deleted d → i ∉ ids localEntries) →
  resolveConflicts localEntries d w = (localEntries, w).
Proof.
  intros Hadd Hupd Hdel. rewrite resolveConflicts_unfold.
  unfold MergeSpec.beforeDeletion.
  assert (fold_left mergeAdded (added d) localEntries = localEntries) as ->.
  { apply (fold_left_invariant _ (λ l, l = localEntries)); [|done].
    intros l a Ha ->.
    destruct (mergeAdded_cases localEntries a) as [[Hnew _]|[_ ->]]; [|done].
    exfalso. by apply Hnew, Hadd. }
  rewrite (forEachM_mergeUpdated_settled parseDate) by done. simpl.
  f_equal. apply filter_keeps_all. intros e He Hin.
  apply (Hdel _ Hin), elem_of_ids. eauto.
Qed.

End Merge.

Lemma NoDup_ids_split (before after : list VaultEntry) e :
  NoDup (ids (before ++ e :: after)) →
  (id e ∉ ids before) ∧ (id e ∉ ids after).
Proof.
  rewrite ids_app. unfold ids at 2. rewrite fmap_cons.
  intros (_ & Hdisjoint & Hnd)%NoDup_app. split.
  - intros Hin. apply (Hdisjoint _ Hin), list_elem_of_here.
  - by apply NoDup_cons in Hnd as [? _].
Qed.

(** X17. Pushing reaches the server.  Let the server be at a version [v]
    in the range [-2^53 ≤ v < 2^53], and let the client compute its delta
    against [v] and send it.  The server accepts it and moves to [v + 1];
    it then stores exactly the ids it had and the ids of the local entries
    newer than [v]; and, local ids being unique, the entry stored for each
    such local entry is the local entry itself when the server had no
    entry of its id, and otherwise has all its fields, with its own
    [conflictHistory] when it has one and that of the entry the server
    had for the id when it has none. *)
Theorem push_reaches_the_server
    now uid db vault (localEntries : list VaultEntry) w :
  db !! uid = Some vault →
  NoDup (ids localEntries) →
  - 2 ^ 53 ≤ Server.vaultVersion vault < 2 ^ 53 →
  let v := Server.vaultVersion vault in
  let d := (calculateDelta localEntries v w).1 in
  ∃ stored,
    Server.sync now uid (Routes.toBody d) db =
      (<[uid := Server.mkVault (Server.userId vault) (v + 1) stored now]> db,
       Server.Ok200 (v + 1) stored now)
    ∧ (∀ i, i ∈ ids stored ↔
            i ∈ ids (Server.encryptedEntries vault)
            ∨ ∃ e, e ∈ localEntries ∧ v < version e ∧ id e = i)
    ∧ (∀ e, e ∈ localEntries → v < version e →
         ∃ n,
           findById (id e) stored =
             Some (n, match findById (id e) (Server.encryptedEntries vault)
                      with
                      | Some (_, replaced) =>
                          withConflictHistory e
                            (orElse (conflictHistory e)
                               (conflictHistory replaced))
                      | None => e
                      end)).
Proof.
  intros Hdb Hnd Hrange v d.
  exists (Server.reconcile (Routes.toBody d) (Server.encryptedEntries vault)).
  split.
  { rewrite (ServerFacts.sync_accepted now uid (Routes.toBody d) db vault)
      by done.
    by rewrite (DoubleFacts.increment_exact _ Hrange). }
  rewrite RoutesFacts.reconcile_unfold. simpl.
  rewrite RoutesFacts.removeDeleted_nil.
  set (newer := filter (λ e, v < version e) localEntries).
  split.
  - intros i. rewrite RoutesFacts.ids_fold_applyUpdate_addId.
    rewrite elem_of_fold_addId, (elem_of_ids i newer).
    apply or_iff_compat_l. split.
    + intros (e & [Hv He]%list_elem_of_filter & Hid). eauto.
    + intros (e & He & Hv & Hid). exists e. split; [|done].
      by apply list_elem_of_filter.
  - intros e He Hv.
    assert (e ∈ newer) as Hin by by apply list_elem_of_filter.
    apply list_elem_of_split in Hin as (before & after & Hsplit).
    assert (NoDup (ids (before ++ e :: after))) as Hsplit'.
    { rewrite <- Hsplit. by apply NoDup_ids_filter. }
    apply NoDup_ids_split in Hsplit' as [Hbefore Hafter].
    rewrite Hsplit.
    destruct (RoutesFacts.fold_applyUpdate_last before e after
                (Server.encryptedEntries vault) Hafter) as [n Hn].
    exists n. rewrite Hn.
    by rewrite (RoutesFacts.fold_applyUpdate_findById_other _ _ _ Hbefore).
Qed.

(** *** Instances on the sample data *)

Lemma merge_keeps_ids_unique_witness :
  NoDup (ids Samples.localEntries)
  ∧ NoDup (ids (resolveConflicts Samples.parseDate Samples.localEntries
                  Samples.serverDelta Samples.world).1).
Proof.
  assert (NoDup (ids Samples.localEntries)) as H1 by by_decide.
  exact (conj H1
    (merge_keeps_ids_unique Samples.parseDate Samples.localEntries
       Samples.serverDelta Samples.world H1)).
Defined.

Lemma unknown_update_is_inserted_witness :
  (1 ∉ ids [Samples.localOnly])
  ∧ updated Samples.serverDelta = [] ++ Samples.serverNew :: []
  ∧ snd <$> findById 1
              (resolveConflicts Samples.parseDate [Samples.localOnly]
                 Samples.serverDelta Samples.world).1 =
      Some Samples.serverNew.
Proof.
  assert (1 ∉ ids [Samples.localOnly]) as H1 by by_decide.
  assert (updated Samples.serverDelta = [] ++ Samples.serverNew :: [])
    as H2 by reflexivity.
  split; [exact H1|]. split; [exact H2|].
  refine (unknown_update_is_inserted Samples.parseDate [Samples.localOnly]
            Samples.serverDelta Samples.world 1 Samples.serverNew [] []
            H1 _ H2 eq_refl _ _ _); by_decide.
Defined.

Lemma unknown_addition_is_inserted_witness :
  (1 ∉ ids [Samples.localOnly])
  ∧ added ClientSamples.additionDelta = [] ++ Samples.serverNew :: []
  ∧ snd <$> findById 1
              (resolveConflicts Samples.parseDate [Samples.localOnly]
                 ClientSamples.additionDelta Samples.world).1 =
      Some Samples.serverNew.
Proof.
  assert (1 ∉ ids [Samples.localOnly]) as H1 by by_decide.
  assert (added ClientSamples.additionDelta = [] ++ Samples.serverNew :: [])
    as H2 by reflexivity.
  split; [exact H1|]. split; [exact H2|].
  refine (unknown_addition_is_inserted Samples.parseDate [Samples.localOnly]
            ClientSamples.additionDelta Samples.world 1 Samples.serverNew
            [] [] H1 H2 eq_refl _ _ _); by_decide.
Defined.

Lemma merge_is_not_behind_the_server_witness :
  Samples.serverNew ∈ updated Samples.serverDelta
  ∧ (id Samples.serverNew ∉ deleted Samples.serverDelta)
  ∧ ∃ n held,
      findById 1
        (resolveConflicts Samples.parseDate Samples.localEntries
           Samples.serverDelta Samples.world).1 = Some (n, held)
      ∧ laterThan Samples.parseDate (updatedAt Samples.serverNew)
          (updatedAt held) = false.
Proof.
  assert (Samples.serverNew ∈ updated Samples.serverDelta) as H1
    by apply list_elem_of_here.
  assert (id Samples.serverNew ∉ deleted Samples.serverDelta) as H2
    by by_decide.
  exact (conj H1 (conj H2
    (merge_is_not_behind_the_server Samples.parseDate Samples.localEntries
       Samples.serverDelta Samples.world Samples.serverNew H1 H2))).
Defined.

Lemma nothing_new_changes_nothing_witness :
  resolveConflicts Samples.parseDate ClientSamples.newerLocal
    ClientSamples.knownDelta Samples.world =
    (ClientSamples.newerLocal, Samples.world).
Proof.
  apply (nothing_new_changes_nothing Samples.parseDate
           ClientSamples.newerLocal ClientSamples.knownDelta Samples.world).
  - intros a Ha. apply list_elem_of_singleton in Ha as ->. by_decide.
  - intros s Hs. apply list_elem_of_singleton in Hs as ->.
    exists 0%nat, Samples.serverNew. split; reflexivity.
  - intros i Hi. apply list_elem_of_singleton in Hi as ->. by_decide.
Defined.

Lemma push_reaches_the_server_witness :
  ClientSamples.archivedDb !! "user-1" = Some ClientSamples.archivedVault
  ∧ NoDup (ids [Samples.dead; Samples.serverNew])
  ∧ - 2 ^ 53 ≤ Server.vaultVersion ClientSamples.archivedVault < 2 ^ 53
  ∧ ∃ stored,
      Server.sync 7 "user-1"
        (Routes.toBody
           (calculateDelta [Samples.dead; Samples.serverNew] 1
              Samples.world).1) ClientSamples.archivedDb =
        (<["user-1" := Server.mkVault "user-1" 2 stored 7]>
           ClientSamples.archivedDb,
         Server.Ok200 2 stored 7)
      ∧ stored =
          [withConflictHistory Samples.dead
             (conflictHistory ClientSamples.archived);
           Samples.serverNew].
Proof.
  assert (ClientSamples.archivedDb !! "user-1" =
            Some ClientSamples.archivedVault) as H1 by reflexivity.
  assert (NoDup (ids [Samples.dead; Samples.serverNew])) as H2 by by_decide.
  assert (- 2 ^ 53 ≤ Server.vaultVersion ClientSamples.archivedVault
          < 2 ^ 53) as H3 by by_decide.
  split; [exact H1|]. split; [exact H2|]. split; [exact H3|].
  destruct (push_reaches_the_server 7 "user-1" ClientSamples.archivedDb
              ClientSamples.archivedVault [Samples.dead; Samples.serverNew]
              Samples.world H1 H2 H3)
    as (stored & Hsync & _).
  exists stored. split; [exact Hsync|].
  apply (f_equal snd) in Hsync. vm_compute in Hsync.
  injection Hsync as <-. reflexivity.
Defined.

End MergeFacts.

(** ** Password strength *)

Module PasswordStrengthFacts.
Import PasswordStrength.

Implicit Types (p q : string) (c : Ascii.ascii).

Lemma length_append p q :
  String.length (p +:+ q) = (String.length p + String.length q)%nat.
Proof. induction p as [|c p IH]; simpl; [done|]. by rewrite IH. Qed.

Lemma chars_append p q :
  String.list_ascii_of_string (p +:+ q) =
    String.list_ascii_of_string p ++ String.list_ascii_of_string q.
Proof. induction p as [|c p IH]; simpl; [done|]. by rewrite IH. Qed.

Lemma test_append cls p q : test cls (p +:+ q) = test cls p || test cls q.
Proof. unfold test. by rewrite chars_append, existsb_app. Qed.

Lemma bump_mono (c c' : bool) (n n' : nat) :
  (c = true → c' = true) → (n ≤ n')%nat → (bump c n ≤ bump c' n')%nat.
Proof.
  intros Hc Hn. unfold bump. destruct c; [rewrite Hc by done|destruct c']; lia.
Qed.

Lemma bump_le (c : bool) (n : nat) : (n ≤ bump c n ≤ S n)%nat.
Proof. unfold bump. destruct c; lia. Qed.

Lemma rawScore_append p q : (rawScore p ≤ rawScore (p +:+ q))%nat.
Proof.
  unfold rawScore. rewrite !test_append, length_append.
  repeat apply bump_mono; try done; intros H;
    rewrite ?andb_true_iff, ?orb_true_iff, ?Nat.leb_le in *;
    (tauto || lia).
Qed.

Lemma rawScore_sum p :
  rawScore p =
    (Nat.b2n (8 <=? String.length p) + Nat.b2n (12 <=? String.length p)
     + Nat.b2n (test isLower p && test isUpper p)
     + Nat.b2n (test isDigit p) + Nat.b2n (test isOther p))%nat.
Proof.
  unfold rawScore, bump.
  by destruct (8 <=? _)%nat, (12 <=? _)%nat, (test isLower p && test isUpper p),
    (test isDigit p), (test isOther p).
Qed.

Lemma score_nonempty p :
  p ≠ "" → score (calculatePasswordStrength p) = Nat.min (rawScore p) 4.
Proof.
  intros Hp. unfold calculatePasswordStrength.
  rewrite (proj2 (String.eqb_neq p "") Hp).
  by destruct (strengths !! Nat.min (rawScore p) 4) as [[??]|].
Qed.

Lemma score_empty : score (calculatePasswordStrength "") = 0%nat.
Proof. reflexivity. Qed.

(** X18. The score is between 0 and 4, and the label and colour are those
    of the table at that score: the lookup [strengths[score]] never
    misses.  The label ['None'] is given to the empty password and to no
    other. *)
Theorem strength_is_in_the_table p :
  let r := calculatePasswordStrength p in
  (score r ≤ 4)%nat
  ∧ (p ≠ "" → strengths !! score r = Some (label r, color r))
  ∧ (label r = "None" ↔ p = "").
Proof.
  simpl. unfold calculatePasswordStrength.
  destruct (String.eqb_spec p "") as [->|Hp]; simpl.
  - split; [lia|]. split; [done|]. done.
  - assert (Nat.min (rawScore p) 4 ≤ 4)%nat as Hle by lia.
    destruct (Nat.min (rawScore p) 4) as [|[|[|[|[|n]]]]]; simpl;
      try lia; (split; [lia|]); (split; [done|]); split; done.
Qed.

(** X19. Adding characters never lowers the rating: the score of [p]
    followed by [q] is at least the score of [p]. *)
Theorem appending_never_lowers_the_score p q :
  (score (calculatePasswordStrength p) ≤
     score (calculatePasswordStrength (p +:+ q)))%nat.
Proof.
  destruct (decide (p = "")) as [->|Hp]; [rewrite score_empty; lia|].
  assert (p +:+ q ≠ "") as Hpq by (by destruct p).
  rewrite !score_nonempty by done.
  pose proof (rawScore_append p q). lia.
Qed.

(** X20. Length alone bounds the rating from both sides: a password of
    fewer than 8 characters is never rated Strong (its score is at most
    3), and one of 12 characters or more is rated at least Fair (its score
    is at least 2). *)
Theorem length_bounds_the_score p :
  ((String.length p < 8)%nat → (score (calculatePasswordStrength p) ≤ 3)%nat)
  ∧ ((12 ≤ String.length p)%nat →
     (2 ≤ score (calculatePasswordStrength p))%nat).
Proof.
  split; intros Hlen.
  - destruct (decide (p = "")) as [->|Hp]; [rewrite score_empty; lia|].
    rewrite score_nonempty, rawScore_sum by done.
    rewrite (proj2 (Nat.leb_gt 8 _)), (proj2 (Nat.leb_gt 12 _)) by lia.
    destruct (test isLower p && test isUpper p), (test isDigit p),
      (test isOther p); simpl; lia.
  - assert (p ≠ "") as Hp by (intros ->; simpl in Hlen; lia).
    rewrite score_nonempty, rawScore_sum by done.
    rewrite (proj2 (Nat.leb_le 8 _)), (proj2 (Nat.leb_le 12 _)) by lia.
    destruct (test isLower p && test isUpper p), (test isDigit p),
      (test isOther p); simpl; lia.
Qed.

(** *** Common passwords *)

Lemma length_toLowerCase p : String.length (toLowerCase p) = String.length p.
Proof. induction p as [|c p IH]; simpl; [done|]. by rewrite IH. Qed.

Lemma lowerChar_plain c :
  (isLower (lowerChar c) || isDigit (lowerChar c)) = true → isOther c = false.
Proof.
  destruct c as [[] [] [] [] [] [] [] []]; vm_compute; congruence.
Qed.

Lemma toLowerCase_plain p :
  plain (toLowerCase p) = true → test isOther p = false.
Proof.
  unfold plain, test. induction p as [|c p IH]; simpl; [done|].
  intros [Hc Hp]%andb_true_iff. by rewrite (lowerChar_plain c Hc), IH.
Qed.

(** X21. Among the passwords made of code units below 256 (Latin-1), the
    strings of this model, one that [isCommonPassword] flags is never
    rated Strong: it has fewer than 12 characters and none outside letters
    and digits, so its score is at most 3.  (Beyond Latin-1 this is not
    so: [toLowerCase] takes the Kelvin sign U+212A to [k].) *)
Theorem common_password_is_never_strong p :
  isCommonPassword p = true →
  (String.length p < 12)%nat
  ∧ test isOther p = false
  ∧ (score (calculatePasswordStrength p) ≤ 3)%nat.
Proof.
  unfold isCommonPassword.
  destruct (String.eqb_spec p "") as [->|Hp]; [done|].
  intros Hin%bool_decide_eq_true.
  assert ((String.length (toLowerCase p) < 12)%nat
          ∧ plain (toLowerCase p) = true) as [Hlen Hplain].
  { unfold commonPasswords in Hin.
    repeat (apply elem_of_cons in Hin as [->|Hin]; [by vm_compute; split; [lia|]|]).
    by apply elem_of_nil in Hin. }
  rewrite length_toLowerCase in Hlen.
  pose proof (toLowerCase_plain p Hplain) as Hother.
  split; [done|]. split; [done|].
  rewrite score_nonempty, rawScore_sum by done.
  rewrite (proj2 (Nat.leb_gt 12 _)), Hother by lia.
  destruct (8 <=? _)%nat, (test isLower p && test isUpper p), (test isDigit p);
    simpl; lia.
Qed.

(** *** Instances *)

Lemma strength_is_in_the_table_witness :
  "Tr0ub4dor&3x" ≠ ""
  ∧ strengths !! 4%nat = Some ("Strong", "text-green-500").
Proof.
  assert ("Tr0ub4dor&3x" ≠ "") as H1 by by_decide.
  exact (conj H1
    (proj1 (proj2 (strength_is_in_the_table "Tr0ub4dor&3x")) H1)).
Defined.

Lemma length_bounds_the_score_witness :
  (String.length "hunter2" < 8)%nat
  ∧ (score (calculatePasswordStrength "hunter2") ≤ 3)%nat.
Proof.
  assert (String.length "hunter2" < 8)%nat as H1 by (vm_compute; lia).
  exact (conj H1 (proj1 (length_bounds_the_score "hunter2") H1)).
Defined.

Lemma common_password_is_never_strong_witness :
  isCommonPassword "Password123" = true
  ∧ (String.length "Password123" < 12)%nat
  ∧ test isOther "Password123" = false
  ∧ (score (calculatePasswordStrength "Password123") ≤ 3)%nat.
Proof.
  assert (isCommonPassword "Password123" = true) as H1 by reflexivity.
  exact (conj H1 (common_password_is_never_strong "Password123" H1)).
Defined.

End PasswordStrengthFacts.

(** ** The crypto service *)

Module CryptoFacts.
Import CryptoService.

Local Open Scope N_scope.

Implicit Types (l data : list Ascii.ascii) (c : Ascii.ascii) (n : N)
  (text key : string).

Ltac div_lia := zify; Z.to_euclidean_division_equations; lia.

(** Lists three elements at a time. *)
Lemma list_ind3 {A} (P : list A → Prop) :
  P [] → (∀ x, P [x]) → (∀ x y, P [x; y]) →
  (∀ x y z rest, P rest → P (x :: y :: z :: rest)) →
  ∀ xs, P xs.
Proof.
  intros H0 H1 H2 H3 xs.
  assert (P xs ∧ (∀ x, P (x :: xs)) ∧ (∀ x y, P (x :: y :: xs))) as [? _];
    [|done].
  induction xs as [|x0 xs (IH0 & IH1 & IH2)]; [by auto|].
  split; [apply IH1|]. split; [intros x; apply IH2|].
  intros x y. by apply H3.
Qed.

Lemma code_bound c : code c < 256.
Proof. destruct c as [[] [] [] [] [] [] [] []]; by vm_compute. Qed.

Lemma ascii_of_code c : Ascii.ascii_of_N (code c) = c.
Proof. apply Ascii.ascii_N_embedding. Qed.

(** *** The alphabet *)

Lemma below_64 (P : N → Prop) :
  Forall P (N.of_nat <$> seq 0 64) → ∀ n, n < 64 → P n.
Proof.
  intros Hall n Hn. rewrite Forall_forall in Hall. apply Hall.
  apply list_elem_of_fmap. exists (N.to_nat n).
  split; [by rewrite N2Nat.id|]. apply elem_of_seq. lia.
Qed.

Lemma charSextet_sextetChar n : n < 64 → charSextet (sextetChar n) = Some n.
Proof.
  revert n. apply below_64. by_decide.
Qed.

Lemma sextetChar_visible n :
  n < 64 → isWhitespace (sextetChar n) = false ∧ code (sextetChar n) ≠ 61.
Proof.
  revert n. apply below_64. by_decide.
Qed.

(** *** The groups of six bits *)

Lemma sextets_bound l : Forall (λ n, n < 64) (sextets l).
Proof.
  induction l as [|a|a b|a b c rest IH] using list_ind3; simpl.
  - constructor.
  - pose proof (code_bound a). repeat constructor; div_lia.
  - pose proof (code_bound a). pose proof (code_bound b).
    repeat constructor; div_lia.
  - pose proof (code_bound a). pose proof (code_bound b).
    pose proof (code_bound c).
    repeat (constructor; [div_lia|]). done.
Qed.

Lemma regroup n :
  n < 16777216 →
  ((n / 262144 * 64 + (n / 4096) mod 64) * 64 + (n / 64) mod 64) * 64
    + n mod 64 = n.
Proof. intros. div_lia. Qed.

Lemma three_bytes (a b c : N) :
  a < 256 → b < 256 → c < 256 →
  let n := a * 65536 + b * 256 + c in
  n < 16777216 ∧ n / 65536 = a ∧ (n / 256) mod 256 = b ∧ n mod 256 = c.
Proof. intros Ha Hb Hc n. subst n. div_lia. Qed.

Lemma two_bytes (a b : N) :
  a < 256 → b < 256 →
  let n := a * 65536 + b * 256 in
  let m := ((n / 262144 * 64 + (n / 4096) mod 64) * 64 + (n / 64) mod 64) / 4 in
  m / 256 = a ∧ m mod 256 = b.
Proof. intros Ha Hb n m. subst n m. div_lia. Qed.

Lemma one_byte (a : N) :
  a < 256 →
  let n := a * 65536 in
  (n / 262144 * 64 + (n / 4096) mod 64) / 16 = a.
Proof. intros Ha n. subst n. div_lia. Qed.

Lemma decodeSextets_sextets l : decodeSextets (sextets l) = l.
Proof.
  induction l as [|a|a b|a b c rest IH] using list_ind3; simpl.
  - done.
  - by rewrite (one_byte _ (code_bound a)), ascii_of_code.
  - destruct (two_bytes _ _ (code_bound a) (code_bound b)) as [-> ->].
    by rewrite !ascii_of_code.
  - destruct (three_bytes _ _ _ (code_bound a) (code_bound b) (code_bound c))
      as (Hn & Ha & Hb & Hc).
    rewrite (regroup _ Hn), Ha, Hb, Hc, !ascii_of_code. by rewrite IH.
Qed.

(** *** The encoded text *)

Lemma mod_4_add (k r : nat) : ((4 * k + r) mod 4 = r mod 4)%nat.
Proof.
  replace (4 * k + r)%nat with (r + k * 4)%nat by lia.
  apply Nat.Div0.mod_add.
Qed.

Lemma padding_cons3 a b c rest : padding (a :: b :: c :: rest) = padding rest.
Proof.
  unfold padding. cbn [length].
  replace (S (S (S (length rest)))) with (length rest + 1 * 3)%nat by lia.
  by rewrite Nat.Div0.mod_add.
Qed.

Lemma btoaChars_cons3 a b c rest :
  ∃ c1 c2 c3 c4,
    btoaChars (a :: b :: c :: rest) = c1 :: c2 :: c3 :: c4 :: btoaChars rest.
Proof.
  unfold btoaChars. rewrite padding_cons3. cbn [sextets]. simpl. eauto.
Qed.

Lemma length_btoaChars l : (length (btoaChars l) mod 4 = 0)%nat.
Proof.
  induction l as [|a|a b|a b c rest IH] using list_ind3; try done.
  destruct (btoaChars_cons3 a b c rest) as (c1 & c2 & c3 & c4 & ->).
  cbn [length].
  replace (S (S (S (S (length (btoaChars rest))))))
    with (4 * 1 + length (btoaChars rest))%nat by lia.
  by rewrite mod_4_add.
Qed.

Lemma length_sextets l : ((length (sextets l) mod 4 =? 1) = false)%nat.
Proof.
  induction l as [|a|a b|a b c rest IH] using list_ind3; try done.
  cbn [sextets length].
  replace (S (S (S (S (length (sextets rest))))))
    with (4 * 1 + length (sextets rest))%nat by lia.
  by rewrite mod_4_add.
Qed.

Lemma body_visible l :
  Forall (λ c, isWhitespace c = false ∧ code c ≠ 61) (sextetChar <$> sextets l).
Proof.
  apply Forall_fmap. eapply Forall_impl; [apply sextets_bound|].
  intros n Hn. by apply sextetChar_visible.
Qed.

Lemma padding_cases l :
  padding l = [] ∨ padding l = [padChar] ∨ padding l = [padChar; padChar].
Proof.
  unfold padding. destruct (length l mod 3)%nat as [|[|[|?]]]; auto.
Qed.

Lemma no_whitespace l :
  List.filter (λ c, negb (isWhitespace c)) (btoaChars l) = btoaChars l.
Proof.
  apply forallb_filter_id. unfold btoaChars. rewrite forallb_app.
  apply andb_true_iff. split.
  - apply forallb_forall. intros c Hc%list_elem_of_In.
    pose proof (body_visible l) as Hall. rewrite Forall_forall in Hall.
    destruct (Hall c Hc) as [-> _]. done.
  - by destruct (padding_cases l) as [->|[->| ->]].
Qed.

Lemma strip_reversed (reversed pad data : list Ascii.ascii) :
  Forall (λ c, isWhitespace c = false ∧ code c ≠ 61) reversed →
  pad = [] ∨ pad = [padChar] ∨ pad = [padChar; padChar] →
  data = rev reversed ++ pad →
  match rev pad ++ reversed with
  | p :: q :: r =>
      if (code p =? 61) && (code q =? 61) then rev r
      else if code p =? 61 then rev (q :: r)
      else data
  | [p] => if code p =? 61 then [] else data
  | [] => data
  end = rev reversed.
Proof.
  intros Hall Hpad ->. destruct Hpad as [->|[->| ->]]; simpl.
  - rewrite app_nil_r.
    destruct Hall as [|p r [_ Hp] Hr]; [done|].
    apply N.eqb_neq in Hp. destruct r as [|q r]; simpl; by rewrite Hp.
  - destruct Hall as [|q r [_ Hq] Hr]; [done|].
    apply N.eqb_neq in Hq. simpl. by rewrite Hq.
  - done.
Qed.

Lemma stripPadding_btoaChars l :
  stripPadding (btoaChars l) = sextetChar <$> sextets l.
Proof.
  unfold stripPadding.
  rewrite (proj2 (Nat.eqb_eq _ _) (length_btoaChars l)).
  unfold btoaChars. rewrite rev_app_distr.
  set (body := sextetChar <$> sextets l).
  assert (Forall (λ c, isWhitespace c = false ∧ code c ≠ 61) (rev body))
    as Hall by apply List.Forall_rev, body_visible.
  pose proof (strip_reversed (rev body) (padding l) (body ++ padding l)
                Hall (padding_cases l)) as Hstrip.
  rewrite rev_involutive in Hstrip. by apply Hstrip.
Qed.

Lemma atob_btoa text : atob (btoa text) = Some text.
Proof.
  unfold atob, btoa. rewrite String.list_ascii_of_string_of_list_ascii.
  rewrite no_whitespace, stripPadding_btoaChars.
  rewrite length_fmap, length_sextets.
  rewrite mapM_fmap_Forall_Some.
  - by rewrite decodeSextets_sextets, String.string_of_list_ascii_of_string.
  - eapply Forall_impl; [apply sextets_bound|].
    intros n Hn. by apply charSextet_sextetChar.
Qed.

Lemma prefix_found (rest : string) :
  String.prefix SECRET_PREFIX (SECRET_PREFIX +:+ rest) = true.
Proof. apply String.prefix_correct. simpl. by destruct rest. Qed.

Lemma prefix_cut (rest : string) :
  substringFrom (String.length SECRET_PREFIX) (SECRET_PREFIX +:+ rest) = rest.
Proof. reflexivity. Qed.

Lemma decrypt_prefixed (rest key : string) :
  decrypt (SECRET_PREFIX +:+ rest) key =
    default (SECRET_PREFIX +:+ rest) (atob rest).
Proof.
  unfold decrypt. rewrite prefix_found, prefix_cut. by destruct (atob rest).
Qed.

Lemma decrypt_encrypt_eq text key key' :
  decrypt (encrypt text key) key' = text.
Proof. unfold encrypt. by rewrite decrypt_prefixed, atob_btoa. Qed.

(** X22. Decrypting what [encrypt] returned gives the text back, with any
    key on either side: the key plays no part.  The encrypted form always
    carries the prefix, and two texts never share an encrypted form. *)
Theorem decrypt_encrypt text key key' :
  decrypt (encrypt text key) key' = text
  ∧ String.prefix SECRET_PREFIX (encrypt text key) = true
  ∧ (∀ text', encrypt text key = encrypt text' key' → text = text').
Proof.
  split; [apply decrypt_encrypt_eq|]. split; [apply prefix_found|].
  intros text' Heq.
  rewrite <- (decrypt_encrypt_eq text key key), Heq.
  apply decrypt_encrypt_eq.
Qed.

(** *** Instances *)

Lemma decrypt_encrypt_witness :
  encrypt "mySecret" "k1" = encrypt "mySecret" "k2"
  ∧ decrypt (encrypt "mySecret" "k1") "k2" = "mySecret"
  ∧ "mySecret" = "mySecret".
Proof.
  assert (encrypt "mySecret" "k1" = encrypt "mySecret" "k2") as H1
    by reflexivity.
  exact (conj H1 (conj
    (proj1 (decrypt_encrypt "mySecret" "k1" "k2"))
    (proj2 (proj2 (decrypt_encrypt "mySecret" "k1" "k2")) "mySecret" H1))).
Defined.

End CryptoFacts.

(** ** The vault context *)

Module VaultContextFacts.
Import VaultContext.

Implicit Types (st : ClientState) (w : SyncService.World)
  (e : VaultEntry) (i : Z) (o prev : list OutboxEvent)
  (event : OutboxEvent).

(** *** The outbox *)

Lemma enqueue_cases event prev :
  (prev = [] ∧ enqueue event prev = [event])
  ∨ (∃ init lastEvent,
       prev = init ++ [lastEvent]
       ∧ SyncService.baseVersion (delta lastEvent) =
           SyncService.baseVersion (delta event)
       ∧ enqueue event prev = init ++ [event])
  ∨ (∃ init lastEvent,
       prev = init ++ [lastEvent]
       ∧ SyncService.baseVersion (delta lastEvent) ≠
           SyncService.baseVersion (delta event)
       ∧ enqueue event prev = prev ++ [event]).
Proof.
  unfold enqueue. destruct (last prev) as [lastEvent|] eqn:Hlast.
  - apply last_Some in Hlast as [init ->]. right.
    case_bool_decide as Hbase; [left|right]; exists init, lastEvent.
    + split; [done|]. split; [done|].
      rewrite length_app. simpl.
      replace (length init + 1 - 1)%nat with (length init) by lia.
      by rewrite take_app_length.
    + done.
  - apply last_None in Hlast as ->. by left.
Qed.

Lemma adjacentDistinct_snoc init a event :
  adjacentDistinct (init ++ [a]) →
  SyncService.baseVersion (delta a) ≠ SyncService.baseVersion (delta event) →
  adjacentDistinct ((init ++ [a]) ++ [event]).
Proof.
  intros Hprev Hne k x y Hx Hy.
  destruct (decide (S k < length (init ++ [a]))%nat) as [Hlt|Hge].
  - rewrite lookup_app_l in Hx by lia. rewrite lookup_app_l in Hy by lia.
    by apply (Hprev k).
  - assert (S k = length (init ++ [a])) as Hk.
    { apply lookup_lt_Some in Hy. rewrite length_app in Hy. simpl in Hy. lia. }
    rewrite Hk, list_lookup_middle in Hy by done. injection Hy as <-.
    rewrite length_app in Hk. simpl in Hk.
    rewrite lookup_app_l in Hx by (rewrite length_app; simpl; lia).
    replace k with (length init) in Hx by lia.
    rewrite list_lookup_middle in Hx by done. by injection Hx as <-.
Qed.

Lemma adjacentDistinct_replace init a event :
  adjacentDistinct (init ++ [a]) →
  SyncService.baseVersion (delta a) = SyncService.baseVersion (delta event) →
  adjacentDistinct (init ++ [event]).
Proof.
  intros Hprev Heq k x y Hx Hy.
  assert (S k < length (init ++ [event]))%nat as Hlt
    by by apply lookup_lt_Some in Hy.
  rewrite length_app in Hlt. simpl in Hlt.
  rewrite lookup_app_l in Hx by lia.
  destruct (decide (S k < length init)%nat) as [Hin|Hend].
  - rewrite lookup_app_l in Hy by lia.
    apply (Hprev k); by rewrite lookup_app_l by lia.
  - assert (S k = length init) as Hk by lia.
    rewrite Hk, list_lookup_middle in Hy by done. injection Hy as <-.
    rewrite <- Heq. apply (Hprev k).
    + by rewrite lookup_app_l by lia.
    + rewrite Hk. by apply list_lookup_middle.
Qed.

(** X23. Queueing coalesces: the new event always ends up last; when the
    last queued event is built on the same base version it is replaced,
    otherwise the queue grows by one; the events before the last are kept;
    and a queue in which no two neighbours share a base version stays so.
    In particular a queue of one event with the same base version is
    still of one event. *)
Theorem enqueue_coalesces event prev :
  last (enqueue event prev) = Some event
  ∧ take (length prev - 1) prev `prefix_of` enqueue event prev
  ∧ length (enqueue event prev) =
      match last prev with
      | Some lastEvent =>
          if decide (SyncService.baseVersion (delta lastEvent) =
                     SyncService.baseVersion (delta event))
          then length prev else S (length prev)
      | None => 1%nat
      end
  ∧ (adjacentDistinct prev → adjacentDistinct (enqueue event prev)).
Proof.
  destruct (enqueue_cases event prev)
    as [[-> ->]|[(init & a & -> & Hbase & ->)|(init & a & -> & Hbase & ->)]].
  - split; [done|]. split; [by exists [event]|]. split; [done|].
    intros _ k x y Hx Hy. by destruct k.
  - rewrite !last_snoc, decide_True by done.
    rewrite !length_app. simpl.
    replace (length init + 1 - 1)%nat with (length init) by lia.
    rewrite take_app_length.
    split; [done|]. split; [by exists [event]|]. split; [done|].
    intros Hprev. by apply adjacentDistinct_replace with a.
  - rewrite !last_snoc, decide_False by done.
    rewrite !length_app. simpl.
    replace (length init + 1 - 1)%nat with (length init) by lia.
    rewrite take_app_length.
    split; [done|]. split; [rewrite <- app_assoc; by eexists|].
    split; [lia|].
    intros Hprev. by apply adjacentDistinct_snoc.
Qed.

(** *** Local mutations *)

Lemma mapEff_cons {A B} (f : A → SyncService.Eff B) x t w :
  mapEff f (x :: t) w =
    ((f x w).1 :: (mapEff f t (f x w).2).1, (mapEff f t (f x w).2).2).
Proof. simpl. by rewrite !SyncFacts.run_bind. Qed.

(** Every element of the result is the image of the element at its place,
    in some world. *)
Lemma mapEff_Forall2 {A B} (f : A → SyncService.Eff B) (xs : list A) w :
  Forall2 (λ x y, ∃ w', y = (f x w').1) xs (mapEff f xs w).1.
Proof.
  revert w. induction xs as [|x xs IH]; intros w; [constructor|].
  rewrite mapEff_cons. simpl. constructor; [by eexists|apply IH].
Qed.

Lemma Forall2_elem_of_r {A B} (R : A → B → Prop) (xs : list A) (ys : list B) y :
  Forall2 R xs ys → y ∈ ys → ∃ x, x ∈ xs ∧ R x y.
Proof.
  induction 1 as [|x y' xs ys HR _ IH]; intros Hy.
  - by apply elem_of_nil in Hy.
  - apply elem_of_cons in Hy as [->|Hy].
    + exists x. split; [by left|done].
    + destruct (IH Hy) as (x0 & Hx0 & HR0). exists x0. split; [by right|done].
Qed.

Lemma nextVersion_exact st :
  - 2 ^ 53 ≤ Z.max (vaultVersion st) (serverVersion st) < 2 ^ 53 →
  nextVersion st = Z.max (vaultVersion st) (serverVersion st) + 1.
Proof. apply DoubleFacts.increment_exact. Qed.

Lemma nextVersion_above st :
  - 2 ^ 53 ≤ Z.max (vaultVersion st) (serverVersion st) < 2 ^ 53 →
  serverVersion st < nextVersion st.
Proof. intros Hrange. rewrite nextVersion_exact by done. lia. Qed.

Lemma tombstone_result st e w :
  ∃ deletedStamp updatedStamp,
    (tombstone st e w).1 =
      tombstoneOf (nextVersion st) deletedStamp updatedStamp e.
Proof. unfold tombstone. rewrite !SyncFacts.run_bind. simpl. eauto. Qed.

Lemma patched_result st entryData finalEntryData e w :
  ∃ updatedStamp history,
    (patched st entryData finalEntryData e w).1 =
      patchedEntry (nextVersion st) updatedStamp history finalEntryData e
    ∧ if passwordChanged entryData (password e)
      then ∃ changedStamp,
             history = mkPasswordChange (password e) changedStamp
                         :: take 4 (default [] (passwordHistory e))
      else history = default [] (passwordHistory e).
Proof.
  unfold patched. rewrite SyncFacts.run_bind.
  destruct (passwordChanged entryData (password e)).
  - rewrite !SyncFacts.run_bind. simpl. eauto.
  - rewrite !SyncFacts.run_bind. simpl. eauto.
Qed.

Lemma deleteEntry_entries i st w :
  Forall2 (λ e e',
             if decide (id e = i)
             then ∃ deletedStamp updatedStamp,
                    e' = tombstoneOf (nextVersion st) deletedStamp updatedStamp e
             else e' = e)
    (entries st) (entries (deleteEntry i st w).1).
Proof.
  unfold deleteEntry. rewrite SyncFacts.run_bind. simpl.
  eapply Forall2_impl; [apply mapEff_Forall2|].
  intros e e' [w' ->]. simpl. case_bool_decide as Hid.
  - rewrite decide_True by done. apply tombstone_result.
  - by rewrite decide_False.
Qed.

Lemma updateEntry_entries i entryData st w :
  Forall2 (λ e e',
             if decide (id e = i)
             then ∃ updatedStamp history,
                    e' = patchedEntry (nextVersion st) updatedStamp history
                           (finalPatch entryData
                              (snd <$> findById i (entries st))) e
                    ∧ if passwordChanged entryData (password e)
                      then ∃ changedStamp,
                             history =
                               mkPasswordChange (password e) changedStamp
                                 :: take 4 (default [] (passwordHistory e))
                      else history = default [] (passwordHistory e)
             else e' = e)
    (entries st) (entries (updateEntry i entryData st w).1).
Proof.
  unfold updateEntry. rewrite SyncFacts.run_bind. simpl.
  eapply Forall2_impl; [apply mapEff_Forall2|].
  intros e e' [w' ->]. simpl. case_bool_decide as Hid.
  - rewrite decide_True by done. apply patched_result.
  - by rewrite decide_False.
Qed.

Lemma mutate_versions m st w :
  serverVersion (mutate m st w).1 = serverVersion st
  ∧ vaultVersion (mutate m st w).1 = nextVersion st
  ∧ outbox (mutate m st w).1 = outbox st
  ∧ isSyncing (mutate m st w).1 = isSyncing st
  ∧ syncError (mutate m st w).1 = syncError st
  ∧ syncConflict (mutate m st w).1 = syncConflict st.
Proof.
  destruct m as [now entryData|i entryData|i];
    unfold mutate, addEntry, updateEntry, deleteEntry;
    by rewrite SyncFacts.run_bind.
Qed.

Lemma mutate_entries m st w e :
  e ∈ entries (mutate m st w).1 →
  e ∈ entries st ∨ version e = nextVersion st.
Proof.
  destruct m as [now entryData|i entryData|i]; unfold mutate.
  - unfold addEntry. rewrite SyncFacts.run_bind. simpl.
    intros [He|He]%elem_of_app; [by left|].
    apply list_elem_of_singleton in He as ->. by right.
  - intros He.
    destruct (Forall2_elem_of_r _ _ _ _ (updateEntry_entries i entryData st w) He)
      as (e0 & He0 & Hrel).
    case_decide; [|left; by subst].
    destruct Hrel as (? & ? & -> & _). by right.
  - intros He.
    destruct (Forall2_elem_of_r _ _ _ _ (deleteEntry_entries i st w) He)
      as (e0 & He0 & Hrel).
    case_decide; [|left; by subst].
    destruct Hrel as (? & ? & ->). by right.
Qed.

(** X24. No local mutation is left out of the next push.  Let the larger
    of the two versions be in the range from [-2^53] to below [2^53], and
    let the password given, if one is, be a string of code units below
    256 (on any other, [encrypt] throws and nothing is written).  After
    [addEntry], [updateEntry] or [deleteEntry] the local version is one
    above the larger of the two versions, hence above the server version;
    every entry of the list is either an entry that was there, unchanged,
    or part of the delta computed against the server version; and the
    status shown is neither ['synced'] nor ['offline']. *)
Theorem every_mutation_enters_the_next_delta m st w w2 :
  - 2 ^ 53 ≤ Z.max (vaultVersion st) (serverVersion st) < 2 ^ 53 →
  let st' := (mutate m st w).1 in
  vaultVersion st' = Z.max (vaultVersion st) (serverVersion st) + 1
  ∧ serverVersion st' = serverVersion st
  ∧ (∀ e, e ∈ entries st' →
       e ∈ entries st
       ∨ e ∈ SyncService.updated
               (SyncService.calculateDelta (entries st') (serverVersion st')
                  w2).1)
  ∧ syncStatus st' ≠ Synced
  ∧ syncStatus st' ≠ Offline.
Proof.
  intros Hrange st'. subst st'.
  destruct (mutate_versions m st w) as (Hsv & Hvv & _).
  split; [by rewrite Hvv, nextVersion_exact|]. split; [done|]. split.
  - intros e He. destruct (mutate_entries m st w e He) as [Hold|Hnew];
      [by left|right].
    simpl. apply list_elem_of_filter. split; [|done].
    rewrite Hsv, Hnew. by apply nextVersion_above.
  - pose proof (nextVersion_above st Hrange) as Habove.
    unfold syncStatus. rewrite Hsv, Hvv.
    destruct (syncConflict (mutate m st w).1), (syncError (mutate m st w).1),
      (isSyncing (mutate m st w).1); try (split; discriminate).
    case_bool_decide; [split; discriminate|].
    rewrite bool_decide_eq_true_2 by done. split; discriminate.
Qed.





Lemma passwordChanged_true entryData pw stored :
  p_password entryData = Some pw → pw ≠ "" → pw ≠ stored →
  passwordChanged entryData stored = true.
Proof.
  intros Hpw Hne Hdiff. unfold passwordChanged. rewrite Hpw. simpl.
  rewrite (proj2 (String.eqb_neq pw "") Hne). simpl.
  rewrite bool_decide_eq_false_2; [done|]. congruence.
Qed.

(** X26. Changing a password archives the stored one.  When [updateEntry]
    is given a non-empty password of code units below 256 (on any other,
    [encrypt] throws and nothing is written) that differs from the stored
    password of the entry found for the id, the entry written in its
    place holds the encrypted new password, which [decrypt] turns back
    into the one given;
    its [passwordHistory] starts with the stored password, stamped,
    followed by the first four earlier records, at most five in all; it
    carries the next version and is not deleted.  A patch without a
    password leaves password and history records as they were. *)
Theorem updateEntry_archives_the_old_password i entryData st w n e key :
  findById i (entries st) = Some (n, e) →
  ∃ e',
    entries (updateEntry i entryData st w).1 !! n = Some e'
    ∧ version e' = nextVersion st
    ∧ isDeleted e' = Some false
    ∧ (∀ pw, p_password entryData = Some pw → pw ≠ "" → pw ≠ password e →
         password e' = CryptoService.encrypt pw ""
         ∧ CryptoService.decrypt (password e') key = pw
         ∧ (∃ changedStamp,
              passwordHistory e' =
                Some (mkPasswordChange (password e) changedStamp
                        :: take 4 (default [] (passwordHistory e))))
         ∧ (length (default [] (passwordHistory e')) ≤ 5)%nat)
    ∧ (p_password entryData = None →
         password e' = password e
         ∧ passwordHistory e' = Some (default [] (passwordHistory e))).
Proof.
  intros Hf. pose proof (findById_Some _ _ _ _ Hf) as (Hn & Hid & _).
  destruct (Forall2_lookup_l _ _ _ _ _
              (updateEntry_entries i entryData st w) Hn) as (e' & Hn' & He').
  simpl in He'. rewrite decide_True in He' by done.
  destruct He' as (updatedStamp & history & -> & Hhistory).
  rewrite Hf in Hn'. simpl in Hn'.
  eexists. split; [exact Hn'|]. split; [done|]. split; [done|]. split.
  - intros pw Hpw Hne Hdiff.
    pose proof (passwordChanged_true _ _ _ Hpw Hne Hdiff) as Hchanged.
    rewrite Hchanged in Hhistory. destruct Hhistory as [changedStamp ->].
    unfold finalPatch. rewrite Hpw, Hchanged. simpl.
    split; [done|]. split; [apply CryptoFacts.decrypt_encrypt_eq|].
    split; [by eexists|]. simpl. rewrite length_take. lia.
  - intros Hnone.
    assert (passwordChanged entryData (password e) = false) as Hsame
      by (unfold passwordChanged; by rewrite Hnone).
    rewrite Hsame in Hhistory. subst history.
    unfold finalPatch. rewrite Hnone. simpl. by rewrite Hnone.
Qed.

(** *** Pushing *)

Lemma calculateDelta_run (localEntries : list VaultEntry) base w :
  SyncService.calculateDelta localEntries base w =
    (SyncService.mkSyncDelta (SyncService.uuids w (SyncService.uuidDraws w)) []
       (filter (λ e, base < version e) localEntries) [] base,
     SyncService.mkWorld (SyncService.clock w) (SyncService.clockReads w)
       (SyncService.uuids w) (S (SyncService.uuidDraws w))).
Proof. reflexivity. Qed.

(** X27. [syncVault] queues what is newer than the server version, and
    nothing else.  Without a user or while a conflict is flagged it leaves
    the state alone.  Otherwise, when no entry is newer than the server
    version the outbox is left as it is; when some are, the last event of
    the outbox carries a delta based on the server version whose [updated]
    list is exactly those entries, with [added] and [deleted] empty, under
    the event id drawn for it.  The entries and the two versions are never
    changed. *)
Theorem syncVault_queues_what_is_newer now st w :
  let st' := (syncVault now st w).1 in
  let newer := filter (λ e, serverVersion st < version e) (entries st) in
  entries st' = entries st
  ∧ vaultVersion st' = vaultVersion st
  ∧ serverVersion st' = serverVersion st
  ∧ (truthy (userId st) = false ∨ syncConflict st = true → st' = st)
  ∧ (truthy (userId st) = true → syncConflict st = false →
     (newer = [] → outbox st' = outbox st)
     ∧ (newer ≠ [] →
        last (outbox st') =
          Some (mkOutboxEvent
                  (SyncService.uuids w (SyncService.uuidDraws w)) now
                  (SyncService.mkSyncDelta
                     (SyncService.uuids w (SyncService.uuidDraws w))
                     [] newer [] (serverVersion st))))).
Proof.
  intros st' newer. subst st'. unfold syncVault.
  destruct (truthy (userId st)) eqn:Huser; simpl;
    [|repeat split; try done; by intros _ [=]].
  destruct (syncConflict st) eqn:Hconflict; simpl;
    [repeat split; try done; by intros _ [=]|].
  rewrite SyncFacts.run_bind, calculateDelta_run. simpl. fold newer.
  destruct newer as [|e0 newer'] eqn:Hnewer; simpl.
  - repeat split; try done. by intros [[=]|[=]].
  - repeat split; try done.
    + by intros [[=]|[=]].
    + intros _. by destruct (enqueue_cases
        (mkOutboxEvent (SyncService.uuids w (SyncService.uuidDraws w)) now
           (SyncService.mkSyncDelta
              (SyncService.uuids w (SyncService.uuidDraws w)) []
              (e0 :: newer') [] (serverVersion st))) (outbox st))
        as [[_ ->]|[(? & ? & _ & _ & ->)|(? & ? & _ & _ & ->)]];
        rewrite ?last_snoc.
Qed.

Lemma send_posts_the_head st event rest :
  isOnline st = true → isSyncing st = false → syncConflict st = false →
  truthy (userId st) = true → truthy (token st) = true →
  outbox st = event :: rest →
  send st = (setIsSyncing true st, Some event).
Proof.
  intros Hon Hsync Hconf Huser Htoken Hout. unfold send.
  by rewrite Hon, Hsync, Hconf, Huser, Htoken, Hout.
Qed.

Lemma send_blocked st : syncConflict st = true → send st = (st, None).
Proof.
  intros Hconf. unfold send. destruct (negb _); [done|].
  rewrite Hconf. by rewrite !orb_true_r.
Qed.

Lemma syncVault_blocked now st w :
  syncConflict st = true → (syncVault now st w).1 = st.
Proof. intros Hconf. unfold syncVault. by rewrite Hconf, orb_true_r. Qed.

(** X28. One round of the outbox against the server.  Let the client be
    online, idle, free of conflict and logged in, with [event] at the head
    of its outbox, and let the server hold the user's vault at a version
    [v] with [0 ≤ v < 2^53].  The outbox effect posts [event] and marks
    the client as syncing.  Take the state as it stands when the answer
    arrives, whatever has happened to it meanwhile.  If [event] is based
    on [v], the server accepts it and moves to [v + 1]; a client whose
    effect is still mounted then takes over the server's state: its
    entries are the stored entries, both its versions are [v + 1], the
    events with that event id are gone from the outbox, no error is
    flagged and the syncing mark is cleared; a client whose effect has
    been cleaned up meanwhile leaves every cell as it is, the syncing mark
    included, though the server has moved on.  If [event] is not based on
    [v], the server is left unchanged and the client, mounted or not,
    flags a conflict, keeps its entries, its versions and its outbox, and
    posts nothing from then on. *)
Theorem one_round_of_the_outbox
    now uid mounted st arrived db vault event rest :
  isOnline st = true → isSyncing st = false → syncConflict st = false →
  truthy (userId st) = true → truthy (token st) = true →
  outbox st = event :: rest →
  db !! uid = Some vault →
  0 ≤ Server.vaultVersion vault < 2 ^ 53 →
  let v := Server.vaultVersion vault in
  let served := Server.sync now uid (Routes.toBody (delta event)) db in
  let st' := settle mounted event (Replied served.2) arrived in
  send st = (setIsSyncing true st, Some event)
  ∧ if decide (SyncService.baseVersion (delta event) = v) then
      let stored :=
        Server.reconcile (Routes.toBody (delta event))
          (Server.encryptedEntries vault) in
      served.1 !! uid =
        Some (Server.mkVault (Server.userId vault) (v + 1) stored now)
      ∧ (mounted = true →
         entries st' = stored
         ∧ vaultVersion st' = v + 1
         ∧ serverVersion st' = v + 1
         ∧ outbox st' =
             filter (λ queued : OutboxEvent, eventId queued ≠ eventId event)
               (outbox arrived)
         ∧ lastSynced st' = Some now
         ∧ syncError st' = false
         ∧ isSyncing st' = false
         ∧ syncConflict st' = syncConflict arrived)
      ∧ (mounted = false → st' = arrived)
    else
      served.1 = db
      ∧ syncConflict st' = true ∧ syncError st' = true
      ∧ isSyncing st' = false
      ∧ entries st' = entries arrived ∧ outbox st' = outbox arrived
      ∧ vaultVersion st' = vaultVersion arrived
      ∧ serverVersion st' = serverVersion arrived
      ∧ send st' = (st', None).
Proof.
  intros Hon Hsync Hconf Huser Htoken Hout Hdb Hv v served st'.
  subst served st'.
  split; [by apply (send_posts_the_head st event rest)|].
  case_decide as Hbase.
  - rewrite (ServerFacts.sync_accepted now uid (Routes.toBody (delta event))
               db vault Hdb Hbase). simpl.
    rewrite DoubleFacts.increment_exact by (subst v; lia).
    rewrite lookup_insert_eq. split; [reflexivity|]. split.
    + intros ->. simpl. unfold versionOr.
      by rewrite bool_decide_eq_false_2 by (subst v; lia).
    + by intros ->.
  - rewrite (ServerFacts.sync_rejected now uid (Routes.toBody (delta event))
               db vault Hdb Hbase). simpl.
    repeat split; try done. by apply send_blocked.
Qed.

Lemma afterGet_pruned event rest data st :
  SyncService.baseVersion (delta event) ≠ Server.vaultVersion data →
  afterGet (event :: rest) data st =
    setSyncConflict false
      (setSyncError false
         (setServerVersion (Server.vaultVersion data)
            (setVaultVersion (Server.vaultVersion data)
               (setEntries (Server.encryptedEntries data)
                  (setOutbox [] st))))).
Proof.
  intros Hbase. unfold afterGet.
  rewrite (bool_decide_eq_false_2 _ Hbase). reflexivity.
Qed.

(** X29. A stale saved outbox is posted before it is pruned, and the order
    of the two answers decides whether the conflict flag stays.  Let the
    client be logged in, online, idle and free of conflict, let the
    outbox it had saved start with [event], and let the server hold the
    user's vault at a version that [event] is not based on.
    [initializeVault] puts the saved outbox into the state and asks for
    the vault; the outbox effect, run on that state, posts [event]; the
    server answers the one with the vault and the other with 409, and
    stores nothing.  When the vault is handled first and the 409 after
    it, the client ends with the conflict and error flags set, although
    its outbox has been emptied and its entries and both versions are the
    server's; from then on the outbox effect posts nothing and [syncVault]
    queues nothing.  When the 409 is handled first and the vault after
    it, the client ends in the same state but with no flag set. *)
Theorem a_stale_outbox_is_posted_before_it_is_pruned
    now now' uid mounted saved event rest st db vault :
  truthy (userId st) = true → truthy (token st) = true →
  isOnline st = true → isSyncing st = false → syncConflict st = false →
  saved = event :: rest →
  db !! uid = Some vault →
  SyncService.baseVersion (delta event) ≠ Server.vaultVersion vault →
  let v := Server.vaultVersion vault in
  let loaded := (loadOutbox (Some saved) st).1 in
  let posted := (send loaded).1 in
  let got := Routes.getVault now uid db in
  let answer := Server.sync now' uid (Routes.toBody (delta event)) db in
  let vaultFirst :=
    settle mounted event (Replied answer.2) (afterGet saved got.2 posted) in
  let conflictFirst :=
    afterGet saved got.2 (settle mounted event (Replied answer.2) posted) in
  loadOutbox (Some saved) st = (setOutbox saved st, Some saved)
  ∧ send loaded = (setIsSyncing true loaded, Some event)
  ∧ got = (db, vault)
  ∧ answer = (db, Server.Conflict409 v v (Server.encryptedEntries vault))
  ∧ (syncConflict vaultFirst = true ∧ syncError vaultFirst = true
     ∧ isSyncing vaultFirst = false
     ∧ outbox vaultFirst = []
     ∧ entries vaultFirst = Server.encryptedEntries vault
     ∧ vaultVersion vaultFirst = v ∧ serverVersion vaultFirst = v
     ∧ send vaultFirst = (vaultFirst, None)
     ∧ ∀ t w, (syncVault t vaultFirst w).1 = vaultFirst)
  ∧ (syncConflict conflictFirst = false ∧ syncError conflictFirst = false
     ∧ isSyncing conflictFirst = false
     ∧ outbox conflictFirst = []
     ∧ entries conflictFirst = Server.encryptedEntries vault
     ∧ vaultVersion conflictFirst = v ∧ serverVersion conflictFirst = v).
Proof.
  intros Huser Htoken Hon Hsync Hconf -> Hdb Hbase.
  intros v loaded posted got answer vaultFirst conflictFirst.
  assert (loadOutbox (Some (event :: rest)) st =
            (setOutbox (event :: rest) st, Some (event :: rest))) as Hload.
  { unfold loadOutbox. by rewrite Huser, Hon, Htoken. }
  assert (send loaded = (setIsSyncing true loaded, Some event)) as Hsend.
  { subst loaded. rewrite Hload. simpl.
    by apply (send_posts_the_head _ event rest). }
  assert (got = (db, vault)) as Hgot.
  { subst got. unfold Routes.getVault. by rewrite Hdb. }
  assert (answer =
            (db, Server.Conflict409 v v (Server.encryptedEntries vault)))
    as Hanswer.
  { subst answer. apply ServerFacts.sync_rejected; [done|exact Hbase]. }
  split; [done|]. split; [done|]. split; [done|]. split; [done|].
  subst vaultFirst conflictFirst posted.
  rewrite Hsend, Hgot, Hanswer.
  rewrite !afterGet_pruned by exact Hbase. simpl.
  split; [|by repeat split].
  repeat split; try done.
  - by apply send_blocked.
  - intros t w. by apply syncVault_blocked.
Qed.

(** *** Instances on the sample data *)

Lemma enqueue_coalesces_witness :
  adjacentDistinct [ClientSamples.pendingEvent]
  ∧ adjacentDistinct
      (enqueue ClientSamples.staleEvent [ClientSamples.pendingEvent])
  ∧ enqueue ClientSamples.staleEvent [ClientSamples.pendingEvent] =
      [ClientSamples.pendingEvent; ClientSamples.staleEvent].
Proof.
  assert (adjacentDistinct [ClientSamples.pendingEvent]) as H1.
  { intros k a b _ Hb. destruct k; discriminate Hb. }
  split; [exact H1|]. split; [|reflexivity].
  exact (proj2 (proj2 (proj2
    (enqueue_coalesces ClientSamples.staleEvent
       [ClientSamples.pendingEvent]))) H1).
Defined.


Lemma updateEntry_archives_the_old_password_witness :
  findById 123 (entries ClientSamples.editing) = Some (0%nat, Samples.alive)
  ∧ ∃ e',
      entries (updateEntry 123 ClientSamples.newPassword
                 ClientSamples.editing Samples.world).1 !! 0%nat = Some e'
      ∧ version e' = 3
      ∧ password e' = CryptoService.encrypt "n3w-secret" ""
      ∧ CryptoService.decrypt (password e') "" = "n3w-secret"
      ∧ (length (default [] (passwordHistory e')) ≤ 5)%nat.
Proof.
  assert (findById 123 (entries ClientSamples.editing) =
            Some (0%nat, Samples.alive)) as H1 by reflexivity.
  split; [exact H1|].
  destruct (updateEntry_archives_the_old_password 123
              ClientSamples.newPassword ClientSamples.editing Samples.world
              0 Samples.alive "" H1)
    as (e' & Hn & Hversion & _ & Hchanged & _).
  assert ("n3w-secret" ≠ "") as H2 by by_decide.
  assert ("n3w-secret" ≠ password Samples.alive) as H3 by by_decide.
  destruct (Hchanged "n3w-secret" eq_refl H2 H3)
    as (Hpassword & Hround & _ & Hlength).
  exists e'. split; [exact Hn|]. split; [exact Hversion|].
  split; [exact Hpassword|]. split; [exact Hround|exact Hlength].
Defined.

Lemma syncVault_queues_what_is_newer_witness :
  truthy (userId ClientSamples.editing) = true
  ∧ syncConflict ClientSamples.editing = false
  ∧ filter (λ e, serverVersion ClientSamples.editing < version e)
      (entries ClientSamples.editing) = []
  ∧ outbox (syncVault 9 ClientSamples.editing Samples.world).1 =
      [ClientSamples.pendingEvent].
Proof.
  assert (truthy (userId ClientSamples.editing) = true) as H1 by reflexivity.
  assert (syncConflict ClientSamples.editing = false) as H2 by reflexivity.
  assert (filter (λ e, serverVersion ClientSamples.editing < version e)
            (entries ClientSamples.editing) = []) as H3 by reflexivity.
  split; [exact H1|]. split; [exact H2|]. split; [exact H3|].
  exact (proj1 (proj2 (proj2 (proj2 (proj2
    (syncVault_queues_what_is_newer 9 ClientSamples.editing Samples.world))))
      H1 H2) H3).
Defined.

Lemma every_mutation_enters_the_next_delta_witness :
  - 2 ^ 53 ≤ Z.max (vaultVersion ClientSamples.editing)
               (serverVersion ClientSamples.editing) < 2 ^ 53
  ∧ vaultVersion (mutate (Delete 123) ClientSamples.editing Samples.world).1
      = 3
  ∧ syncStatus (mutate (Delete 123) ClientSamples.editing Samples.world).1
      ≠ Synced.
Proof.
  assert (- 2 ^ 53 ≤ Z.max (vaultVersion ClientSamples.editing)
                        (serverVersion ClientSamples.editing) < 2 ^ 53)
    as H1 by by_decide.
  destruct (every_mutation_enters_the_next_delta (Delete 123)
              ClientSamples.editing Samples.world Samples.world H1)
    as (Hversion & _ & _ & Hstatus & _).
  split; [exact H1|]. split; [exact Hversion|exact Hstatus].
Defined.

Lemma one_round_of_the_outbox_witness :
  outbox ClientSamples.client = ClientSamples.pendingEvent :: []
  ∧ Samples.db !! "user-1" = Some Samples.vault1
  ∧ 0 ≤ Server.vaultVersion Samples.vault1 < 2 ^ 53
  ∧ send ClientSamples.client =
      (setIsSyncing true ClientSamples.client,
       Some ClientSamples.pendingEvent)
  ∧ (Server.sync 7 "user-1"
       (Routes.toBody (delta ClientSamples.pendingEvent)) Samples.db).1
      !! "user-1" = Some (Server.mkVault "user-1" 2 [Samples.dead] 7)
  ∧ entries ClientSamples.settled = [Samples.dead]
  ∧ vaultVersion ClientSamples.settled = 2
  ∧ serverVersion ClientSamples.settled = 2
  ∧ outbox ClientSamples.settled = []
  ∧ isSyncing ClientSamples.settled = false.
Proof.
  assert (outbox ClientSamples.client = ClientSamples.pendingEvent :: [])
    as H1 by reflexivity.
  assert (Samples.db !! "user-1" = Some Samples.vault1) as H2 by reflexivity.
  assert (0 ≤ Server.vaultVersion Samples.vault1 < 2 ^ 53) as H3
    by by_decide.
  destruct (one_round_of_the_outbox 7 "user-1" true ClientSamples.client
              (setIsSyncing true ClientSamples.client) Samples.db
              Samples.vault1 ClientSamples.pendingEvent [] eq_refl eq_refl
              eq_refl eq_refl eq_refl H1 H2 H3)
    as (Hsend & Hstored & Hmounted & _).
  destruct (Hmounted eq_refl)
    as (Hentries & Hvv & Hsv & Hout & _ & _ & Hsyncing & _).
  split; [exact H1|]. split; [exact H2|]. split; [exact H3|].
  split; [exact Hsend|]. split; [exact Hstored|].
  split; [exact Hentries|]. split; [exact Hvv|]. split; [exact Hsv|].
  split; [exact Hout|exact Hsyncing].
Defined.

Lemma a_stale_outbox_is_posted_before_it_is_pruned_witness :
  SyncService.baseVersion (delta ClientSamples.staleEvent) ≠
    Server.vaultVersion Samples.vault1
  ∧ syncConflict
      (settle false ClientSamples.staleEvent
         (Replied
            (Server.sync 8 "user-1"
               (Routes.toBody (delta ClientSamples.staleEvent))
               Samples.db).2)
         (afterGet [ClientSamples.staleEvent]
            (Routes.getVault 7 "user-1" Samples.db).2
            (send
               (loadOutbox (Some [ClientSamples.staleEvent])
                  ClientSamples.fresh).1).1)) = true.
Proof.
  assert (SyncService.baseVersion (delta ClientSamples.staleEvent) ≠
            Server.vaultVersion Samples.vault1) as H1 by by_decide.
  assert (Samples.db !! "user-1" = Some Samples.vault1) as H2 by reflexivity.
  split; [exact H1|].
  exact (proj1 (proj1 (proj2 (proj2 (proj2 (proj2
    (a_stale_outbox_is_posted_before_it_is_pruned 7 8 "user-1" false
       [ClientSamples.staleEvent] ClientSamples.staleEvent []
       ClientSamples.fresh Samples.db Samples.vault1 eq_refl eq_refl
       eq_refl eq_refl eq_refl eq_refl H2 H1))))))).
Defined.

End VaultContextFacts.

(** ** The clipboard countdown *)

Module ClipboardFacts.
Import ClipboardContext ClipboardSpec.

Lemma wellFormed_initial : wellFormed initial.
Proof.
  unfold wellFormed, initial. simpl.
  split; [lia|]. split; [done|]. split; [done|lia].
Qed.

Lemma tick_counts st :
  1 < timeLeft st ≤ 30 →
  tick st =
    mkClipboardState (hasCopied st) (timeLeft st - 1) (copiedId st).
Proof.
  intros Hrange. unfold tick. rewrite bool_decide_eq_true_2 by lia.
  rewrite bool_decide_eq_false_2 by lia.
  rewrite DoubleFacts.add_exact by lia. do 2 f_equal.
Qed.

Lemma wellFormed_step st ev : wellFormed st → wellFormed (step st ev).
Proof.
  intros Hwf. pose proof Hwf as (Hrange & Hid & Hflag).
  destruct ev as [[|]|]; simpl; [|done|].
  - unfold wellFormed. simpl. split; [lia|]. split; [done|]. split; [lia|done].
  - destruct (decide (1 < timeLeft st)) as [Hmore|Hlast].
    + rewrite tick_counts by lia. unfold wellFormed. simpl.
      split; [lia|]. split; [done|]. split; [intros _; lia|].
      intros _. apply Hflag. lia.
    + unfold tick. case_bool_decide as Hpos; [|done].
      rewrite bool_decide_eq_true_2 by lia. unfold wellFormed. simpl.
      split; [lia|]. split; [done|]. split; [done|lia].
Qed.

Lemma run_snoc events ev : run (events ++ [ev]) = step (run events) ev.
Proof. unfold run. by rewrite fold_left_app. Qed.

Lemma wellFormed_run events : wellFormed (run events).
Proof.
  induction events as [|ev events IH] using rev_ind.
  - apply wellFormed_initial.
  - rewrite run_snoc. by apply wellFormed_step.
Qed.

Lemma ticks_count_down (n : nat) st :
  wellFormed st → (Z.of_nat n < timeLeft st) →
  fold_left step (replicate n Tick) st =
    mkClipboardState (hasCopied st) (timeLeft st - Z.of_nat n) (copiedId st).
Proof.
  revert st. induction n as [|n IH]; intros st Hwf Hn.
  - simpl. destruct st. simpl. f_equal. lia.
  - simpl. rewrite tick_counts by (destruct Hwf as (? & _); lia).
    rewrite IH.
    + simpl. f_equal. lia.
    + destruct Hwf as (Hrange & Hid & Hflag). unfold wellFormed. simpl.
      split; [lia|]. split; [done|]. split; [intros _; lia|].
      intros _. apply Hflag. lia.
    + simpl. lia.
Qed.

(** X30. The copied flag lasts thirty ticks.  In every state the clipboard
    provider can reach, [timeLeft] is between 0 and 30, [copiedId] is
    still [null], and [hasCopied] is set exactly while [timeLeft] is
    positive.  After a successful copy, [n] ticks of the interval, for [n]
    below 30, leave [30 - n] seconds and the flag set; the thirtieth tick
    brings the initial state back.  A copy that fails changes nothing. *)
Theorem the_copied_flag_lasts_thirty_ticks events :
  let st := run events in
  (0 ≤ timeLeft st ≤ 30
   ∧ copiedId st = None
   ∧ (hasCopied st = true ↔ 0 < timeLeft st))
  ∧ (∀ n : nat, (n < 30)%nat →
       run (events ++ Copy true :: replicate n Tick) =
         mkClipboardState true (30 - Z.of_nat n) None)
  ∧ run (events ++ Copy true :: replicate 30 Tick) = initial
  ∧ run (events ++ [Copy false]) = st.
Proof.
  intros st. subst st.
  pose proof (wellFormed_run events) as Hwf.
  assert (∀ n : nat, (n < 30)%nat →
       run (events ++ Copy true :: replicate n Tick) =
         mkClipboardState true (30 - Z.of_nat n) None) as Hcount.
  { intros n Hn. unfold run. rewrite fold_left_app. simpl.
    fold (run events).
    pose proof (wellFormed_step _ (Copy true) Hwf) as Hwf'. simpl in Hwf'.
    rewrite ticks_count_down; [|done|simpl; lia].
    simpl. by destruct Hwf as (_ & -> & _). }
  split; [exact Hwf|]. split; [exact Hcount|]. split.
  - change (replicate 30 Tick) with (replicate 29 Tick ++ [Tick]).
    rewrite app_comm_cons, app_assoc, run_snoc.
    rewrite Hcount by lia. reflexivity.
  - by rewrite run_snoc.
Qed.

(** *** Instances *)

Lemma the_copied_flag_lasts_thirty_ticks_witness :
  (3 < 30)%nat
  ∧ run ([Copy true; Tick] ++ Copy true :: replicate 3 Tick) =
      mkClipboardState true 27 None.
Proof.
  assert (3 < 30)%nat as H1 by lia.
  exact (conj H1
    (proj1 (proj2 (the_copied_flag_lasts_thirty_ticks [Copy true; Tick]))
       3%nat H1)).
Defined.

End ClipboardFacts.
